(** * Box-blur watermark remover

    A shallow embedding of the two pixel processors of the repository,
    [ImageProcessor] (still images) and [VideoProcessor] (video frames),
    and of the per-frame video pipeline.

    Modelling conventions.
    - A finite JavaScript number is the rational ([Q]) it denotes; the
      integers are the rationals [inject_Z z].  The result of an
      arithmetic operation of the code is the double nearest to the
      exact result, [fl] of it (53 bits, ties to even, subnormal below
      [2 ^ -1022]); a literal such as [0.05] is the double nearest to
      it.  The fields of a rectangle and the sizes of an image are
      finite numbers; a duration and the frame count derived from it,
      which may be infinite or no number at all, are of type [Number].
    - The blur radius, the frame count, the timestamps and the
      percentages are computed as the code computes them, rounding
      included.
    - The filter and the validation are given twice.  The definitions
      of this first part compute coordinates, indices, sums and
      quotients exactly.  They are the code on a frame of fewer than
      [2 ^ 53] samples and a rectangle with integer fields, which is
      what the data model declares a rectangle to be: there every
      intermediate number is an integer below [2 ^ 53], which a double
      holds, or the quotient of a sum of at most 441 bytes by their
      number, which is stored as the same byte whether it is rounded to
      a double first or not.  The module [Binary64] below gives the
      filter, the validation and the two processors with every
      operation rounded, for rectangles with any fields; there a loop
      whose counter stops growing does not end, and the call does not
      return.  The lemma [processors_agree] proves that the two
      versions are the same on integer rectangles.
    - A [Uint8ClampedArray] is a [list Z] of samples in [0, 255]; an
      element read at something that is not a valid integer index is
      [undefined] ([None]); a store at such an index does nothing, and a
      stored number goes through [ToUint8Clamp].
    - Arrays live in a heap and are passed by reference ([loc]), so that
      the source and the target buffer of the filter may or may not be
      the same object.  [new ImageData(pixels, w, h)] builds the record:
      the copy it is given has the length of the source buffer.
    - Code that throws, logs or waits runs in the monad [M].  The
      browser objects the pipeline talks to (the video element, the
      media recorder) are given by what they answer; the progress
      callback records the percentage it is given and returns. *)

From Stdlib Require Import ZArith QArith Qround Qminmax Qpower Qabs Qreduction Lia Lqa.
From stdpp Require Import base list.

Local Open Scope Z_scope.

(** ** Numbers *)

(** [a < b] on rationals, as a boolean. *)
Definition Qltb (a b : Q) : bool := negb (Qle_bool b a).

(** A rational that is an integer. *)
Definition isInteger (q : Q) : bool := Qeq_bool q (inject_Z (Qfloor q)).

(** A number as an arithmetic result: [None] is [NaN], which is also what
    [undefined] becomes in an addition or in a typed-array store. *)
Definition Num := option Q.

(** [ToUint8Clamp], the conversion applied by every store into a
    [Uint8ClampedArray]: [NaN] gives 0, the number is clamped to
    [0, 255] and rounded to the nearest integer, ties to the even one. *)
Definition ToUint8Clamp (v : Num) : Z :=
  match v with
  | None => 0
  | Some q =>
      let clamped := Qmin (Qmax q 0) 255 in
      let f := Qfloor clamped in
      match (clamped ?= inject_Z f + (1 # 2))%Q with
      | Lt => f
      | Gt => f + 1
      | Eq => if Z.even f then f else f + 1
      end
  end.

(** ** Double precision *)

(** [floor (log2 |q|)], for [q] other than 0. *)
Definition binade (q : Q) : Z :=
  let e := Z.log2 (Z.abs (Qnum q)) - Z.log2 (Z.pos (Qden q)) in
  if Qle_bool (2 ^ e) (Qabs q) then e else e - 1.

(** The integer nearest to [t], the even one of two that are equally
    near. *)
Definition nearestEven (t : Q) : Z :=
  let f := Qfloor t in
  match (t - inject_Z f ?= 1 # 2)%Q with
  | Lt => f
  | Gt => f + 1
  | Eq => if Z.even f then f else f + 1
  end.

(** The double nearest to [q]: 53 bits of precision, round to nearest,
    ties to even, with the subnormal numbers of binary64 (no exponent
    below -1074).  The exponent is not bounded above here; where the
    code can overflow, [roundNumber] gives the infinity. *)
Definition fl (q : Q) : Q :=
  if Qeq_bool q 0 then 0
  else
    let e := Z.max (binade q - 52) (-1074) in
    Qred (inject_Z (nearestEven (q / 2 ^ e)) * 2 ^ e).

(** ** Typed arrays and the heap *)

(** References are positions in the heap. *)
Abbreviation loc := nat (only parsing).
Abbreviation heap := (list (list Z)) (only parsing).

(** [i] is an integer index that is not negative; whether it is below the
    length is decided by the list lookup. *)
Definition isIndex (i : Q) : bool := isInteger i && Qle_bool 0 i.

(** [a[i]]: the sample, or [undefined]. *)
Definition arrayGet (a : list Z) (i : Q) : option Z :=
  if isIndex i then a !! Z.to_nat (Qfloor i) else None.

(** [a[i] = v]: nothing happens when [i] is not an index of [a]. *)
Definition arraySet (a : list Z) (i : Q) (v : Num) : list Z :=
  if isIndex i then <[Z.to_nat (Qfloor i) := ToUint8Clamp v]> a else a.

(** Reading and writing through a reference. *)
Definition load (h : heap) (l : loc) (i : Q) : option Z :=
  h !! l ≫= λ a, arrayGet a i.

Definition store (h : heap) (l : loc) (i : Q) (v : Num) : heap :=
  alter (λ a, arraySet a i v) l h.

(** A sample read back as a number. *)
Definition toNum (v : option Z) : Num := inject_Z <$> v.

(** [s += v] where [v] was read from an array. *)
Definition addSample (s v : option Z) : option Z :=
  match s, v with
  | Some a, Some b => Some (a + b)
  | _, _ => None
  end.

(** [s / c] for a sum [s] and a count [c]. *)
Definition divCount (s : option Z) (c : Z) : Num :=
  (λ a, inject_Z a / inject_Z c)%Q <$> s.

(** ** Data model *)

Record Rectangle := mkRectangle {
  regionX : Q;
  regionY : Q;
  regionWidth : Q;
  regionHeight : Q
}.

Record ImageData := mkImageData {
  data : loc;
  width : Z;
  height : Z
}.

(** ** The blur radius *)

(** [calculateBlurRadius], identical in both processors.  The literal
    [0.05] is the double nearest to a twentieth, and the product is
    rounded. *)
Definition calculateBlurRadius (regionWidth regionHeight : Q) : Z :=
  let w := Qmax 1 regionWidth in
  let h := Qmax 1 regionHeight in
  let minDim := Qmin w h in
  let radius := Qfloor (fl (minDim * fl (1 # 20))) in
  let radius := Z.max 2 radius in
  let radius := Z.min 10 radius in
  radius.

(** [clamp v lo hi] as the specification writes the radius formula. *)
Definition clamp (v lo hi : Z) : Z :=
  if v <? lo then lo else if hi <? v then hi else v.

(** ** The box blur

    With exact arithmetic; see [Binary64] for the rounded operations. *)

(** The accumulators of the kernel loops. *)
Record Sums := mkSums {
  r_sum : option Z;
  g_sum : option Z;
  b_sum : option Z;
  count : Z
}.

(** The body of the two kernel loops for the offset [(kx, ky)]. *)
Definition sampleStep (h : heap) (sourcePixels : loc) (imageWidth imageHeight : Z)
    (x y : Q) (ky kx : Z) (acc : Sums) : Sums :=
  let sampleX := (x + inject_Z kx)%Q in
  let sampleY := (y + inject_Z ky)%Q in
  if Qle_bool 0 sampleX && Qltb sampleX (inject_Z imageWidth)
     && Qle_bool 0 sampleY && Qltb sampleY (inject_Z imageHeight)
  then
    let sampleIdx := ((sampleY * inject_Z imageWidth + sampleX) * 4)%Q in
    {| r_sum := addSample (r_sum acc) (load h sourcePixels sampleIdx);
       g_sum := addSample (g_sum acc) (load h sourcePixels (sampleIdx + 1)%Q);
       b_sum := addSample (b_sum acc) (load h sourcePixels (sampleIdx + 2)%Q);
       count := count acc + 1 |}
  else acc.

(** The values of [k] in [for (k = -radius; k <= radius; k++)]. *)
Definition kernelRange (radius : Z) : list Z := seqZ (- radius) (2 * radius + 1).

(** The two kernel loops around the pixel [(x, y)]. *)
Definition kernel (h : heap) (sourcePixels : loc) (imageWidth imageHeight : Z)
    (radius : Z) (x y : Q) : Sums :=
  foldl (λ acc ky,
           foldl (λ acc kx,
                    sampleStep h sourcePixels imageWidth imageHeight x y ky kx acc)
                 acc (kernelRange radius))
        {| r_sum := Some 0; g_sum := Some 0; b_sum := Some 0; count := 0 |}
        (kernelRange radius).

(** The body of the two pixel loops: blur the pixel [(x, y)]. *)
Definition blurPixel (targetPixels sourcePixels : loc) (radius : Z)
    (imageWidth imageHeight : Z) (x y : Q) (h : heap) : heap :=
  let k := kernel h sourcePixels imageWidth imageHeight radius x y in
  let targetIdx := ((y * inject_Z imageWidth + x) * 4)%Q in
  if 0 <? count k then
    let h := store h targetPixels targetIdx (divCount (r_sum k) (count k)) in
    let h := store h targetPixels (targetIdx + 1)%Q (divCount (g_sum k) (count k)) in
    let h := store h targetPixels (targetIdx + 2)%Q (divCount (b_sum k) (count k)) in
    store h targetPixels (targetIdx + 3)%Q
          (toNum (load h sourcePixels (targetIdx + 3)%Q))
  else
    let h := store h targetPixels targetIdx (toNum (load h sourcePixels targetIdx)) in
    let h := store h targetPixels (targetIdx + 1)%Q
                   (toNum (load h sourcePixels (targetIdx + 1)%Q)) in
    let h := store h targetPixels (targetIdx + 2)%Q
                   (toNum (load h sourcePixels (targetIdx + 2)%Q)) in
    store h targetPixels (targetIdx + 3)%Q
          (toNum (load h sourcePixels (targetIdx + 3)%Q)).

(** The values of [v] in [for (v = start; v < bound; v++)]: [start + k]
    for the [k] below the ceiling of [bound - start]. *)
Definition loopRange (start bound : Q) : list Q :=
  (λ k, start + inject_Z k)%Q <$> seqZ 0 (Qceiling (bound - start)).

(** [applyBlurEffect], identical in both processors. *)
Definition applyBlurEffect (targetPixels sourcePixels : loc) (region : Rectangle)
    (radius : Z) (imageWidth imageHeight : Z) (h : heap) : heap :=
  foldl (λ h y,
           foldl (λ h x,
                    blurPixel targetPixels sourcePixels radius
                              imageWidth imageHeight x y h)
                 h (loopRange (regionX region) (regionX region + regionWidth region)%Q))
        h (loopRange (regionY region) (regionY region + regionHeight region)%Q).

(** ** Effects: the heap, the console, the canvas and the video element *)

Inductive Error :=
| InvalidRegion          (* Watermark region is invalid or outside image boundaries. *)
| InvalidSource          (* Invalid video duration or frame rate, cannot process. *)
| DimensionsUnavailable  (* Could not determine video dimensions for processing. *)
| ZeroDimensions         (* Video dimensions are zero. Cannot extract frame. *)
| SeekError              (* Error seeking video: ... *)
| NoFramesProcessed      (* No frames were processed. Video processing failed. *)
| NoFramesToAssemble     (* No frames to assemble. *)
| EncodingError.         (* MediaRecorder produced no data / MediaRecorder error. *)

(** What [console.error] is called with. *)
Inductive LogEntry :=
| InvalidRegionLogged (region : Rectangle) (imageWidth imageHeight : Z)
| FrameErrorLogged (timeInSeconds : Q) (error : Error).

Record World := mkWorld {
  arrays : heap;              (* every typed array allocated so far *)
  console : list LogEntry;    (* the calls of console.error, oldest first *)
  canvas : Z * Z;             (* width and height of this.canvas *)
  requested : list Q;         (* the times the video was asked to seek to *)
  reported : list Z           (* the percentages given to the progress callback *)
}.

(** The result of a call: a value, an exception, or a promise that is
    never settled. *)
Inductive Outcome (A : Type) :=
| Return (a : A)
| Throw (e : Error)
| Pending.
Arguments Return {A} a.
Arguments Throw {A} e.
Arguments Pending {A}.

Definition M (A : Type) : Type := World → Outcome A * World.

#[global] Instance M_ret : MRet M := λ A a w, (Return a, w).

#[global] Instance M_bind : MBind M := λ A B f m w,
  match m w with
  | (Return a, w') => f a w'
  | (Throw e, w') => (Throw e, w')
  | (Pending, w') => (Pending, w')
  end.

Definition throw {A} (e : Error) : M A := λ w, (Throw e, w).

Definition pending {A} : M A := λ w, (Pending, w).

(** [try { body } catch (error) { handler }]: what [body] did before it
    threw stays done. *)
Definition tryCatch {A} (body : M A) (handler : Error → M A) : M A := λ w,
  match body w with
  | (Throw e, w') => handler e w'
  | r => r
  end.

Definition consoleError (entry : LogEntry) : M unit := λ w,
  (Return tt,
   mkWorld (arrays w) (console w ++ [entry]) (canvas w) (requested w) (reported w)).

Definition setCanvas (w' h' : Z) : M unit := λ w,
  (Return tt, mkWorld (arrays w) (console w) (w', h') (requested w) (reported w)).

Definition getCanvas : M (Z * Z) := λ w, (Return (canvas w), w).

Definition updateProgressCallback (percent : Z) : M unit := λ w,
  (Return tt,
   mkWorld (arrays w) (console w) (canvas w) (requested w) (reported w ++ [percent])).

(** Run a heap transformer. *)
Definition onHeap (f : heap → heap) : M unit := λ w,
  (Return tt, mkWorld (f (arrays w)) (console w) (canvas w) (requested w) (reported w)).

(** Allocate a new array holding [samples]; its reference is fresh. *)
Definition allocate (samples : list Z) : M loc := λ w,
  (Return (length (arrays w)),
   mkWorld (arrays w ++ [samples]) (console w) (canvas w) (requested w) (reported w)).

(** [new Uint8ClampedArray(source)]: a new array with a copy of the
    samples of [source]. *)
Definition newUint8ClampedArray (source : loc) : M loc := λ w,
  allocate (default [] (arrays w !! source)) w.

(** ** Region validation and the two entry points of the filter *)

(** The condition both processors test before filtering:
    [x < 0 || y < 0 || x + width > imageWidth || y + height > imageHeight
     || width <= 0 || height <= 0], with exact sums; see
    [Binary64.regionRejected] for the sums as doubles. *)
Definition regionRejected (region : Rectangle) (imageWidth imageHeight : Z) : bool :=
  Qltb (regionX region) 0 || Qltb (regionY region) 0
  || Qltb (inject_Z imageWidth) (regionX region + regionWidth region)
  || Qltb (inject_Z imageHeight) (regionY region + regionHeight region)
  || Qle_bool (regionWidth region) 0 || Qle_bool (regionHeight region) 0.

(** [ImageProcessor.removeWatermark]. *)
Definition removeWatermark (imageData : ImageData) (watermarkRegion : Rectangle)
    : M ImageData :=
  let imageWidth := width imageData in
  let imageHeight := height imageData in
  if regionRejected watermarkRegion imageWidth imageHeight then
    consoleError (InvalidRegionLogged watermarkRegion imageWidth imageHeight);;
    throw InvalidRegion
  else
    let originalPixels := data imageData in
    processedPixels ← newUint8ClampedArray originalPixels;
    let blurRadius :=
      calculateBlurRadius (regionWidth watermarkRegion) (regionHeight watermarkRegion) in
    onHeap (applyBlurEffect processedPixels originalPixels watermarkRegion
                            blurRadius imageWidth imageHeight);;
    mret (mkImageData processedPixels imageWidth imageHeight).

(** [VideoProcessor.blurWatermark]. *)
Definition blurWatermark (frameData : ImageData) (watermarkRegion : Rectangle)
    : M ImageData :=
  let imageWidth := width frameData in
  let imageHeight := height frameData in
  if regionRejected watermarkRegion imageWidth imageHeight then
    consoleError (InvalidRegionLogged watermarkRegion imageWidth imageHeight);;
    mret frameData
  else
    let originalPixels := data frameData in
    processedPixels ← newUint8ClampedArray originalPixels;
    let blurRadius :=
      calculateBlurRadius (regionWidth watermarkRegion) (regionHeight watermarkRegion) in
    onHeap (applyBlurEffect processedPixels originalPixels watermarkRegion
                            blurRadius imageWidth imageHeight);;
    mret (mkImageData processedPixels imageWidth imageHeight).

(** ** The video element *)

(** A number that may fail to be finite, as [video.duration] does
    ([NaN] with no media, [Infinity] for a stream). *)
Inductive Number :=
| Finite (q : Q)
| PosInfinity
| NegInfinity
| NaN.

(** The result of an operation on doubles whose exact value is [q]. *)
Definition roundNumber (q : Q) : Number :=
  let r := fl q in
  if Qle_bool (2 ^ 1024) (Qabs r) then
    if Qltb 0 r then PosInfinity else NegInfinity
  else Finite r.

(** [n * q]. *)
Definition numMul (n : Number) (q : Q) : Number :=
  match n with
  | Finite d => roundNumber (d * q)
  | PosInfinity =>
      if Qltb 0 q then PosInfinity else if Qltb q 0 then NegInfinity else NaN
  | NegInfinity =>
      if Qltb 0 q then NegInfinity else if Qltb q 0 then PosInfinity else NaN
  | NaN => NaN
  end.

(** [Math.floor(n)]. *)
Definition numFloor (n : Number) : Number :=
  match n with
  | Finite d => Finite (inject_Z (Qfloor d))
  | other => other
  end.

(** [n <= q]. *)
Definition numLeb (n : Number) (q : Q) : bool :=
  match n with
  | Finite d => Qle_bool d q
  | NegInfinity => true
  | PosInfinity | NaN => false
  end.

(** [isFinite(n)]. *)
Definition isFinite (n : Number) : bool :=
  match n with
  | Finite _ => true
  | _ => false
  end.

(** The values of [i] in [for (i = 0; i < n; i++)], for [n] up to
    [2 ^ 53]: up to there [i++] is exact. *)
Definition countTo (n : Number) : list Z :=
  match n with
  | Finite d => seqZ 0 (Qceiling d)
  | PosInfinity | NegInfinity | NaN => []
  end.

(** [v || d] for a property [v] that is a number or [undefined]. *)
Definition orDefault (v : option Q) (d : Q) : Q :=
  match v with
  | Some q => if Qeq_bool q 0 then d else q
  | None => d
  end.

(** What the code can observe of the element at one moment. *)
Record MediaState := mkMediaState {
  readyState : Z;
  videoWidth : Z;
  videoHeight : Z
}.

(** What follows an assignment to [currentTime]. *)
Inductive SeekEvent :=
| Seeked        (* onseeked fires *)
| SeekFailed    (* onerror fires *)
| NoEvent.      (* neither ever fires *)

Record SeekResponse := mkSeekResponse {
  state : MediaState;     (* the element during the seek *)
  picture : list Z;       (* what drawImage followed by getImageData yields *)
  event : SeekEvent
}.

Record VideoElement := mkVideoElement {
  duration : Number;
  captureFrameRate : option Q;                (* [None] is undefined *)
  initially : MediaState;                     (* when processVideo starts *)
  loadedmetadata : option (Z * Z);            (* the dimensions once the event
                                                 fires; [None]: it never does *)
  seek : list Q → Q → SeekResponse            (* earlier requests, then this one *)
}.

(** [videoElement.currentTime = timeInSeconds]. *)
Definition setCurrentTime (videoElement : VideoElement) (timeInSeconds : Q)
    : M SeekResponse := λ w,
  (Return (seek videoElement (requested w) timeInSeconds),
   mkWorld (arrays w) (console w) (canvas w)
           (requested w ++ [timeInSeconds]) (reported w)).

(** [ctx.drawImage] of the video, then [ctx.getImageData] of the whole canvas. *)
Definition getImageData (picture : list Z) : M ImageData :=
  '(canvasWidth, canvasHeight) ← getCanvas;
  pixels ← allocate picture;
  mret (mkImageData pixels canvasWidth canvasHeight).

(** [VideoProcessor.extractFrame].  The promise is resolved at once when
    the element already has data; otherwise by the first of [onseeked]
    and [onerror]. *)
Definition extractFrame (videoElement : VideoElement) (timeInSeconds : Q)
    : M ImageData :=
  response ← setCurrentTime videoElement timeInSeconds;
  let st := state response in
  if (2 <=? readyState st) && (0 <? videoWidth st) && (0 <? videoHeight st) then
    setCanvas (videoWidth st) (videoHeight st);;
    getImageData (picture response)
  else
    match event response with
    | Seeked =>
        if (videoWidth st =? 0) || (videoHeight st =? 0) then throw ZeroDimensions
        else
          setCanvas (videoWidth st) (videoHeight st);;
          getImageData (picture response)
    | SeekFailed => throw SeekError
    | NoEvent => pending
    end.

(** The part of [processVideo] that sizes the canvas before the loop. *)
Definition resolveDimensions (videoElement : VideoElement) : M unit :=
  let st := initially videoElement in
  if (0 <? videoWidth st) && (0 <? videoHeight st) then
    setCanvas (videoWidth st) (videoHeight st)
  else
    (if 1 <=? readyState st then setCanvas (videoWidth st) (videoHeight st)
     else
       match loadedmetadata videoElement with
       | Some (w', h') => setCanvas w' h'
       | None => pending
       end);;
    '(canvasWidth, canvasHeight) ← getCanvas;
    if (canvasWidth =? 0) || (canvasHeight =? 0) then throw DimensionsUnavailable
    else mret tt.

(** The body of the frame loop of [processVideo], for the index [i] and
    the frames accumulated so far. *)
Definition processFrame (videoElement : VideoElement) (watermarkRegion : Rectangle)
    (hasCallback : bool) (totalFramesToProcess processingFrameRate : Q)
    (processedFrames : list ImageData) (i : Z) : M (list ImageData) :=
  let timeInSeconds := fl (inject_Z i / processingFrameRate) in
  tryCatch
    (frameData ← extractFrame videoElement timeInSeconds;
     processedFrame ← blurWatermark frameData watermarkRegion;
     let processedFrames := processedFrames ++ [processedFrame] in
     (if hasCallback then
        updateProgressCallback
          (Qfloor (fl (fl (inject_Z (i + 1) / totalFramesToProcess) * 100)))
      else mret tt);;
     mret processedFrames)
    (λ error,
       consoleError (FrameErrorLogged timeInSeconds error);;
       mret processedFrames).

(** The frame loop: [processFrame] for each index in turn. *)
Fixpoint frameLoop (videoElement : VideoElement) (watermarkRegion : Rectangle)
    (hasCallback : bool) (totalFramesToProcess processingFrameRate : Q)
    (indices : list Z) (processedFrames : list ImageData) : M (list ImageData) :=
  match indices with
  | [] => mret processedFrames
  | i :: rest =>
      processedFrames ← processFrame videoElement watermarkRegion hasCallback
                          totalFramesToProcess processingFrameRate processedFrames i;
      frameLoop videoElement watermarkRegion hasCallback
                totalFramesToProcess processingFrameRate rest processedFrames
  end.

(** The finite value of a number, 0 when it has none. *)
Definition finiteValue (n : Number) : Q :=
  match n with
  | Finite d => d
  | _ => 0
  end.

Section Pipeline.

(** The browser's [MediaRecorder] on the canvas stream: what it does
    with the frames drawn at the given rate. *)
Inductive Recording :=
| Recorded (chunks : list (list Z))   (* onstop, with the chunks received *)
| RecorderError                       (* onerror *)
| NeverStops.

Variable mediaRecorder : list (list Z) → Q → Recording.

(** The samples of each frame, in order. *)
Definition frameSamples (frames : list ImageData) : M (list (list Z)) := λ w,
  (Return ((λ f, default [] (arrays w !! data f)) <$> frames), w).

(** [VideoProcessor.assembleVideo]. *)
Definition assembleVideo (frames : list ImageData) (frameRate : Q)
    : M (list Z) :=
  match frames with
  | [] => throw NoFramesToAssemble
  | first :: _ =>
      setCanvas (width first) (height first);;
      drawn ← frameSamples frames;
      match mediaRecorder drawn frameRate with
      | Recorded chunks =>
          if (length chunks =? 0)%nat then throw EncodingError
          else mret (concat chunks)
      | RecorderError => throw EncodingError
      | NeverStops => pending
      end
  end.

(** [VideoProcessor.processVideo]. *)
Definition processVideo (videoElement : VideoElement) (watermarkRegion : Rectangle)
    (hasCallback : bool) : M (list Z) :=
  let processingFrameRate := Qmin 30 (orDefault (captureFrameRate videoElement) 30) in
  let totalFramesToProcess :=
    numFloor (numMul (duration videoElement) processingFrameRate) in
  if numLeb totalFramesToProcess 0 || negb (isFinite totalFramesToProcess) then
    throw InvalidSource
  else
    resolveDimensions videoElement;;
    processedFrames ← frameLoop videoElement watermarkRegion hasCallback
                        (finiteValue totalFramesToProcess) processingFrameRate
                        (countTo totalFramesToProcess) [];
    if (length processedFrames =? 0)%nat then throw NoFramesProcessed
    else assembleVideo processedFrames processingFrameRate.

End Pipeline.

(** ** The filter on separate buffers, as a function of the samples

    When the target and the source are different arrays, the filter is a
    function of the source samples [a] and of the target samples [t];
    the heap is not needed to describe it.  The lemmas
    [blurPixel_separate] and [applyBlurEffect_separate] below prove that
    the code computes exactly these functions. *)

(** [blurPixel] on arrays. *)
Definition pixelOnto (a t : list Z) (radius imageWidth imageHeight : Z) (x y : Q)
    : list Z :=
  let k := kernel [a] 0%nat imageWidth imageHeight radius x y in
  let targetIdx := ((y * inject_Z imageWidth + x) * 4)%Q in
  if 0 <? count k then
    let t := arraySet t targetIdx (divCount (r_sum k) (count k)) in
    let t := arraySet t (targetIdx + 1)%Q (divCount (g_sum k) (count k)) in
    let t := arraySet t (targetIdx + 2)%Q (divCount (b_sum k) (count k)) in
    arraySet t (targetIdx + 3)%Q (toNum (arrayGet a (targetIdx + 3)%Q))
  else
    let t := arraySet t targetIdx (toNum (arrayGet a targetIdx)) in
    let t := arraySet t (targetIdx + 1)%Q (toNum (arrayGet a (targetIdx + 1)%Q)) in
    let t := arraySet t (targetIdx + 2)%Q (toNum (arrayGet a (targetIdx + 2)%Q)) in
    arraySet t (targetIdx + 3)%Q (toNum (arrayGet a (targetIdx + 3)%Q)).

(** [applyBlurEffect] on arrays. *)
Definition blurOnto (a t : list Z) (region : Rectangle)
    (radius imageWidth imageHeight : Z) : list Z :=
  foldl (λ t y,
           foldl (λ t x, pixelOnto a t radius imageWidth imageHeight x y)
                 t (loopRange (regionX region) (regionX region + regionWidth region)%Q))
        t (loopRange (regionY region) (regionY region + regionHeight region)%Q).

(** The samples of the frame a processor returns for the samples [a]:
    the filter applied onto a copy of [a]. *)
Definition blurred (a : list Z) (region : Rectangle) (imageWidth imageHeight : Z)
    : list Z :=
  blurOnto a a region
           (calculateBlurRadius (regionWidth region) (regionHeight region))
           imageWidth imageHeight.

(** [h'] has the arrays of [h], of the same lengths, and the same
    samples in all of them but [l]. *)
Definition sameBut (l : loc) (h h' : heap) : Prop :=
  length <$> h' = length <$> h ∧ ∀ j, j ≠ l → h' !! j = h !! j.

(** The world [w] with the heap [h]. *)
Definition withArrays (h : heap) (w : World) : World :=
  mkWorld h (console w) (canvas w) (requested w) (reported w).

(** The world [w] after one more call of [console.error]. *)
Definition withLogged (entry : LogEntry) (w : World) : World :=
  mkWorld (arrays w) (console w ++ [entry]) (canvas w) (requested w) (reported w).

(** ** Vocabulary of the specification *)

(** A rectangle with integer fields. *)
Definition rectangle (x0 y0 w h : Z) : Rectangle :=
  mkRectangle (inject_Z x0) (inject_Z y0) (inject_Z w) (inject_Z h).

(** The Rectangle invariant, on integers. *)
Definition validRegion (x0 y0 w h imageWidth imageHeight : Z) : Prop :=
  0 ≤ x0 ∧ 0 ≤ y0 ∧ 0 < w ∧ 0 < h ∧ x0 + w ≤ imageWidth ∧ y0 + h ≤ imageHeight.

(** A rectangle that breaks the invariant, on any numbers. *)
Definition violatesInvariant (region : Rectangle) (imageWidth imageHeight : Z) : Prop :=
  (regionX region < 0 ∨ regionY region < 0
   ∨ regionWidth region <= 0 ∨ regionHeight region <= 0
   ∨ inject_Z imageWidth < regionX region + regionWidth region
   ∨ inject_Z imageHeight < regionY region + regionHeight region)%Q.

(** The pixel [(px, py)] lies inside the rectangle. *)
Definition inRegion (x0 y0 w h px py : Z) : Prop :=
  (x0 ≤ px < x0 + w) ∧ (y0 ≤ py < y0 + h).

(** The pixel [(px, py)] lies inside the image. *)
Definition inImage (imageWidth imageHeight : Z) (p : Z * Z) : bool :=
  (0 <=? p.1) && (p.1 <? imageWidth) && (0 <=? p.2) && (p.2 <? imageHeight).

Definition isByte (v : Z) : Prop := 0 ≤ v ≤ 255.

(** The position of channel [c] of the pixel [(px, py)] in a buffer. *)
Definition sampleIndex (imageWidth px py c : Z) : nat :=
  Z.to_nat ((py * imageWidth + px) * 4 + c).

(** Channel [c] (0 red, 1 green, 2 blue, 3 alpha) of the pixel [(px, py)]. *)
Definition channel (a : list Z) (imageWidth : Z) (px py c : Z) : Z :=
  a !!! sampleIndex imageWidth px py c.

(** The samples of an image in a world. *)
Definition samplesOf (w : World) (img : ImageData) : list Z :=
  default [] (arrays w !! data img).

(** [img] is a frame of [w] with samples [a]: four bytes per pixel. *)
Definition holds (w : World) (img : ImageData) (a : list Z) : Prop :=
  arrays w !! data img = Some a
  ∧ length a = Z.to_nat (4 * width img * height img)
  ∧ Forall isByte a.

(** The kernel offsets [(kx, ky)], in the order of the loops. *)
Definition offsets (radius : Z) : list (Z * Z) :=
  ky ← kernelRange radius; kx ← kernelRange radius; [(kx, ky)].

(** The sample coordinates around [(px, py)] that lie inside the image. *)
Definition neighboursOf (imageWidth imageHeight : Z) (px py : Z) (ks : list (Z * Z))
    : list (Z * Z) :=
  List.filter (inImage imageWidth imageHeight) ((λ k, (px + k.1, py + k.2)) <$> ks).

Definition neighbours (imageWidth imageHeight radius px py : Z) : list (Z * Z) :=
  neighboursOf imageWidth imageHeight px py (offsets radius).

(** The sum of channel [c] over a list of pixels. *)
Definition sumOf (a : list Z) (imageWidth : Z) (c : Z) (ps : list (Z * Z)) : Z :=
  foldr Z.add 0 ((λ p, channel a imageWidth p.1 p.2 c) <$> ps).

Definition channelSum (a : list Z) (imageWidth imageHeight radius px py c : Z) : Z :=
  sumOf a imageWidth c (neighbours imageWidth imageHeight radius px py).

(** The number of in-bounds samples around [(px, py)]. *)
Definition sampleCount (imageWidth imageHeight radius px py : Z) : Z :=
  Z.of_nat (length (neighbours imageWidth imageHeight radius px py)).

(** [s / c] rounded to the nearest integer, ties to the even one, in
    integer arithmetic. *)
Definition roundHalfEven (s c : Z) : Z :=
  let q := s / c in
  match 2 * (s mod c) ?= c with
  | Lt => q
  | Gt => q + 1
  | Eq => if Z.even q then q else q + 1
  end.

(** What the specification says channel [c] of a blurred pixel is, with
    the mean rounded as the buffer stores it. *)
Definition blurredChannel (a : list Z) (imageWidth imageHeight radius px py c : Z) : Z :=
  if (c <? 3) && (0 <? sampleCount imageWidth imageHeight radius px py) then
    roundHalfEven (channelSum a imageWidth imageHeight radius px py c)
                  (sampleCount imageWidth imageHeight radius px py)
  else channel a imageWidth px py c.

(** The four stores of [blurPixel] at an integer pixel. *)
Definition writePixel (imageWidth : Z) (t : list Z) (px py : Z) (v : Z → Z) : list Z :=
  <[sampleIndex imageWidth px py 3 := v 3]>
    (<[sampleIndex imageWidth px py 2 := v 2]>
       (<[sampleIndex imageWidth px py 1 := v 1]>
          (<[sampleIndex imageWidth px py 0 := v 0]> t))).

(** The pixels of an integer rectangle, in the order the loops visit them. *)
Definition regionPixels (x0 y0 w h : Z) : list (Z * Z) :=
  y ← seqZ y0 h; x ← seqZ x0 w; [(x, y)].

(** The filter run over a list of integer pixels, in that order. *)
Definition blurPixelsOnto (a : list Z) (radius imageWidth imageHeight : Z)
    (t : list Z) (ps : list (Z * Z)) : list Z :=
  foldl (λ t p, pixelOnto a t radius imageWidth imageHeight
                  (inject_Z p.1) (inject_Z p.2)) t ps.

(** A buffer in which every pixel has the color [(r, g, b, al)]. *)
Definition uniformBuffer (imageWidth imageHeight : Z) (r g b al : Z) : list Z :=
  mjoin (replicate (Z.to_nat (imageWidth * imageHeight)) [r; g; b; al]).

(** The output channel is the mean itself, not the mean as stored. *)
Definition storesExactMean (a out : list Z) (imageWidth imageHeight radius px py c : Z)
    : Prop :=
  (inject_Z (channel out imageWidth px py c)
   == inject_Z (channelSum a imageWidth imageHeight radius px py c)
      / inject_Z (sampleCount imageWidth imageHeight radius px py))%Q.

(** A world with the given arrays and nothing else. *)
Definition worldOf (h : heap) : World := mkWorld h [] (0, 0) [] [].

(** ** Vocabulary of the frame pipeline *)

(** The timestamp of the sample [i]. *)
Definition timeOf (processingFrameRate : Q) (i : Z) : Q :=
  fl (inject_Z i / processingFrameRate).

(** How [extractFrame] ends on a response of the element, and with which
    frame dimensions. *)
Definition extraction (response : SeekResponse) : Outcome (Z * Z) :=
  let st := state response in
  if (2 <=? readyState st) && (0 <? videoWidth st) && (0 <? videoHeight st) then
    Return (videoWidth st, videoHeight st)
  else
    match event response with
    | Seeked =>
        if (videoWidth st =? 0) || (videoHeight st =? 0) then Throw ZeroDimensions
        else Return (videoWidth st, videoHeight st)
    | SeekFailed => Throw SeekError
    | NoEvent => Pending
    end.

(** The extraction is settled: the frame is there, or the failure is. *)
Definition settles (response : SeekResponse) : bool :=
  match extraction response with
  | Pending => false
  | _ => true
  end.

(** The extraction succeeded. *)
Definition succeeds (response : SeekResponse) : bool :=
  match extraction response with
  | Return _ => true
  | _ => false
  end.

(** The responses of the element to the samples [indices], requested in
    turn after the requests [before]. *)
Fixpoint extractions (videoElement : VideoElement) (processingFrameRate : Q)
    (before : list Q) (indices : list Z) : list (Z * SeekResponse) :=
  match indices with
  | [] => []
  | i :: rest =>
      (i, seek videoElement before (timeOf processingFrameRate i))
      :: extractions videoElement processingFrameRate
           (before ++ [timeOf processingFrameRate i]) rest
  end.

(** The samples of the frame the loop keeps for a successful extraction:
    the picture, blurred when the region is accepted for its dimensions. *)
Definition processedSamples (region : Rectangle) (response : SeekResponse) : list Z :=
  let st := state response in
  if regionRejected region (videoWidth st) (videoHeight st) then picture response
  else blurred (picture response) region (videoWidth st) (videoHeight st).

(** What the loop writes on the console for one sample. *)
Definition logOf (region : Rectangle) (processingFrameRate : Q)
    (sample : Z * SeekResponse) : list LogEntry :=
  match extraction sample.2 with
  | Throw e => [FrameErrorLogged (timeOf processingFrameRate sample.1) e]
  | Return (w', h') =>
      if regionRejected region w' h' then [InvalidRegionLogged region w' h'] else []
  | Pending => []
  end.

(** The frame rate and the number of samples of [processVideo]. *)
Definition rateOf (videoElement : VideoElement) : Q :=
  Qmin 30 (orDefault (captureFrameRate videoElement) 30).

Definition totalOf (videoElement : VideoElement) : Number :=
  numFloor (numMul (duration videoElement) (rateOf videoElement)).

(** A video element that is ready, with frames of 2 by 2 pixels showing
    a checkerboard, whose sixth seek (index 5) fails.  Its duration is
    the double nearest to a third of a second. *)
Definition checkerboard : list Z :=
  [0; 0; 0; 255; 255; 255; 255; 255; 255; 255; 255; 255; 0; 0; 0; 255].

Definition failingAtFive : VideoElement :=
  mkVideoElement (Finite (fl (1 # 3))) None (mkMediaState 4 2 2) None
    (λ before _,
       if (length before =? 5)%nat
       then mkSeekResponse (mkMediaState 1 2 2) checkerboard SeekFailed
       else mkSeekResponse (mkMediaState 4 2 2) checkerboard Seeked).

(** A video element of one second whose dimensions are zero although
    its metadata is loaded. *)
Definition withoutDimensions : VideoElement :=
  mkVideoElement (Finite 1) None (mkMediaState 1 0 0) None
    (λ _ _, mkSeekResponse (mkMediaState 4 2 2) checkerboard Seeked).

(** A video element of three tenths of a second (the double nearest to
    0.3), ready and answering every seek. *)
Definition threeTenths : VideoElement :=
  mkVideoElement (Finite (fl (3 # 10))) None (mkMediaState 4 2 2) None
    (λ _ _, mkSeekResponse (mkMediaState 4 2 2) checkerboard Seeked).

(** * The filter in double precision

    The functions of the filter again, with every arithmetic operation
    of the code rounded to a double: the sums [x + width] and
    [y + height] of the validation and of the loop bounds, the loop
    counters, the sample coordinates, the indices, the sums and the
    quotients.  Arrays, the heap and the monad are those of the
    definitions above. *)

Module Binary64.

(** [s += v] where [v] was read from an array. *)
Definition addSample (s : Num) (v : option Z) : Num :=
  match s, v with
  | Some a, Some b => Some (fl (a + inject_Z b))
  | _, _ => None
  end.

(** [s / c] for a sum [s] and a count [c]. *)
Definition divCount (s : Num) (c : Z) : Num :=
  (λ a, fl (a / inject_Z c)) <$> s.

(** The accumulators of the kernel loops. *)
Record Sums := mkSums {
  r_sum : Num;
  g_sum : Num;
  b_sum : Num;
  count : Z
}.

(** The body of the two kernel loops for the offset [(kx, ky)]. *)
Definition sampleStep (h : heap) (sourcePixels : loc) (imageWidth imageHeight : Z)
    (x y : Q) (ky kx : Z) (acc : Sums) : Sums :=
  let sampleX := fl (x + inject_Z kx) in
  let sampleY := fl (y + inject_Z ky) in
  if Qle_bool 0 sampleX && Qltb sampleX (inject_Z imageWidth)
     && Qle_bool 0 sampleY && Qltb sampleY (inject_Z imageHeight)
  then
    let sampleIdx := fl (fl (fl (sampleY * inject_Z imageWidth) + sampleX) * 4) in
    {| r_sum := addSample (r_sum acc) (load h sourcePixels sampleIdx);
       g_sum := addSample (g_sum acc) (load h sourcePixels (fl (sampleIdx + 1)));
       b_sum := addSample (b_sum acc) (load h sourcePixels (fl (sampleIdx + 2)));
       count := count acc + 1 |}
  else acc.

(** The two kernel loops around the pixel [(x, y)]. *)
Definition kernel (h : heap) (sourcePixels : loc) (imageWidth imageHeight : Z)
    (radius : Z) (x y : Q) : Sums :=
  foldl (λ acc ky,
           foldl (λ acc kx,
                    sampleStep h sourcePixels imageWidth imageHeight x y ky kx acc)
                 acc (kernelRange radius))
        {| r_sum := Some 0%Q; g_sum := Some 0%Q; b_sum := Some 0%Q; count := 0 |}
        (kernelRange radius).

(** The body of the two pixel loops: blur the pixel [(x, y)]. *)
Definition blurPixel (targetPixels sourcePixels : loc) (radius : Z)
    (imageWidth imageHeight : Z) (x y : Q) (h : heap) : heap :=
  let k := kernel h sourcePixels imageWidth imageHeight radius x y in
  let targetIdx := fl (fl (fl (y * inject_Z imageWidth) + x) * 4) in
  if 0 <? count k then
    let h := store h targetPixels targetIdx (divCount (r_sum k) (count k)) in
    let h := store h targetPixels (fl (targetIdx + 1))
                   (divCount (g_sum k) (count k)) in
    let h := store h targetPixels (fl (targetIdx + 2))
                   (divCount (b_sum k) (count k)) in
    store h targetPixels (fl (targetIdx + 3))
          (toNum (load h sourcePixels (fl (targetIdx + 3))))
  else
    let h := store h targetPixels targetIdx (toNum (load h sourcePixels targetIdx)) in
    let h := store h targetPixels (fl (targetIdx + 1))
                   (toNum (load h sourcePixels (fl (targetIdx + 1)))) in
    let h := store h targetPixels (fl (targetIdx + 2))
                   (toNum (load h sourcePixels (fl (targetIdx + 2)))) in
    store h targetPixels (fl (targetIdx + 3))
          (toNum (load h sourcePixels (fl (targetIdx + 3)))).

(** The values of [v] in [for (v = start; v < bound; v++)], where [v++]
    is the double nearest to [v + 1]: [None] when the counter stops
    growing below the bound, where the loop does not end.  A counter
    that grows does so by a half at least, so twice the distance to the
    bound is enough fuel. *)
Fixpoint countUp (fuel : nat) (v bound : Q) : option (list Q) :=
  match fuel with
  | O => None
  | S fuel =>
      if Qltb v bound then
        if Qle_bool (fl (v + 1)) v then None
        else cons v <$> countUp fuel (fl (v + 1)) bound
      else Some []
  end.

Definition loopRange (start bound : Q) : option (list Q) :=
  countUp (S (Z.to_nat (2 * Qceiling (bound - start)))) start bound.

(** [applyBlurEffect]: [None] when one of its two pixel loops does not
    end.  The loop over the columns is run once for each row. *)
Definition applyBlurEffect (targetPixels sourcePixels : loc) (region : Rectangle)
    (radius : Z) (imageWidth imageHeight : Z) (h : heap) : option heap :=
  ys ← loopRange (regionY region) (fl (regionY region + regionHeight region));
  match ys with
  | [] => Some h
  | _ :: _ =>
      xs ← loopRange (regionX region) (fl (regionX region + regionWidth region));
      Some (foldl (λ h y,
                     foldl (λ h x,
                              blurPixel targetPixels sourcePixels radius
                                        imageWidth imageHeight x y h)
                           h xs)
                  h ys)
  end.

(** Run a heap transformer that may not return: the call is then left
    pending. *)
Definition onHeap (f : heap → option heap) : M unit := λ w,
  match f (arrays w) with
  | Some h =>
      (Return tt, mkWorld h (console w) (canvas w) (requested w) (reported w))
  | None => (Pending, w)
  end.

(** The condition both processors test before filtering. *)
Definition regionRejected (region : Rectangle) (imageWidth imageHeight : Z) : bool :=
  Qltb (regionX region) 0 || Qltb (regionY region) 0
  || Qltb (inject_Z imageWidth) (fl (regionX region + regionWidth region))
  || Qltb (inject_Z imageHeight) (fl (regionY region + regionHeight region))
  || Qle_bool (regionWidth region) 0 || Qle_bool (regionHeight region) 0.

(** [ImageProcessor.removeWatermark]. *)
Definition removeWatermark (imageData : ImageData) (watermarkRegion : Rectangle)
    : M ImageData :=
  let imageWidth := width imageData in
  let imageHeight := height imageData in
  if regionRejected watermarkRegion imageWidth imageHeight then
    consoleError (InvalidRegionLogged watermarkRegion imageWidth imageHeight);;
    throw InvalidRegion
  else
    let originalPixels := data imageData in
    processedPixels ← newUint8ClampedArray originalPixels;
    let blurRadius :=
      calculateBlurRadius (regionWidth watermarkRegion) (regionHeight watermarkRegion) in
    onHeap (applyBlurEffect processedPixels originalPixels watermarkRegion
                            blurRadius imageWidth imageHeight);;
    mret (mkImageData processedPixels imageWidth imageHeight).

(** [VideoProcessor.blurWatermark]. *)
Definition blurWatermark (frameData : ImageData) (watermarkRegion : Rectangle)
    : M ImageData :=
  let imageWidth := width frameData in
  let imageHeight := height frameData in
  if regionRejected watermarkRegion imageWidth imageHeight then
    consoleError (InvalidRegionLogged watermarkRegion imageWidth imageHeight);;
    mret frameData
  else
    let originalPixels := data frameData in
    processedPixels ← newUint8ClampedArray originalPixels;
    let blurRadius :=
      calculateBlurRadius (regionWidth watermarkRegion) (regionHeight watermarkRegion) in
    onHeap (applyBlurEffect processedPixels originalPixels watermarkRegion
                            blurRadius imageWidth imageHeight);;
    mret (mkImageData processedPixels imageWidth imageHeight).

(** One of the six inequalities of the validation holds, the sums being
    the doubles the code compares. *)
Definition violatesInvariant (region : Rectangle) (imageWidth imageHeight : Z) : Prop :=
  (regionX region < 0 ∨ regionY region < 0
   ∨ regionWidth region <= 0 ∨ regionHeight region <= 0
   ∨ inject_Z imageWidth < fl (regionX region + regionWidth region)
   ∨ inject_Z imageHeight < fl (regionY region + regionHeight region))%Q.

End Binary64.

(** The kernel sums of the exact filter, as the numbers of the filter in
    double precision. *)
Definition ofSums (s : Sums) : Binary64.Sums :=
  Binary64.mkSums (toNum (r_sum s)) (toNum (g_sum s)) (toNum (b_sum s)) (count s).

(** The sums are at most [m]. *)
Definition sumsBelow (m : Z) (acc : Sums) : Prop :=
  ∀ x, r_sum acc = Some x ∨ g_sum acc = Some x ∨ b_sum acc = Some x → 0 ≤ x ≤ m.

(** * Proofs *)

(** ** Rationals that are integers *)

Lemma Qle_bool_inject (a b : Z) : Qle_bool (inject_Z a) (inject_Z b) = (a <=? b).
Proof. unfold Qle_bool, inject_Z; simpl. by rewrite !Z.mul_1_r. Qed.

Lemma Qltb_inject (a b : Z) : Qltb (inject_Z a) (inject_Z b) = (a <? b).
Proof. unfold Qltb. by rewrite Qle_bool_inject, Z.ltb_antisym. Qed.

Lemma Qltb_lt (a b : Q) : Qltb a b = true ↔ (a < b)%Q.
Proof.
  unfold Qltb. rewrite negb_true_iff. split.
  - intros H. apply Qnot_le_lt. intros Hle. apply Qle_bool_iff in Hle. congruence.
  - intros H. destruct (Qle_bool b a) eqn:E; [|done].
    apply Qle_bool_iff in E. exfalso. by apply (Qlt_not_le a b).
Qed.

Lemma Qltb_ge (a b : Q) : Qltb a b = false ↔ (b <= a)%Q.
Proof.
  unfold Qltb. rewrite negb_false_iff. apply Qle_bool_iff.
Qed.

Lemma inject_Z_add (a b : Z) : (inject_Z a + inject_Z b)%Q = inject_Z (a + b).
Proof. by rewrite inject_Z_plus. Qed.

Lemma inject_Z_mul (a b : Z) : (inject_Z a * inject_Z b)%Q = inject_Z (a * b).
Proof. by rewrite inject_Z_mult. Qed.

(** Turn an arithmetic expression over injected integers into one
    injected integer. *)
Ltac to_inject :=
  change 0%Q with (inject_Z 0) in *; change 1%Q with (inject_Z 1) in *;
  change 2%Q with (inject_Z 2) in *; change 3%Q with (inject_Z 3) in *;
  change 4%Q with (inject_Z 4) in *;
  repeat first [rewrite inject_Z_mul in * | rewrite inject_Z_add in *].

Lemma isInteger_inject (z : Z) : isInteger (inject_Z z) = true.
Proof. unfold isInteger. rewrite Qfloor_Z. apply Qeq_bool_iff. reflexivity. Qed.

Lemma isIndex_inject (z : Z) : isIndex (inject_Z z) = (0 <=? z).
Proof.
  unfold isIndex. rewrite isInteger_inject. simpl. apply (Qle_bool_inject 0 z).
Qed.

Lemma loopRange_inject (start size : Z) :
  loopRange (inject_Z start) (inject_Z start + inject_Z size)
  = inject_Z <$> seqZ start size.
Proof.
  unfold loopRange.
  assert (E : ((inject_Z start + inject_Z size) - inject_Z start == inject_Z size)%Q)
    by ring.
  rewrite (Qceiling_comp _ _ E), Qceiling_Z.
  replace (seqZ start size) with (Z.add start <$> seqZ 0 size)
    by (rewrite fmap_add_seqZ; f_equal; lia).
  rewrite <- list_fmap_compose.
  apply list_fmap_ext. intros i k _. simpl. by rewrite inject_Z_add.
Qed.

(** The loop [for (v = start; v < bound; v++)] runs its body for
    [start + k] exactly when [start + k < bound]. *)
Lemma loopRange_condition (start bound : Q) (k : Z) :
  0 ≤ k →
  (start + inject_Z k)%Q ∈ loopRange start bound ↔ (start + inject_Z k < bound)%Q.
Proof.
  intros Hk. unfold loopRange. rewrite list_elem_of_fmap. split.
  - intros (j & E & Hj). apply elem_of_seqZ in Hj.
    assert (Hkj : (inject_Z k == inject_Z j)%Q).
    { apply (Qplus_inj_l _ _ start). by rewrite E. }
    unfold Qeq in Hkj; simpl in Hkj. assert (j = k) as -> by lia.
    pose proof (Qceiling_lt (bound - start)) as Hc.
    assert (Hck : (inject_Z k <= inject_Z (Qceiling (bound - start) - 1))%Q)
      by (rewrite <- Zle_Qle; lia).
    lra.
  - intros Hlt. exists k. split; [done|]. apply elem_of_seqZ. split; [lia|].
    simpl. apply Z.lt_nge. intros Hge.
    pose proof (Qle_ceiling (bound - start)) as Hc.
    assert (Hck : (inject_Z (Qceiling (bound - start)) <= inject_Z k)%Q)
      by (rewrite <- Zle_Qle; lia).
    lra.
Qed.

(** ** Rounding *)

Lemma Qmax_l_eq (q : Q) : (0 <= q)%Q → Qmax q 0 = q.
Proof.
  intros H. unfold Qmax, GenericMinMax.gmax.
  destruct (q ?= 0)%Q eqn:E; try done.
  apply Qlt_alt in E. exfalso. by apply (Qlt_not_le q 0).
Qed.

Lemma Qmin_l_eq (q : Q) : (q <= 255)%Q → Qmin q 255 = q.
Proof.
  intros H. unfold Qmin, GenericMinMax.gmin. by destruct (q ?= 255)%Q eqn:E.
Qed.

(** Storing the quotient of a sum of bytes by their number rounds it to
    the nearest integer, ties to even. *)
Lemma ToUint8Clamp_quotient (s c : Z) :
  0 < c → 0 ≤ s ≤ 255 * c →
  ToUint8Clamp (Some (inject_Z s / inject_Z c)%Q) = roundHalfEven s c.
Proof.
  intros Hc Hs. unfold ToUint8Clamp, roundHalfEven.
  assert (Hq0 : (0 <= inject_Z s / inject_Z c)%Q).
  { apply Qle_shift_div_l; unfold Qlt, Qle; simpl; lia. }
  assert (Hq1 : (inject_Z s / inject_Z c <= 255)%Q).
  { apply Qle_shift_div_r; unfold Qlt, Qle; simpl; lia. }
  rewrite Qmax_l_eq, Qmin_l_eq by (try rewrite Qmax_l_eq; done).
  rewrite <- Zdiv_Qdiv.
  assert (Hcmp : (inject_Z s / inject_Z c ?= inject_Z (s / c) + (1 # 2))%Q
                 = (2 * (s mod c) ?= c)).
  { unfold Qcompare, Qdiv, Qmult, Qplus, Qinv, inject_Z. simpl.
    destruct c as [|c|c]; try lia. simpl.
    pose proof (Z.div_mod s (Z.pos c) ltac:(lia)) as Hdm.
    destruct (2 * (s mod Z.pos c) ?= Z.pos c) eqn:E.
    - apply Z.compare_eq_iff in E. apply Z.compare_eq_iff. nia.
    - rewrite Z.compare_lt_iff in E. apply Z.compare_lt_iff. nia.
    - rewrite Z.compare_gt_iff in E. apply Z.compare_gt_iff. nia. }
  by rewrite Hcmp.
Qed.

Lemma ToUint8Clamp_byte (v : Z) :
  isByte v → ToUint8Clamp (Some (inject_Z v)) = v.
Proof.
  intros Hv. unfold ToUint8Clamp.
  rewrite Qmax_l_eq, Qmin_l_eq; try (unfold Qle; simpl; unfold isByte in Hv; lia).
  rewrite Qfloor_Z.
  assert (Hlt : (inject_Z v ?= inject_Z v + (1 # 2))%Q = Lt).
  { unfold Qcompare; simpl. apply Z.compare_lt_iff. lia. }
  by rewrite Hlt.
Qed.

(** [roundHalfEven s c] is an integer nearest to [s / c]. *)
Lemma roundHalfEven_nearest (s c : Z) :
  0 < c → Z.abs (2 * (c * roundHalfEven s c - s)) ≤ c.
Proof.
  intros Hc. unfold roundHalfEven.
  pose proof (Z.div_mod s c ltac:(lia)) as Hdm.
  pose proof (Z.mod_pos_bound s c Hc) as Hm.
  destruct (2 * (s mod c) ?= c) eqn:E.
  - apply Z.compare_eq_iff in E. destruct (Z.even (s / c)); nia.
  - rewrite Z.compare_lt_iff in E. nia.
  - rewrite Z.compare_gt_iff in E. nia.
Qed.

(** The mean of [c] copies of [v] is [v]. *)
Lemma roundHalfEven_exact (v c : Z) : 0 < c → roundHalfEven (c * v) c = v.
Proof.
  intros Hc. unfold roundHalfEven.
  rewrite (Z.mul_comm c v), Z.mod_mul, Z.div_mul by lia.
  assert (E : (2 * 0 ?= c) = Lt) by (apply Z.compare_lt_iff; lia).
  by rewrite E.
Qed.

(** ** Typed arrays *)

Lemma arrayGet_inject (a : list Z) (i : Z) :
  arrayGet a (inject_Z i) = if 0 <=? i then a !! Z.to_nat i else None.
Proof. unfold arrayGet. by rewrite isIndex_inject, Qfloor_Z. Qed.

Lemma arraySet_inject (a : list Z) (i : Z) (v : Num) :
  arraySet a (inject_Z i) v =
  if 0 <=? i then <[Z.to_nat i := ToUint8Clamp v]> a else a.
Proof. unfold arraySet. by rewrite isIndex_inject, Qfloor_Z. Qed.

Lemma length_arraySet (a : list Z) (i : Q) (v : Num) :
  length (arraySet a i v) = length a.
Proof. unfold arraySet. destruct (isIndex i); [apply length_insert | done]. Qed.

(** ** The filter touches the target array only *)

Lemma sameBut_refl (l : loc) (h : heap) : sameBut l h h.
Proof. by split. Qed.

Lemma sameBut_trans (l : loc) (h1 h2 h3 : heap) :
  sameBut l h1 h2 → sameBut l h2 h3 → sameBut l h1 h3.
Proof.
  intros [L1 E1] [L2 E2]. split; [congruence|].
  intros j Hj. by rewrite E2, E1.
Qed.

Lemma sameBut_store (l : loc) (h : heap) (i : Q) (v : Num) :
  sameBut l h (store h l i v).
Proof.
  unfold store. split.
  - apply list_eq. intros j. rewrite !list_lookup_fmap.
    destruct (decide (l = j)) as [<-|Hne].
    + rewrite list_lookup_alter_eq. destruct (h !! l); [|done]. simpl.
      by rewrite length_arraySet.
    + by rewrite list_lookup_alter_ne.
  - intros j Hj. by rewrite list_lookup_alter_ne.
Qed.

Lemma sameBut_blurPixel (targetPixels sourcePixels : loc)
    (radius imageWidth imageHeight : Z) (x y : Q) (h : heap) :
  sameBut targetPixels h
    (blurPixel targetPixels sourcePixels radius imageWidth imageHeight x y h).
Proof.
  unfold blurPixel. destruct (0 <? count _);
    repeat (eapply sameBut_trans; [|apply sameBut_store]); apply sameBut_refl.
Qed.

Lemma sameBut_foldl {A} (l : loc) (f : heap → A → heap) (xs : list A) (h : heap) :
  (∀ h x, sameBut l h (f h x)) → sameBut l h (foldl f h xs).
Proof.
  intros Hf. revert h. induction xs as [|x xs IH]; intros h; simpl.
  - apply sameBut_refl.
  - eapply sameBut_trans; [apply Hf | apply IH].
Qed.

Lemma sameBut_applyBlurEffect (targetPixels sourcePixels : loc) (region : Rectangle)
    (radius imageWidth imageHeight : Z) (h : heap) :
  sameBut targetPixels h
    (applyBlurEffect targetPixels sourcePixels region radius imageWidth imageHeight h).
Proof.
  unfold applyBlurEffect. apply sameBut_foldl. intros h' y.
  apply sameBut_foldl. intros h'' x. apply sameBut_blurPixel.
Qed.

(** ** The filter on separate buffers *)

Section Separate.
Context (targetPixels sourcePixels : loc) (a : list Z).
Context (radius imageWidth imageHeight : Z).
Hypothesis Hsep : targetPixels ≠ sourcePixels.

Lemma load_source (h : heap) (i : Q) :
  h !! sourcePixels = Some a → load h sourcePixels i = arrayGet a i.
Proof. intros Hs. unfold load. by rewrite Hs. Qed.

Lemma store_target (h : heap) (t : list Z) (i : Q) (v : Num) :
  h !! targetPixels = Some t →
  store h targetPixels i v = <[targetPixels := arraySet t i v]> h.
Proof.
  intros Ht. unfold store. apply list_eq. intros j.
  destruct (decide (targetPixels = j)) as [<-|Hne].
  - rewrite list_lookup_alter_eq, Ht. simpl.
    rewrite list_lookup_insert_eq; [done|]. by eapply lookup_lt_Some.
  - by rewrite list_lookup_alter_ne, list_lookup_insert_ne.
Qed.

Lemma sampleStep_source (h : heap) (x y : Q) (ky kx : Z) (acc : Sums) :
  h !! sourcePixels = Some a →
  sampleStep h sourcePixels imageWidth imageHeight x y ky kx acc
  = sampleStep [a] 0%nat imageWidth imageHeight x y ky kx acc.
Proof. intros Hs. unfold sampleStep. by rewrite !(load_source h) by done. Qed.

Lemma kernelRow_source (h : heap) (x y : Q) (ky : Z) (kxs : list Z) (acc : Sums) :
  h !! sourcePixels = Some a →
  foldl (λ acc kx, sampleStep h sourcePixels imageWidth imageHeight x y ky kx acc)
        acc kxs
  = foldl (λ acc kx, sampleStep [a] 0%nat imageWidth imageHeight x y ky kx acc)
          acc kxs.
Proof.
  intros Hs. revert acc. induction kxs as [|kx kxs IH]; intros acc; [done|].
  simpl. by rewrite IH, sampleStep_source.
Qed.

(** The kernel sums depend on the heap through the source samples only. *)
Lemma kernel_source (h : heap) (x y : Q) :
  h !! sourcePixels = Some a →
  kernel h sourcePixels imageWidth imageHeight radius x y
  = kernel [a] 0%nat imageWidth imageHeight radius x y.
Proof.
  intros Hs. unfold kernel.
  generalize (mkSums (Some 0) (Some 0) (Some 0) 0) as acc.
  generalize (kernelRange radius) at 2 4 as kys.
  intros kys. induction kys as [|ky kys IH]; intros acc; [done|].
  simpl. by rewrite IH, kernelRow_source.
Qed.

Lemma blurPixel_separate (h : heap) (t : list Z) (x y : Q) :
  h !! sourcePixels = Some a → h !! targetPixels = Some t →
  blurPixel targetPixels sourcePixels radius imageWidth imageHeight x y h
  = <[targetPixels := pixelOnto a t radius imageWidth imageHeight x y]> h.
Proof.
  intros Hs Ht. unfold blurPixel, pixelOnto.
  rewrite (kernel_source h) by done.
  assert (Hlt : (targetPixels < length h)%nat) by by eapply lookup_lt_Some.
  assert (Hins : ∀ u v, <[targetPixels := u]> (<[targetPixels := v]> h)
                        = <[targetPixels := u]> h).
  { intros u v. apply list_insert_insert_eq. }
  assert (Hsrc : ∀ u, <[targetPixels := u]> h !! sourcePixels = Some a).
  { intros u. by rewrite list_lookup_insert_ne. }
  assert (Htgt : ∀ u, <[targetPixels := u]> h !! targetPixels = Some u).
  { intros u. by rewrite list_lookup_insert_eq. }
  destruct (0 <? count _).
  - rewrite (store_target h t) by done.
    rewrite (store_target _ _ _ _ (Htgt _)), Hins.
    rewrite (store_target _ _ _ _ (Htgt _)), Hins.
    rewrite (load_source _ _ (Hsrc _)).
    by rewrite (store_target _ _ _ _ (Htgt _)), Hins.
  - rewrite (load_source h) by done.
    rewrite (store_target h t) by done.
    rewrite (load_source _ _ (Hsrc _)).
    rewrite (store_target _ _ _ _ (Htgt _)), Hins.
    rewrite (load_source _ _ (Hsrc _)).
    rewrite (store_target _ _ _ _ (Htgt _)), Hins.
    rewrite (load_source _ _ (Hsrc _)).
    by rewrite (store_target _ _ _ _ (Htgt _)), Hins.
Qed.

Lemma blurRow_separate (xs : list Q) (y : Q) (h : heap) (t : list Z) :
  h !! sourcePixels = Some a → h !! targetPixels = Some t →
  foldl (λ h x, blurPixel targetPixels sourcePixels radius
                  imageWidth imageHeight x y h) h xs
  = <[targetPixels :=
        foldl (λ t x, pixelOnto a t radius imageWidth imageHeight x y) t xs]> h.
Proof.
  revert h t. induction xs as [|x xs IH]; intros h t Hs Ht; simpl.
  - symmetry. by apply list_insert_id.
  - rewrite (blurPixel_separate h t) by done.
    rewrite (IH _ (pixelOnto a t radius imageWidth imageHeight x y)).
    + apply list_insert_insert_eq.
    + by rewrite list_lookup_insert_ne.
    + rewrite list_lookup_insert_eq; [done|]. by eapply lookup_lt_Some.
Qed.

(** On separate buffers the code computes [blurOnto]: every sample it
    reads is a sample of the source as it was before the call. *)
Lemma applyBlurEffect_separate (region : Rectangle) (h : heap) (t : list Z) :
  h !! sourcePixels = Some a → h !! targetPixels = Some t →
  applyBlurEffect targetPixels sourcePixels region radius imageWidth imageHeight h
  = <[targetPixels := blurOnto a t region radius imageWidth imageHeight]> h.
Proof.
  unfold applyBlurEffect, blurOnto.
  generalize (loopRange (regionX region) (regionX region + regionWidth region)) as xs.
  generalize (loopRange (regionY region) (regionY region + regionHeight region)) as ys.
  intros ys xs. revert h t.
  induction ys as [|y ys IH]; intros h t Hs Ht; simpl.
  - symmetry. by apply list_insert_id.
  - rewrite (blurRow_separate xs y h t) by done.
    rewrite (IH _ (foldl (λ t x, pixelOnto a t radius imageWidth imageHeight x y) t xs)).
    + apply list_insert_insert_eq.
    + by rewrite list_lookup_insert_ne.
    + rewrite list_lookup_insert_eq; [done|]. by eapply lookup_lt_Some.
Qed.

End Separate.

Lemma length_pixelOnto (a t : list Z) (radius imageWidth imageHeight : Z) (x y : Q) :
  length (pixelOnto a t radius imageWidth imageHeight x y) = length t.
Proof.
  unfold pixelOnto. destruct (0 <? count _); by rewrite !length_arraySet.
Qed.

Lemma length_blurOnto (a t : list Z) (region : Rectangle)
    (radius imageWidth imageHeight : Z) :
  length (blurOnto a t region radius imageWidth imageHeight) = length t.
Proof.
  unfold blurOnto.
  generalize (loopRange (regionX region) (regionX region + regionWidth region)) as xs.
  generalize (loopRange (regionY region) (regionY region + regionHeight region)) as ys.
  intros ys xs. revert t. induction ys as [|y ys IH]; intros t; [done|].
  simpl. rewrite IH. generalize t. clear.
  induction xs as [|x xs IH]; intros t; [done|].
  simpl. by rewrite IH, length_pixelOnto.
Qed.

(** ** The kernel at an integer pixel *)

Lemma inImage_bounds (imageWidth imageHeight px py : Z) :
  inImage imageWidth imageHeight (px, py) = true
  ↔ 0 ≤ px < imageWidth ∧ 0 ≤ py < imageHeight.
Proof.
  unfold inImage; simpl. rewrite !andb_true_iff, !Z.leb_le, !Z.ltb_lt. lia.
Qed.

Lemma sampleIndex_lt (imageWidth imageHeight px py c : Z) :
  0 ≤ px < imageWidth → 0 ≤ py < imageHeight → 0 ≤ c < 4 →
  (sampleIndex imageWidth px py c < Z.to_nat (4 * imageWidth * imageHeight))%nat.
Proof. intros. unfold sampleIndex. apply Z2Nat.inj_lt; nia. Qed.

Section Kernel.
Context (a : list Z) (imageWidth imageHeight : Z).
Hypothesis Hlen : length a = Z.to_nat (4 * imageWidth * imageHeight).

Lemma arrayGet_channel (px py c : Z) :
  0 ≤ px < imageWidth → 0 ≤ py < imageHeight → 0 ≤ c < 4 →
  arrayGet a (inject_Z ((py * imageWidth + px) * 4 + c))
  = Some (channel a imageWidth px py c).
Proof.
  intros Hx Hy Hc. rewrite arrayGet_inject.
  rewrite (proj2 (Z.leb_le 0 _)) by nia.
  unfold channel. apply list_lookup_lookup_total_lt.
  rewrite Hlen. by apply sampleIndex_lt.
Qed.

Lemma sampleStep_at (px py ky kx : Z) (r g b : Z) (n : Z) :
  sampleStep [a] 0%nat imageWidth imageHeight (inject_Z px) (inject_Z py) ky kx
             (mkSums (Some r) (Some g) (Some b) n)
  = if inImage imageWidth imageHeight (px + kx, py + ky) then
      mkSums (Some (r + channel a imageWidth (px + kx) (py + ky) 0))
             (Some (g + channel a imageWidth (px + kx) (py + ky) 1))
             (Some (b + channel a imageWidth (px + kx) (py + ky) 2))
             (n + 1)
    else mkSums (Some r) (Some g) (Some b) n.
Proof.
  unfold sampleStep. rewrite !inject_Z_add.
  change 0%Q with (inject_Z 0). rewrite !Qle_bool_inject, !Qltb_inject.
  destruct (inImage imageWidth imageHeight (px + kx, py + ky)) eqn:Hin.
  - pose proof Hin as Hin'. unfold inImage in Hin'. simpl in Hin'. rewrite Hin'.
    apply inImage_bounds in Hin as [Hx Hy].
    cbn [r_sum g_sum b_sum count]. unfold load. cbn [lookup list_lookup mbind option_bind].
    pose proof (arrayGet_channel (px + kx) (py + ky) 0 Hx Hy ltac:(lia)) as H0.
    pose proof (arrayGet_channel (px + kx) (py + ky) 1 Hx Hy ltac:(lia)) as H1.
    pose proof (arrayGet_channel (px + kx) (py + ky) 2 Hx Hy ltac:(lia)) as H2.
    to_inject. rewrite Z.add_0_r in H0. by rewrite H0, H1, H2.
  - unfold inImage in Hin. simpl in Hin. by rewrite Hin.
Qed.

Lemma samples_at (px py : Z) (ks : list (Z * Z)) (r g b n : Z) :
  foldl (λ acc k, sampleStep [a] 0%nat imageWidth imageHeight
                    (inject_Z px) (inject_Z py) k.2 k.1 acc)
        (mkSums (Some r) (Some g) (Some b) n) ks
  = let ps := neighboursOf imageWidth imageHeight px py ks in
    mkSums (Some (r + sumOf a imageWidth 0 ps)) (Some (g + sumOf a imageWidth 1 ps))
           (Some (b + sumOf a imageWidth 2 ps)) (n + Z.of_nat (length ps)).
Proof.
  revert r g b n. induction ks as [|[kx ky] ks IH]; intros r g b n.
  - simpl. by rewrite !Z.add_0_r.
  - simpl foldl. rewrite sampleStep_at.
    unfold neighboursOf. rewrite fmap_cons. simpl List.filter. simpl fst; simpl snd.
    destruct (inImage imageWidth imageHeight (px + kx, py + ky)).
    + rewrite IH. unfold neighboursOf, sumOf. cbn [fmap list_fmap foldr length fst snd].
      rewrite Nat2Z.inj_succ, !Z.add_assoc. f_equal. lia.
    + by rewrite IH.
Qed.

Lemma foldl_nested {A B C} (f : A → B → C → A) (ys : list B) (xs : list C) (acc : A) :
  foldl (λ acc y, foldl (λ acc x, f acc y x) acc xs) acc ys
  = foldl (λ acc p, f acc p.2 p.1) acc (y ← ys; x ← xs; [(x, y)]).
Proof.
  revert acc. induction ys as [|y ys IH]; intros acc; [done|].
  simpl. rewrite foldl_app, <- IH. f_equal.
  generalize acc. clear. induction xs as [|x xs IH]; intros acc; [done|].
  simpl. by rewrite IH.
Qed.

(** The kernel loops compute the sums and the count of the in-bounds
    samples. *)
Lemma kernel_at (radius px py : Z) :
  kernel [a] 0%nat imageWidth imageHeight radius (inject_Z px) (inject_Z py)
  = mkSums (Some (channelSum a imageWidth imageHeight radius px py 0))
           (Some (channelSum a imageWidth imageHeight radius px py 1))
           (Some (channelSum a imageWidth imageHeight radius px py 2))
           (sampleCount imageWidth imageHeight radius px py).
Proof.
  unfold kernel.
  rewrite (foldl_nested (λ acc ky kx, sampleStep [a] 0%nat imageWidth imageHeight
                                        (inject_Z px) (inject_Z py) ky kx acc)).
  exact (samples_at px py (offsets radius) 0 0 0 0).
Qed.

End Kernel.

(** ** One pixel *)

Lemma channel_byte (a : list Z) (imageWidth px py c : Z) :
  Forall isByte a → isByte (channel a imageWidth px py c).
Proof.
  intros Ha. unfold channel.
  destruct (a !! sampleIndex imageWidth px py c) as [v|] eqn:E.
  - rewrite (list_lookup_total_correct _ _ _ E).
    by eapply (Forall_lookup_1 _ _ _ _ Ha).
  - rewrite list_lookup_total_alt, E. simpl. unfold isByte. lia.
Qed.

Lemma sumOf_bounds (a : list Z) (imageWidth c : Z) (ps : list (Z * Z)) :
  Forall isByte a →
  0 ≤ sumOf a imageWidth c ps ≤ 255 * Z.of_nat (length ps).
Proof.
  intros Ha. unfold sumOf. induction ps as [|p ps IH]; [simpl; lia|].
  pose proof (channel_byte a imageWidth p.1 p.2 c Ha) as Hb. unfold isByte in Hb.
  rewrite fmap_cons, length_cons, Nat2Z.inj_succ. cbn [foldr]. lia.
Qed.

Lemma pixel_index_inj (W px py qx qy c c' : Z) :
  0 ≤ px < W → 0 ≤ qx < W → 0 ≤ c < 4 → 0 ≤ c' < 4 →
  (py * W + px) * 4 + c = (qy * W + qx) * 4 + c' →
  px = qx ∧ py = qy ∧ c = c'.
Proof.
  intros Hp Hq Hc Hc' E.
  assert (c = c') by lia. subst c'.
  assert (E' : py * W + px = qy * W + qx) by lia.
  assert (py = qy) by nia. subst qy. lia.
Qed.

Section Pixel.
Context (a : list Z) (imageWidth imageHeight radius : Z).
Hypothesis Hlen : length a = Z.to_nat (4 * imageWidth * imageHeight).
Hypothesis Hbytes : Forall isByte a.

(** What [blurPixel] stores at an integer pixel of the image. *)
Lemma pixelOnto_at (t : list Z) (px py : Z) :
  0 ≤ px < imageWidth → 0 ≤ py < imageHeight →
  pixelOnto a t radius imageWidth imageHeight (inject_Z px) (inject_Z py)
  = writePixel imageWidth t px py
      (blurredChannel a imageWidth imageHeight radius px py).
Proof.
  intros Hx Hy. unfold pixelOnto, writePixel.
  rewrite (kernel_at a imageWidth imageHeight Hlen). cbn zeta.
  cbn [count r_sum g_sum b_sum].
  to_inject.
  pose proof (arrayGet_channel a imageWidth imageHeight Hlen px py 0 Hx Hy ltac:(lia)) as G0.
  pose proof (arrayGet_channel a imageWidth imageHeight Hlen px py 1 Hx Hy ltac:(lia)) as G1.
  pose proof (arrayGet_channel a imageWidth imageHeight Hlen px py 2 Hx Hy ltac:(lia)) as G2.
  pose proof (arrayGet_channel a imageWidth imageHeight Hlen px py 3 Hx Hy ltac:(lia)) as G3.
  rewrite Z.add_0_r in G0. rewrite ?G0, ?G1, ?G2, ?G3.
  assert (Hi : 0 ≤ (py * imageWidth + px) * 4) by nia.
  rewrite !arraySet_inject.
  rewrite !(proj2 (Z.leb_le 0 _)) by lia.
  unfold toNum. cbn [fmap option_fmap option_map].
  rewrite !ToUint8Clamp_byte by by apply channel_byte.
  unfold blurredChannel. change (0 <? 3) with true. change (1 <? 3) with true.
  change (2 <? 3) with true. change (3 <? 3) with false. cbn [andb].
  unfold sampleIndex. rewrite Z.add_0_r.
  destruct (0 <? sampleCount imageWidth imageHeight radius px py) eqn:Hn.
  - apply Z.ltb_lt in Hn. unfold divCount. cbn [fmap option_fmap option_map].
    pose proof (sumOf_bounds a imageWidth 0
                  (neighbours imageWidth imageHeight radius px py) Hbytes).
    pose proof (sumOf_bounds a imageWidth 1
                  (neighbours imageWidth imageHeight radius px py) Hbytes).
    pose proof (sumOf_bounds a imageWidth 2
                  (neighbours imageWidth imageHeight radius px py) Hbytes).
    by rewrite !ToUint8Clamp_quotient by done.
  - done.
Qed.

End Pixel.

Section Lookup.
Context (imageWidth imageHeight : Z).

Lemma sampleIndex_inj (px py c qx qy c' : Z) :
  0 ≤ px < imageWidth → 0 ≤ py → 0 ≤ qx < imageWidth → 0 ≤ qy →
  0 ≤ c < 4 → 0 ≤ c' < 4 →
  sampleIndex imageWidth px py c = sampleIndex imageWidth qx qy c' →
  px = qx ∧ py = qy ∧ c = c'.
Proof.
  intros Hp Hpy Hq Hqy Hc Hc' E. unfold sampleIndex in E.
  apply Z2Nat.inj in E; [|nia|nia].
  by apply (pixel_index_inj imageWidth).
Qed.

Lemma length_writePixel (t : list Z) (px py : Z) (v : Z → Z) :
  length (writePixel imageWidth t px py v) = length t.
Proof. unfold writePixel. by rewrite !length_insert. Qed.

Lemma writePixel_lookup (t : list Z) (px py : Z) (v : Z → Z) (qx qy c : Z) :
  length t = Z.to_nat (4 * imageWidth * imageHeight) →
  0 ≤ px < imageWidth → 0 ≤ py < imageHeight →
  0 ≤ qx < imageWidth → 0 ≤ qy < imageHeight → 0 ≤ c < 4 →
  writePixel imageWidth t px py v !! sampleIndex imageWidth qx qy c
  = if decide (qx = px ∧ qy = py) then Some (v c)
    else t !! sampleIndex imageWidth qx qy c.
Proof.
  intros Ht Hpx Hpy Hqx Hqy Hc. unfold writePixel.
  pose proof (sampleIndex_lt imageWidth imageHeight px py 0 Hpx Hpy ltac:(lia)) as L0.
  pose proof (sampleIndex_lt imageWidth imageHeight px py 1 Hpx Hpy ltac:(lia)) as L1.
  pose proof (sampleIndex_lt imageWidth imageHeight px py 2 Hpx Hpy ltac:(lia)) as L2.
  pose proof (sampleIndex_lt imageWidth imageHeight px py 3 Hpx Hpy ltac:(lia)) as L3.
  assert (Hinj : ∀ c', 0 ≤ c' < 4 →
            sampleIndex imageWidth px py c' = sampleIndex imageWidth qx qy c →
            qx = px ∧ qy = py ∧ c = c').
  { intros c' Hc' E. apply sampleIndex_inj in E; try lia. }
  rewrite !list_lookup_insert, !length_insert, <- Ht in *.
  destruct (decide (qx = px ∧ qy = py)) as [[-> ->]|Hne].
  - assert (c = 0 ∨ c = 1 ∨ c = 2 ∨ c = 3) as [-> | [-> | [-> | ->]]] by lia;
      repeat case_decide; try done;
      repeat match goal with
             | H : _ ∧ _ |- _ => destruct H
             | H : sampleIndex _ _ _ _ = sampleIndex _ _ _ _ |- _ =>
                 apply Hinj in H; [lia|lia]
             | H : ¬ (_ ∧ _) |- _ => exfalso; apply H; split; [done|lia]
             end.
  - repeat case_decide; try done;
      repeat match goal with
             | H : _ ∧ _ |- _ => destruct H
             | H : sampleIndex _ _ _ _ = sampleIndex _ _ _ _ |- _ =>
                 apply Hinj in H; [exfalso; apply Hne; lia|lia]
             end.
Qed.

End Lookup.

(** ** The pixel loops over an integer rectangle *)

Lemma elem_of_regionPixels (x0 y0 w h px py : Z) :
  (px, py) ∈ regionPixels x0 y0 w h ↔ inRegion x0 y0 w h px py.
Proof.
  unfold regionPixels, inRegion. rewrite list_elem_of_bind. split.
  - intros (y & Hin & Hy). apply list_elem_of_bind in Hin as (x & Hin & Hx).
    apply list_elem_of_singleton in Hin. injection Hin as -> ->.
    apply elem_of_seqZ in Hx, Hy. done.
  - intros [Hx Hy]. exists py. split; [|by apply elem_of_seqZ].
    apply list_elem_of_bind. exists px. split; [|by apply elem_of_seqZ].
    by apply list_elem_of_singleton.
Qed.

Lemma regionPixels_inImage (x0 y0 w h imageWidth imageHeight : Z) :
  validRegion x0 y0 w h imageWidth imageHeight →
  Forall (λ p, inImage imageWidth imageHeight p = true) (regionPixels x0 y0 w h).
Proof.
  intros Hv. apply Forall_forall. intros [px py] Hin.
  apply elem_of_regionPixels in Hin. unfold inRegion in Hin.
  unfold validRegion in Hv. apply inImage_bounds. lia.
Qed.

(** The two pixel loops over an integer rectangle visit [regionPixels]. *)
Lemma blurOnto_rectangle (a t : list Z) (radius imageWidth imageHeight : Z)
    (x0 y0 w h : Z) :
  blurOnto a t (rectangle x0 y0 w h) radius imageWidth imageHeight
  = blurPixelsOnto a radius imageWidth imageHeight t (regionPixels x0 y0 w h).
Proof.
  unfold blurOnto, blurPixelsOnto, regionPixels, rectangle.
  cbn [regionX regionY regionWidth regionHeight].
  rewrite !loopRange_inject, foldl_fmap.
  rewrite <- (foldl_nested (λ t y x, pixelOnto a t radius imageWidth imageHeight
                                       (inject_Z x) (inject_Z y))).
  generalize (seqZ y0 h) as ys. intros ys. revert t.
  induction ys as [|y ys IH]; intros t; [done|].
  cbn [foldl]. by rewrite IH, foldl_fmap.
Qed.

Section Fold.
Context (a : list Z) (imageWidth imageHeight radius : Z).
Hypothesis Hlen : length a = Z.to_nat (4 * imageWidth * imageHeight).
Hypothesis Hbytes : Forall isByte a.

Lemma length_blurPixelsOnto (t : list Z) (ps : list (Z * Z)) :
  length (blurPixelsOnto a radius imageWidth imageHeight t ps) = length t.
Proof.
  unfold blurPixelsOnto. revert t.
  induction ps as [|p ps IH]; intros t; [done|].
  cbn [foldl]. by rewrite IH, length_pixelOnto.
Qed.

(** After the loops, a sample of a visited pixel is the blurred one and
    any other sample is what it was. *)
Lemma blurPixelsOnto_lookup (t : list Z) (ps : list (Z * Z)) (qx qy c : Z) :
  length t = Z.to_nat (4 * imageWidth * imageHeight) →
  Forall (λ p, inImage imageWidth imageHeight p = true) ps →
  0 ≤ qx < imageWidth → 0 ≤ qy < imageHeight → 0 ≤ c < 4 →
  blurPixelsOnto a radius imageWidth imageHeight t ps !! sampleIndex imageWidth qx qy c
  = if decide ((qx, qy) ∈ ps)
    then Some (blurredChannel a imageWidth imageHeight radius qx qy c)
    else t !! sampleIndex imageWidth qx qy c.
Proof.
  unfold blurPixelsOnto. intros Ht Hps Hqx Hqy Hc. revert t Ht.
  induction ps as [|[px py] ps IH]; intros t Ht.
  - cbn [foldl]. case_decide as Hin; [|done]. by apply elem_of_nil in Hin.
  - apply Forall_cons in Hps as [Hp Hps]. cbn [foldl fst snd].
    apply inImage_bounds in Hp as [Hpx Hpy].
    rewrite (pixelOnto_at a imageWidth imageHeight radius Hlen Hbytes) by lia.
    rewrite IH by (done || by rewrite length_writePixel).
    rewrite (writePixel_lookup imageWidth imageHeight) by (done || lia).
    destruct (decide ((qx, qy) ∈ ps)) as [Hin|Hin].
    + rewrite decide_True; [done|]. by apply list_elem_of_further.
    + destruct (decide (qx = px ∧ qy = py)) as [[-> ->]|Hne].
      * rewrite decide_True; [done|]. apply list_elem_of_here.
      * rewrite decide_False; [done|]. intros Hin'.
        apply elem_of_cons in Hin' as [Heq|Hin']; [|done].
        injection Heq as -> ->. by apply Hne.
Qed.

(** The result does not depend on the order in which the pixels are
    visited. *)
Lemma blurPixelsOnto_order (t : list Z) (ps ps' : list (Z * Z)) :
  length t = Z.to_nat (4 * imageWidth * imageHeight) →
  Forall (λ p, inImage imageWidth imageHeight p = true) ps →
  ps ≡ₚ ps' →
  blurPixelsOnto a radius imageWidth imageHeight t ps
  = blurPixelsOnto a radius imageWidth imageHeight t ps'.
Proof.
  intros Ht Hps Hperm.
  assert (Hps' : Forall (λ p, inImage imageWidth imageHeight p = true) ps')
    by by rewrite <- Hperm.
  destruct (decide (0 < imageWidth)) as [HW|HW].
  2: { destruct ps as [|[px py] ps].
       - apply Permutation_nil_l in Hperm. by subst.
       - apply Forall_cons in Hps as [Hp _]. apply inImage_bounds in Hp. lia. }
  apply (list_eq_same_length _ _ (length t));
    [apply length_blurPixelsOnto | apply length_blurPixelsOnto |].
  intros i u v Hi Hu Hv.
  set (k := Z.of_nat i).
  assert (Hidx : i = sampleIndex imageWidth ((k / 4) mod imageWidth)
                       ((k / 4) / imageWidth) (k mod 4)).
  { unfold sampleIndex.
    rewrite (Z.mul_comm _ imageWidth), <- Z.div_mod by lia.
    rewrite (Z.mul_comm _ 4), <- Z.div_mod by lia. unfold k. lia. }
  assert (Hqx : 0 ≤ (k / 4) mod imageWidth < imageWidth) by (apply Z.mod_pos_bound; lia).
  assert (Hc : 0 ≤ k mod 4 < 4) by (apply Z.mod_pos_bound; lia).
  assert (Hqy : 0 ≤ (k / 4) / imageWidth < imageHeight).
  { split; [apply Z.div_pos; [apply Z.div_pos|]; lia|].
    apply Z.div_lt_upper_bound; [lia|]. apply Z.div_lt_upper_bound; [lia|].
    unfold k. lia. }
  rewrite Hidx in Hu, Hv.
  rewrite blurPixelsOnto_lookup in Hu, Hv by done.
  destruct (decide (_ ∈ ps)) as [Hin|Hin].
  - rewrite decide_True in Hv by by rewrite <- Hperm. congruence.
  - rewrite decide_False in Hv by by rewrite <- Hperm. congruence.
Qed.

End Fold.

(** ** Region validation *)

Lemma regionRejected_iff (region : Rectangle) (imageWidth imageHeight : Z) :
  regionRejected region imageWidth imageHeight = true
  ↔ violatesInvariant region imageWidth imageHeight.
Proof.
  unfold regionRejected, violatesInvariant.
  rewrite !orb_true_iff, !Qltb_lt, !Qle_bool_iff. tauto.
Qed.

Lemma regionAccepted_iff (region : Rectangle) (imageWidth imageHeight : Z) :
  regionRejected region imageWidth imageHeight = false
  ↔ ¬ violatesInvariant region imageWidth imageHeight.
Proof.
  rewrite <- regionRejected_iff. by destruct (regionRejected _ _ _).
Qed.

Lemma regionRejected_rectangle (x0 y0 w h imageWidth imageHeight : Z) :
  regionRejected (rectangle x0 y0 w h) imageWidth imageHeight = false
  ↔ validRegion x0 y0 w h imageWidth imageHeight.
Proof.
  unfold regionRejected, rectangle, validRegion.
  cbn [regionX regionY regionWidth regionHeight].
  rewrite !inject_Z_add. change 0%Q with (inject_Z 0).
  rewrite !Qltb_inject, !Qle_bool_inject, !orb_false_iff.
  rewrite !Z.ltb_ge, !Z.leb_gt. lia.
Qed.

(** ** The two entry points *)

Lemma removeWatermark_rejected (imageData : ImageData) (region : Rectangle) (w : World) :
  regionRejected region (width imageData) (height imageData) = true →
  removeWatermark imageData region w
  = (Throw InvalidRegion,
     withLogged (InvalidRegionLogged region (width imageData) (height imageData)) w).
Proof. intros H. unfold removeWatermark. by rewrite H. Qed.

Lemma blurWatermark_rejected (frameData : ImageData) (region : Rectangle) (w : World) :
  regionRejected region (width frameData) (height frameData) = true →
  blurWatermark frameData region w
  = (Return frameData,
     withLogged (InvalidRegionLogged region (width frameData) (height frameData)) w).
Proof. intros H. unfold blurWatermark. by rewrite H. Qed.

(** When the region is accepted the filter runs, from the source onto a
    fresh copy. *)
Lemma removeWatermark_accepted (imageData : ImageData) (region : Rectangle) (w : World) :
  regionRejected region (width imageData) (height imageData) = false →
  removeWatermark imageData region w
  = (Return (mkImageData (length (arrays w)) (width imageData) (height imageData)),
     withArrays
       (applyBlurEffect (length (arrays w)) (data imageData) region
          (calculateBlurRadius (regionWidth region) (regionHeight region))
          (width imageData) (height imageData)
          (arrays w ++ [default [] (arrays w !! data imageData)])) w).
Proof. intros H. unfold removeWatermark. by rewrite H. Qed.

(** On an accepted region the two processors do the same. *)
Lemma blurWatermark_accepted (frameData : ImageData) (region : Rectangle) (w : World) :
  regionRejected region (width frameData) (height frameData) = false →
  blurWatermark frameData region w = removeWatermark frameData region w.
Proof. intros H. unfold blurWatermark, removeWatermark. by rewrite H. Qed.

(** The heap after the filter ran: the heap before, and one more array. *)
Lemma filtered_heap (source : loc) (region : Rectangle)
    (radius imageWidth imageHeight : Z) (h : heap) :
  ∃ new,
    applyBlurEffect (length h) source region radius imageWidth imageHeight
                    (h ++ [default [] (h !! source)])
    = h ++ [new]
    ∧ length new = length (default [] (h !! source)).
Proof.
  set (copy := default [] (h !! source)).
  destruct (sameBut_applyBlurEffect (length h) source region radius
              imageWidth imageHeight (h ++ [copy])) as [Hlen Hsame].
  set (h' := applyBlurEffect _ _ _ _ _ _ _) in *.
  assert (Hl : length h' = S (length h)).
  { apply (f_equal length) in Hlen. rewrite !length_fmap, length_app in Hlen.
    simpl in Hlen. lia. }
  destruct (h' !! length h) as [new|] eqn:Hnew.
  2: { apply lookup_ge_None in Hnew. lia. }
  exists new. split.
  - apply list_eq. intros j. destruct (decide (j = length h)) as [->|Hj].
    + by rewrite Hnew, list_lookup_middle.
    + rewrite Hsame by done.
      destruct (decide (j < length h)%nat) as [Hlt|Hge].
      * by rewrite !lookup_app_l.
      * rewrite !(proj2 (lookup_ge_None _ _)); [done|..];
          rewrite length_app; simpl; lia.
  - apply (f_equal (λ l, l !! length h)) in Hlen.
    rewrite !list_lookup_fmap, Hnew, list_lookup_middle in Hlen by done.
    simpl in Hlen. by injection Hlen.
Qed.

(** ** The frame a processor returns *)

Lemma removeWatermark_blurred (imageData : ImageData) (region : Rectangle)
    (w : World) (a : list Z) :
  regionRejected region (width imageData) (height imageData) = false →
  arrays w !! data imageData = Some a →
  removeWatermark imageData region w
  = (Return (mkImageData (length (arrays w)) (width imageData) (height imageData)),
     withArrays
       (arrays w ++ [blurred a region (width imageData) (height imageData)]) w).
Proof.
  intros Hacc Ha. rewrite removeWatermark_accepted by done. rewrite Ha. simpl default.
  assert (Hlt : (data imageData < length (arrays w))%nat) by by eapply lookup_lt_Some.
  assert (Hsep : length (arrays w) ≠ data imageData) by lia.
  rewrite (applyBlurEffect_separate _ _ a _ _ _ Hsep _ _ a).
  - rewrite insert_app_r_alt by done. by rewrite Nat.sub_diag.
  - by rewrite lookup_app_l.
  - by rewrite list_lookup_middle.
Qed.

Lemma calculateBlurRadius_bounds (w h : Q) : 2 ≤ calculateBlurRadius w h ≤ 10.
Proof. unfold calculateBlurRadius. lia. Qed.

Lemma In_offsets (radius kx ky : Z) :
  - radius ≤ kx ≤ radius → - radius ≤ ky ≤ radius → (kx, ky) ∈ offsets radius.
Proof.
  intros Hx Hy. unfold offsets, kernelRange.
  apply list_elem_of_bind. exists ky. split; [|apply elem_of_seqZ; lia].
  apply list_elem_of_bind. exists kx. split; [|apply elem_of_seqZ; lia].
  by apply list_elem_of_singleton.
Qed.

(** A pixel of the image is one of its own neighbours. *)
Lemma sampleCount_pos (imageWidth imageHeight radius px py : Z) :
  0 ≤ radius → 0 ≤ px < imageWidth → 0 ≤ py < imageHeight →
  0 < sampleCount imageWidth imageHeight radius px py.
Proof.
  intros Hr Hx Hy. unfold sampleCount, neighbours, neighboursOf.
  assert (Hin : In (px, py)
            (List.filter (inImage imageWidth imageHeight)
               ((λ k, (px + k.1, py + k.2)) <$> offsets radius))).
  { apply filter_In. split; [|by apply inImage_bounds].
    apply list_elem_of_In, list_elem_of_fmap. exists (0, 0). simpl.
    split; [f_equal; lia|]. apply In_offsets; lia. }
  destruct (List.filter _ _); [done|]. simpl length. lia.
Qed.

Section Blurred.
Context (a : list Z) (imageWidth imageHeight : Z).
Hypothesis Hlen : length a = Z.to_nat (4 * imageWidth * imageHeight).
Hypothesis Hbytes : Forall isByte a.

Lemma lookup_channel (px py c : Z) :
  0 ≤ px < imageWidth → 0 ≤ py < imageHeight → 0 ≤ c < 4 →
  a !! sampleIndex imageWidth px py c = Some (channel a imageWidth px py c).
Proof.
  intros Hx Hy Hc. unfold channel. apply list_lookup_lookup_total_lt.
  rewrite Hlen. by apply sampleIndex_lt.
Qed.

(** The filter over a valid rectangle, sample by sample and for any
    radius: blurred inside the rectangle, untouched outside. *)
Lemma blurOnto_lookup (t : list Z) (radius x0 y0 w h qx qy c : Z) :
  length t = length a →
  validRegion x0 y0 w h imageWidth imageHeight →
  0 ≤ qx < imageWidth → 0 ≤ qy < imageHeight → 0 ≤ c < 4 →
  blurOnto a t (rectangle x0 y0 w h) radius imageWidth imageHeight
    !! sampleIndex imageWidth qx qy c
  = if decide (inRegion x0 y0 w h qx qy)
    then Some (blurredChannel a imageWidth imageHeight radius qx qy c)
    else t !! sampleIndex imageWidth qx qy c.
Proof.
  intros Ht Hv Hx Hy Hc. rewrite blurOnto_rectangle.
  rewrite (blurPixelsOnto_lookup a imageWidth imageHeight radius Hlen Hbytes)
    by first [done | congruence | by apply regionPixels_inImage].
  destruct (decide (inRegion x0 y0 w h qx qy)) as [Hin|Hin].
  - rewrite decide_True; [done|]. by apply elem_of_regionPixels.
  - rewrite decide_False; [done|]. by rewrite elem_of_regionPixels.
Qed.

End Blurred.

(** Every sample of a buffer belongs to one pixel of the image. *)
Lemma sampleIndex_cover (imageWidth imageHeight : Z) (i : nat) :
  0 < imageWidth →
  (i < Z.to_nat (4 * imageWidth * imageHeight))%nat →
  ∃ qx qy c, 0 ≤ qx < imageWidth ∧ 0 ≤ qy < imageHeight ∧ 0 ≤ c < 4
             ∧ i = sampleIndex imageWidth qx qy c.
Proof.
  intros HW Hi. set (k := Z.of_nat i).
  exists ((k / 4) mod imageWidth), ((k / 4) / imageWidth), (k mod 4).
  split; [apply Z.mod_pos_bound; lia|].
  split.
  { split; [apply Z.div_pos; [apply Z.div_pos|]; lia|].
    apply Z.div_lt_upper_bound; [lia|]. apply Z.div_lt_upper_bound; [lia|].
    unfold k. lia. }
  split; [apply Z.mod_pos_bound; lia|].
  unfold sampleIndex.
  rewrite (Z.mul_comm _ imageWidth), <- Z.div_mod by lia.
  rewrite (Z.mul_comm _ 4), <- Z.div_mod by lia. unfold k. lia.
Qed.

(** ** Double precision *)

Lemma pow2_pos (e : Z) : (0 < 2 ^ e)%Q.
Proof. by apply Qpower_0_lt. Qed.

Lemma pow2_inject (n : Z) : 0 ≤ n → (inject_Z (2 ^ n) == 2 ^ n)%Q.
Proof. intros Hn. by rewrite Zpower_Qpower. Qed.

Lemma pow2_split (a b : Z) : (2 ^ (a + b) == 2 ^ a * 2 ^ b)%Q.
Proof. by apply Qpower_plus. Qed.

Lemma pow2_le (a b : Z) : a ≤ b → (2 ^ a <= 2 ^ b)%Q.
Proof. intros H. by apply Qpower_le_compat_l. Qed.

Lemma pow2_lt_inv (a b : Z) : (2 ^ a < 2 ^ b)%Q → a < b.
Proof. intros H. by apply (Qpower_lt_compat_l_inv 2). Qed.

Lemma Qred_inject (z : Z) : Qred (inject_Z z) = inject_Z z.
Proof.
  pose proof (Qred_correct (inject_Z z)) as E.
  pose proof (gcd_Qred (inject_Z z)) as G.
  destruct (Qred (inject_Z z)) as [n d]. unfold Qeq, inject_Z in *. cbn in *.
  assert (Hd : Z.pos d = 1).
  { assert (Hdiv : (Z.pos d | n)) by (exists z; lia).
    apply Z.divide_gcd_iff in Hdiv; [|lia]. rewrite Z.gcd_comm in Hdiv. lia. }
  assert (d = 1%positive) as -> by lia. f_equal. lia.
Qed.

(** [binade q] is the exponent of the power of two at or below [|q|]. *)
Lemma binade_spec (q : Q) :
  ¬ (q == 0)%Q → (2 ^ binade q <= Qabs q)%Q ∧ (Qabs q < 2 ^ (binade q + 1))%Q.
Proof.
  intros Hq. unfold binade.
  destruct q as [n d]. cbn [Qnum Qden].
  assert (Hn : 0 < Z.abs n).
  { assert (n ≠ 0); [|lia]. intros ->. apply Hq. reflexivity. }
  pose proof (Z.log2_spec (Z.abs n) Hn) as [Ha1 Ha2].
  pose proof (Z.log2_spec (Z.pos d) ltac:(lia)) as [Hd1 Hd2].
  pose proof (Z.log2_nonneg (Z.abs n)) as Hna.
  pose proof (Z.log2_nonneg (Z.pos d)) as Hnd.
  set (ln := Z.log2 (Z.abs n)) in *. set (ld := Z.log2 (Z.pos d)) in *.
  clearbody ln ld. unfold Z.succ in *.
  change (Qabs (n # d)) with (Z.abs n # d).
  assert (Hup : (Z.abs n # d < 2 ^ (ln - ld + 1))%Q).
  { replace (ln - ld + 1) with ((ln + 1) - ld) by lia.
    rewrite Qpower_minus by done. apply Qlt_shift_div_l; [apply pow2_pos|].
    rewrite <- !pow2_inject by lia. unfold Qlt, Qmult, inject_Z.
    cbn [Qnum Qden]. rewrite ?Pos.mul_1_r, ?Z.mul_1_r. nia. }
  assert (Hlo : (2 ^ (ln - ld - 1) <= Z.abs n # d)%Q).
  { replace (ln - ld - 1) with (ln - (ld + 1)) by lia.
    rewrite Qpower_minus by done. apply Qle_shift_div_r; [apply pow2_pos|].
    rewrite <- !pow2_inject by lia. unfold Qle, Qmult, inject_Z.
    cbn [Qnum Qden]. rewrite ?Pos.mul_1_r, ?Z.mul_1_r. nia. }
  destruct (Qle_bool (2 ^ (ln - ld)) (Z.abs n # d)) eqn:E.
  - apply Qle_bool_iff in E. by split.
  - split; [done|]. replace (ln - ld - 1 + 1) with (ln - ld) by lia.
    apply Qnot_le_lt. intros H. apply Qle_bool_iff in H. congruence.
Qed.

Lemma nearestEven_comp (t t' : Q) : (t == t')%Q → nearestEven t = nearestEven t'.
Proof.
  intros E. unfold nearestEven. rewrite (Qfloor_comp _ _ E).
  assert (E' : (t - inject_Z (Qfloor t') == t' - inject_Z (Qfloor t'))%Q)
    by (by rewrite E).
  by rewrite (Qcompare_comp _ _ E' _ _ (Qeq_refl (1 # 2))).
Qed.

Lemma nearestEven_Z (z : Z) : nearestEven (inject_Z z) = z.
Proof.
  unfold nearestEven. rewrite Qfloor_Z.
  assert (E : (inject_Z z - inject_Z z ?= 1 # 2)%Q = Lt).
  { apply (proj1 (Qlt_alt _ _)). generalize (inject_Z z). intros q. lra. }
  by rewrite E.
Qed.

Lemma nearestEven_error (t : Q) : (Qabs (inject_Z (nearestEven t) - t) <= 1 # 2)%Q.
Proof.
  unfold nearestEven.
  pose proof (Qfloor_le t) as Hlo. pose proof (Qlt_floor t) as Hhi.
  rewrite inject_Z_plus in Hhi. change (inject_Z 1) with 1%Q in Hhi.
  apply Qabs_Qle_condition.
  destruct (Qcompare_spec (t - inject_Z (Qfloor t)) (1 # 2)) as [E|E|E].
  - destruct (Z.even (Qfloor t));
      rewrite ?inject_Z_plus; change (inject_Z 1) with 1%Q; lra.
  - lra.
  - rewrite inject_Z_plus. change (inject_Z 1) with 1%Q. lra.
Qed.

(** A number with at most 53 significant bits is a double. *)
Lemma fl_exact (q : Q) (m e : Z) :
  (q == inject_Z m * 2 ^ e)%Q → Z.abs m < 2 ^ 53 → -1074 ≤ e → fl q = Qred q.
Proof.
  intros Hq Hm He. unfold fl.
  destruct (Qeq_bool q 0) eqn:Hz.
  { apply Qeq_bool_iff in Hz. by rewrite (Qred_complete q 0 Hz). }
  assert (Hq0 : ¬ (q == 0)%Q).
  { intros H. apply Qeq_bool_iff in H. congruence. }
  apply Qred_complete.
  destruct (binade_spec q Hq0) as [Hlo _].
  set (b := binade q) in *.
  assert (Hb : b - 52 ≤ e).
  { assert (Hlt : (2 ^ b < 2 ^ (53 + e))%Q); [|apply pow2_lt_inv in Hlt; lia].
    eapply Qle_lt_trans; [exact Hlo|].
    rewrite Hq, Qabs_Qmult, (Qabs_pos (2 ^ e)) by (apply Qlt_le_weak, pow2_pos).
    rewrite pow2_split. apply Qmult_lt_compat_r; [apply pow2_pos|].
    rewrite <- pow2_inject by lia. rewrite <- (Zabs_Qabs m 1).
    change (Z.abs m # 1) with (inject_Z (Z.abs m)). by rewrite <- Zlt_Qlt. }
  set (e0 := Z.max (b - 52) (-1074)).
  assert (He0 : e0 ≤ e) by lia.
  assert (Hint : (q / 2 ^ e0 == inject_Z (m * 2 ^ (e - e0)))%Q).
  { rewrite inject_Z_mult, pow2_inject by lia.
    rewrite Hq. replace e with (e - e0 + e0) at 1 by lia.
    rewrite pow2_split. field. apply Qpower_not_0. done. }
  rewrite (nearestEven_comp _ _ Hint), nearestEven_Z.
  rewrite inject_Z_mult, pow2_inject by lia.
  rewrite Hq. replace e with (e - e0 + e0) at 2 by lia.
  rewrite pow2_split. ring.
Qed.

Lemma fl_inject (z : Z) : Z.abs z < 2 ^ 53 → fl (inject_Z z) = inject_Z z.
Proof.
  intros Hz. rewrite (fl_exact _ z 0) by (done || lia || (cbn; ring)).
  apply Qred_inject.
Qed.

(** The rounding error is at most half a unit in the last place. *)
Lemma fl_error (q : Q) :
  ¬ (q == 0)%Q →
  (Qabs (fl q - q) <= 2 ^ (Z.max (binade q - 52) (-1074) - 1))%Q.
Proof.
  intros Hq0. unfold fl.
  destruct (Qeq_bool q 0) eqn:Hz; [apply Qeq_bool_iff in Hz; done|].
  set (e := Z.max (binade q - 52) (-1074)).
  rewrite Qred_correct.
  pose proof (nearestEven_error (q / 2 ^ e)) as Herr.
  set (n := inject_Z (nearestEven (q / 2 ^ e))) in *.
  assert (E : (n * 2 ^ e - q == (n - q / 2 ^ e) * 2 ^ e)%Q).
  { field. apply Qpower_not_0. done. }
  rewrite E, Qabs_Qmult, (Qabs_pos (2 ^ e)) by (apply Qlt_le_weak, pow2_pos).
  replace e with (e - 1 + 1) at 2 by lia. rewrite pow2_split.
  change (2 ^ 1)%Q with 2%Q.
  pose proof (pow2_pos (e - 1)) as Hp.
  assert (H : (Qabs (n - q / 2 ^ e) * (2 ^ (e - 1) * 2)
               <= (1 # 2) * (2 ^ (e - 1) * 2))%Q).
  { apply Qmult_le_compat_r; [done|]. lra. }
  lra.
Qed.

(** The error on a number below 256. *)
Lemma fl_error_byte (q : Q) :
  (0 < q)%Q → (q < 256)%Q → (Qabs (fl q - q) <= 1 # 70368744177664)%Q.
Proof.
  intros Hpos Hlt.
  assert (Hq0 : ¬ (q == 0)%Q) by (intros E; rewrite E in Hpos; lra).
  assert (E46 : (2 ^ (-46) == 1 # 70368744177664)%Q) by reflexivity.
  rewrite <- E46.
  eapply Qle_trans; [by apply fl_error|]. apply pow2_le.
  destruct (binade_spec q Hq0) as [Hlo _].
  rewrite Qabs_pos in Hlo by lra.
  assert (Hb : (2 ^ binade q < 2 ^ 8)%Q).
  { eapply Qle_lt_trans; [exact Hlo|]. exact Hlt. }
  apply pow2_lt_inv in Hb. lia.
Qed.

Lemma Qfloor_unique (x : Q) (k : Z) :
  (inject_Z k <= x)%Q → (x < inject_Z k + 1)%Q → Qfloor x = k.
Proof.
  intros Hlo Hhi.
  pose proof (Qfloor_le x) as Flo. pose proof (Qlt_floor x) as Fhi.
  assert (H1 : (inject_Z (Qfloor x) < inject_Z (k + 1))%Q).
  { rewrite inject_Z_plus. change (inject_Z 1) with 1%Q. lra. }
  assert (H2 : (inject_Z k < inject_Z (Qfloor x + 1))%Q) by lra.
  rewrite <- Zlt_Qlt in H1, H2. lia.
Qed.

(** Between two consecutive halves the nearest integer is known. *)
Lemma nearestEven_cell (x : Q) (j : Z) :
  (inject_Z j * (1 # 2) < x)%Q → (x < inject_Z (j + 1) * (1 # 2))%Q →
  nearestEven x = (j + 1) / 2.
Proof.
  intros Hlo Hhi. rewrite inject_Z_plus in Hhi. change (inject_Z 1) with 1%Q in Hhi.
  pose proof (Z.div_mod j 2 ltac:(lia)) as Hdm.
  pose proof (Z.mod_pos_bound j 2 ltac:(lia)) as Hm.
  set (k := j / 2) in *. clearbody k.
  assert (Hj : (inject_Z j == 2 * inject_Z k + inject_Z (j mod 2))%Q).
  { rewrite Hdm at 1. rewrite inject_Z_plus, inject_Z_mult. reflexivity. }
  unfold nearestEven.
  assert (Hcase : j mod 2 = 0 ∨ j mod 2 = 1) by lia.
  destruct Hcase as [E|E]; rewrite E in Hj.
  - change (inject_Z 0) with 0%Q in Hj.
    assert (Hf : Qfloor x = k) by (apply Qfloor_unique; lra).
    rewrite Hf.
    assert (Hc : (x - inject_Z k ?= 1 # 2)%Q = Lt)
      by (apply (proj1 (Qlt_alt _ _)); lra).
    rewrite Hc. replace (j + 1) with (1 + k * 2) by lia.
    rewrite Z.div_add by lia. reflexivity.
  - change (inject_Z 1) with 1%Q in Hj.
    assert (Hf : Qfloor x = k) by (apply Qfloor_unique; lra).
    rewrite Hf.
    assert (Hc : (x - inject_Z k ?= 1 # 2)%Q = Gt)
      by (apply (proj1 (Qgt_alt _ _)); lra).
    rewrite Hc. replace (j + 1) with (0 + (k + 1) * 2) by lia.
    rewrite Z.div_add by lia. reflexivity.
Qed.

(** On [0, 255] the conversion of a store is the rounding to the nearest
    integer. *)
Lemma ToUint8Clamp_nearest (x : Q) :
  (0 <= x)%Q → (x <= 255)%Q → ToUint8Clamp (Some x) = nearestEven x.
Proof.
  intros H0 H255. unfold ToUint8Clamp, nearestEven.
  rewrite (Qmax_l_eq x H0), (Qmin_l_eq x H255).
  assert (Hc : (x ?= inject_Z (Qfloor x) + (1 # 2))%Q
               = (x - inject_Z (Qfloor x) ?= 1 # 2)%Q).
  { destruct (Qcompare_spec (x - inject_Z (Qfloor x)) (1 # 2)) as [E|E|E].
    - apply (proj1 (Qeq_alt _ _)). lra.
    - apply (proj1 (Qlt_alt _ _)). lra.
    - apply (proj1 (Qgt_alt _ _)). lra. }
  by rewrite Hc.
Qed.

(** The quotient of a sum of bytes by their number is stored as the same
    byte whether or not it is first rounded to a double. *)
Lemma ToUint8Clamp_fl (s c : Z) :
  0 < c ≤ 2 ^ 40 → 0 ≤ s ≤ 255 * c →
  ToUint8Clamp (Some (fl (inject_Z s / inject_Z c)))
  = ToUint8Clamp (Some (inject_Z s / inject_Z c)%Q).
Proof.
  intros Hc Hs.
  pose proof (Z.div_mod (2 * s) c ltac:(lia)) as Hdm.
  pose proof (Z.mod_pos_bound (2 * s) c ltac:(lia)) as Hm.
  set (j := (2 * s) / c) in *. set (r := (2 * s) mod c) in *.
  assert (Hj0 : 0 ≤ j) by (unfold j; apply Z.div_pos; lia).
  assert (Hj1 : j ≤ 510) by (unfold j; apply Z.div_le_upper_bound; lia).
  clearbody j r.
  assert (Hcq : (0 < inject_Z c)%Q)
    by (change 0%Q with (inject_Z 0); rewrite <- Zlt_Qlt; lia).
  assert (Hc40 : (inject_Z c <= 1099511627776)%Q).
  { change 1099511627776%Q with (inject_Z (2 ^ 40)). rewrite <- Zle_Qle. lia. }
  assert (Hsq : (2 * inject_Z s == inject_Z c * inject_Z j + inject_Z r)%Q).
  { change 2%Q with (inject_Z 2).
    rewrite <- !inject_Z_mult, <- inject_Z_plus. by rewrite Hdm. }
  assert (Hr0 : (0 <= inject_Z r)%Q)
    by (change 0%Q with (inject_Z 0); rewrite <- Zle_Qle; lia).
  assert (Hj0q : (0 <= inject_Z j)%Q)
    by (change 0%Q with (inject_Z 0); rewrite <- Zle_Qle; lia).
  assert (Hj1q : (inject_Z j <= 510)%Q)
    by (change 510%Q with (inject_Z 510); rewrite <- Zle_Qle; lia).
  set (ic := (/ inject_Z c)%Q).
  assert (Hic : (ic * inject_Z c == 1)%Q) by (unfold ic; field; lra).
  assert (Hic0 : (0 < ic)%Q) by (by apply Qinv_lt_0_compat).
  assert (Hic40 : (1 <= ic * 1099511627776)%Q).
  { rewrite <- Hic. rewrite !(Qmult_comm ic). by apply Qmult_le_compat_r; [|lra]. }
  set (q := (inject_Z s / inject_Z c)%Q).
  assert (Hq : (2 * q == inject_Z j + inject_Z r * ic)%Q).
  { unfold q, ic. unfold Qdiv.
    assert (E : (2 * (inject_Z s * / inject_Z c)
                 == (inject_Z c * inject_Z j + inject_Z r) * / inject_Z c)%Q)
      by (rewrite <- Hsq; ring).
    rewrite E. field. lra. }
  clearbody q ic.
  destruct (decide (r = 0)) as [Hr|Hr].
  - (* [q] is a multiple of a half: it is a double *)
    subst r. change (inject_Z 0) with 0%Q in Hq.
    assert (Hexact : (q == inject_Z j * 2 ^ (-1))%Q).
    { change (2 ^ (-1))%Q with (1 # 2)%Q. lra. }
    assert (Hj : Z.abs j < 2 ^ 53) by lia.
    rewrite (fl_exact q j (-1) Hexact Hj ltac:(lia)).
    rewrite !ToUint8Clamp_nearest; try (rewrite ?Qred_correct; lra).
    apply nearestEven_comp, Qred_correct.
  - (* otherwise [q] and its double lie between the same two halves *)
    assert (Hr1 : (ic <= inject_Z r * ic)%Q).
    { rewrite <- (Qmult_1_l ic) at 1. apply Qmult_le_compat_r; [|lra].
      change 1%Q with (inject_Z 1). rewrite <- Zle_Qle. lia. }
    assert (Hr2 : (inject_Z r * ic <= 1 - ic)%Q).
    { assert (E : (1 - ic == (inject_Z c - 1) * ic)%Q).
      { assert (E0 : ((inject_Z c - 1) * ic == ic * inject_Z c - ic)%Q) by ring.
        by rewrite E0, Hic. }
      rewrite E. apply Qmult_le_compat_r; [|lra].
      change 1%Q with (inject_Z 1). unfold Qminus.
      rewrite <- inject_Z_opp, <- inject_Z_plus, <- Zle_Qle. lia. }
    assert (Hj509 : (inject_Z j <= 509)%Q).
    { change 509%Q with (inject_Z 509). rewrite <- Zle_Qle. nia. }
    assert (Hpos : (0 < q)%Q) by lra.
    assert (Hlt : (q < 256)%Q) by lra.
    pose proof (fl_error_byte q Hpos Hlt) as Herr.
    apply Qabs_Qle_condition in Herr.
    rewrite !ToUint8Clamp_nearest by lra.
    rewrite (nearestEven_cell (fl q) j)
      by (rewrite ?inject_Z_plus; change (inject_Z 1) with 1%Q; lra).
    rewrite (nearestEven_cell q j)
      by (rewrite ?inject_Z_plus; change (inject_Z 1) with 1%Q; lra).
    reflexivity.
Qed.

Lemma nearestEven_ge (t : Q) (j : Z) : (inject_Z j <= t)%Q → j ≤ nearestEven t.
Proof.
  intros H. apply Qfloor_resp_le in H. rewrite Qfloor_Z in H.
  unfold nearestEven. destruct (_ ?= _)%Q; [destruct (Z.even _)|..]; lia.
Qed.

(** Rounding does not cross an integer below [2 ^ 53]. *)
Lemma fl_ge_Z (k : Z) (q : Q) :
  0 < k ≤ 2 ^ 53 → (inject_Z k <= q)%Q → (inject_Z k <= fl q)%Q.
Proof.
  intros Hk Hq.
  assert (Hk0 : (0 < inject_Z k)%Q)
    by (change 0%Q with (inject_Z 0); rewrite <- Zlt_Qlt; lia).
  assert (Hq0 : ¬ (q == 0)%Q) by (intros E; rewrite E in Hq; lra).
  unfold fl. destruct (Qeq_bool q 0) eqn:Hz; [apply Qeq_bool_iff in Hz; done|].
  destruct (binade_spec q Hq0) as [Hlo _]. rewrite Qabs_pos in Hlo by lra.
  set (b := binade q) in *. set (e := Z.max (b - 52) (-1074)).
  rewrite Qred_correct.
  pose proof (pow2_pos e) as He.
  destruct (decide (e ≤ 0)) as [Hneg|Hpos].
  - assert (Hk2 : (inject_Z k == inject_Z (k * 2 ^ (- e)) * 2 ^ e)%Q).
    { rewrite inject_Z_mult, pow2_inject by lia.
      rewrite <- Qmult_assoc, <- pow2_split. replace (- e + e) with 0 by lia.
      change (2 ^ 0)%Q with 1%Q. ring. }
    rewrite Hk2. apply Qmult_le_compat_r; [|lra].
    rewrite <- Zle_Qle. apply nearestEven_ge.
    apply Qle_shift_div_l; [done|]. by rewrite <- Hk2.
  - assert (E : e = b - 52) by lia.
    assert (Hn : 2 ^ 52 ≤ nearestEven (q / 2 ^ e)).
    { apply nearestEven_ge. apply Qle_shift_div_l; [done|].
      rewrite pow2_inject by lia. rewrite <- pow2_split.
      replace (52 + e) with b by lia. done. }
    rewrite Zle_Qle in Hn.
    assert (H53 : (inject_Z k <= inject_Z (2 ^ 52) * 2 ^ 1)%Q).
    { change (2 ^ 1)%Q with (inject_Z 2). rewrite <- inject_Z_mult, <- Zle_Qle. lia. }
    eapply Qle_trans; [exact H53|].
    eapply Qle_trans; [apply Qmult_le_l; [done|]; apply (pow2_le 1 e); lia|].
    apply Qmult_le_compat_r; [done|lra].
Qed.

(** ** The radius *)

Lemma clamp_min_max (v : Z) : Z.min 10 (Z.max 2 v) = clamp v 2 10.
Proof.
  unfold clamp. destruct (v <? 2) eqn:E1; [apply Z.ltb_lt in E1; lia|].
  apply Z.ltb_ge in E1.
  destruct (10 <? v) eqn:E2; [apply Z.ltb_lt in E2|apply Z.ltb_ge in E2]; lia.
Qed.

Lemma Qmax_inject (z : Z) : Qmax 1 (inject_Z z) = inject_Z (Z.max 1 z).
Proof.
  unfold Qmax, GenericMinMax.gmax, Qcompare. cbn [Qnum Qden inject_Z].
  rewrite !Z.mul_1_r. destruct (1 ?= z) eqn:E.
  - apply Z.compare_eq_iff in E. by rewrite <- E.
  - change (1 < z) in E. by rewrite Z.max_r by lia.
  - change (1 > z) in E. by rewrite Z.max_l by lia.
Qed.

Lemma Qmin_inject (u v : Z) : Qmin (inject_Z u) (inject_Z v) = inject_Z (Z.min u v).
Proof.
  unfold Qmin, GenericMinMax.gmin, Qcompare. cbn [Qnum Qden inject_Z].
  rewrite !Z.mul_1_r. destruct (u ?= v) eqn:E.
  - apply Z.compare_eq_iff in E. by rewrite Z.min_l by lia.
  - change (u < v) in E. by rewrite Z.min_l by lia.
  - change (u > v) in E. by rewrite Z.min_r by lia.
Qed.

(** Below 200 the floor of the double product by [0.05] is the quotient
    by 20. *)
Lemma twentieth_small (m : Z) :
  1 ≤ m < 200 → Qfloor (fl (inject_Z m * fl (1 # 20))) = m / 20.
Proof.
  intros Hm.
  assert (Hall : forallb (λ m, Qfloor (fl (inject_Z m * fl (1 # 20))) =? m / 20)
                         (seqZ 1 199) = true) by (by vm_compute).
  rewrite forallb_forall in Hall.
  apply Z.eqb_eq, Hall, list_elem_of_In, elem_of_seqZ. lia.
Qed.

(** From 200 on it is at least 10. *)
Lemma twentieth_large (m : Z) :
  200 ≤ m → 10 ≤ Qfloor (fl (inject_Z m * fl (1 # 20))).
Proof.
  intros Hm. rewrite <- (Qfloor_Z 10). apply Qfloor_resp_le.
  apply fl_ge_Z; [lia|].
  assert (Hc : (1 # 20 <= fl (1 # 20))%Q) by (by vm_compute).
  assert (Hq : (inject_Z 200 <= inject_Z m)%Q) by (rewrite <- Zle_Qle; lia).
  change (inject_Z 200) with 200%Q in Hq. change (inject_Z 10) with 10%Q.
  set (c := fl (1 # 20)) in *. clearbody c. nra.
Qed.

(** On integer sizes the factor 0.05 is a division by 20. *)
Lemma calculateBlurRadius_integers (w h : Z) :
  calculateBlurRadius (inject_Z w) (inject_Z h)
  = clamp (Z.min (Z.max 1 w) (Z.max 1 h) / 20) 2 10.
Proof.
  unfold calculateBlurRadius. rewrite clamp_min_max, !Qmax_inject, Qmin_inject.
  set (m := Z.min (Z.max 1 w) (Z.max 1 h)).
  destruct (decide (m < 200)) as [Hm|Hm].
  - rewrite twentieth_small by lia. done.
  - pose proof (twentieth_large m ltac:(lia)) as Hl.
    assert (Hd : 10 ≤ m / 20) by (apply Z.div_le_lower_bound; lia).
    unfold clamp.
    destruct (Qfloor _ <? 2) eqn:E1; [apply Z.ltb_lt in E1; lia|].
    destruct (m / 20 <? 2) eqn:E2; [apply Z.ltb_lt in E2; lia|].
    destruct (10 <? Qfloor _) eqn:E3; destruct (10 <? m / 20) eqn:E4;
      rewrite ?Z.ltb_lt, ?Z.ltb_ge in *; lia.
Qed.

(** ** The filter in double precision at integer pixels *)

Lemma store_clamp (h : heap) (l : loc) (i : Q) (v v' : Num) :
  ToUint8Clamp v = ToUint8Clamp v' → store h l i v = store h l i v'.
Proof.
  intros E. unfold store. apply list_alter_ext; [|done].
  intros t _. unfold arraySet. by rewrite E.
Qed.

Lemma load_byte (h : heap) (l : loc) (a : list Z) (i : Q) (v : Z) :
  h !! l = Some a → Forall isByte a → load h l i = Some v → isByte v.
Proof.
  intros Hl Ha. unfold load. rewrite Hl. cbn [mbind option_bind].
  unfold arrayGet. destruct (isIndex i); [|done].
  intros Hv. by eapply (Forall_lookup_1 _ _ _ _ Ha).
Qed.

(** A sum of bytes below [2 ^ 53] is added to exactly. *)
Lemma addSample_toNum (s v : option Z) :
  (∀ x, s = Some x → 0 ≤ x < 2 ^ 52) → (∀ b, v = Some b → isByte b) →
  Binary64.addSample (toNum s) v = toNum (addSample s v).
Proof.
  intros Hs Hv. destruct s as [x|], v as [b|]; try done.
  specialize (Hs x eq_refl). specialize (Hv b eq_refl). unfold isByte in Hv.
  cbn [toNum fmap option_fmap option_map Binary64.addSample addSample].
  by rewrite inject_Z_add, fl_inject by lia.
Qed.

Section Bridge.
Context (a : list Z) (imageWidth imageHeight : Z).
Context (h : heap) (sourcePixels : loc).
Hypothesis Hsource : h !! sourcePixels = Some a.
Hypothesis Hbytes : Forall isByte a.
Hypothesis Hsize : 4 * imageWidth * imageHeight < 2 ^ 53.

Lemma fl_pixel_index (px py : Z) :
  0 ≤ px < imageWidth → 0 ≤ py < imageHeight →
  fl (fl (fl (inject_Z py * inject_Z imageWidth) + inject_Z px) * 4)
  = inject_Z ((py * imageWidth + px) * 4).
Proof.
  intros Hx Hy. change 4%Q with (inject_Z 4).
  rewrite inject_Z_mul, fl_inject by nia.
  rewrite inject_Z_add, fl_inject by nia.
  rewrite inject_Z_mul, fl_inject by nia. done.
Qed.

Lemma fl_channel_index (px py c : Z) :
  0 ≤ px < imageWidth → 0 ≤ py < imageHeight → 0 ≤ c < 4 →
  fl (inject_Z ((py * imageWidth + px) * 4) + inject_Z c)
  = inject_Z ((py * imageWidth + px) * 4 + c).
Proof. intros Hx Hy Hc. rewrite inject_Z_add, fl_inject by nia. done. Qed.

Lemma sampleStep_sumsBelow (x y : Q) (ky kx m : Z) (acc : Sums) :
  sumsBelow m acc →
  sumsBelow (m + 255) (sampleStep h sourcePixels imageWidth imageHeight x y ky kx acc).
Proof.
  intros Hacc. unfold sampleStep.
  destruct (_ && _ && _ && _).
  - intros v. cbn [r_sum g_sum b_sum].
    assert (Hadd : ∀ s i, addSample s (load h sourcePixels i) = Some v →
                          (∀ u, s = Some u → 0 ≤ u ≤ m) → 0 ≤ v ≤ m + 255).
    { intros s i E Hs. destruct s as [u|]; [|done].
      destruct (load h sourcePixels i) as [b|] eqn:Hb; [|done].
      injection E as <-. specialize (Hs u eq_refl).
      pose proof (load_byte h sourcePixels a i b Hsource Hbytes Hb) as Hbyte.
      unfold isByte in Hbyte. lia. }
    intros [E | [E | E]]; eapply Hadd; try exact E; intros u Hu; apply Hacc; auto.
  - intros v Hv. specialize (Hacc v Hv). lia.
Qed.

Lemma sampleStep_ofSums (px py ky kx m : Z) (acc : Sums) :
  0 ≤ px < imageWidth → 0 ≤ py < imageHeight →
  - 2 ^ 40 ≤ kx ≤ 2 ^ 40 → - 2 ^ 40 ≤ ky ≤ 2 ^ 40 →
  sumsBelow m acc → m < 2 ^ 52 →
  Binary64.sampleStep h sourcePixels imageWidth imageHeight
    (inject_Z px) (inject_Z py) ky kx (ofSums acc)
  = ofSums (sampleStep h sourcePixels imageWidth imageHeight
              (inject_Z px) (inject_Z py) ky kx acc).
Proof.
  intros Hx Hy Hkx Hky Hacc Hm. unfold Binary64.sampleStep, sampleStep.
  assert (HW : imageWidth < 2 ^ 51) by nia.
  assert (HH : imageHeight < 2 ^ 51) by nia.
  rewrite !inject_Z_add, !fl_inject by lia.
  change 0%Q with (inject_Z 0). rewrite !Qle_bool_inject, !Qltb_inject.
  destruct ((0 <=? px + kx) && (px + kx <? imageWidth) && (0 <=? py + ky)
            && (py + ky <? imageHeight)) eqn:Hin; [|done].
  apply andb_prop in Hin as [Hin Hy2]. apply andb_prop in Hin as [Hin Hy1].
  apply andb_prop in Hin as [Hx1 Hx2].
  apply Z.leb_le in Hx1, Hy1. apply Z.ltb_lt in Hx2, Hy2.
  rewrite fl_pixel_index by done.
  change 1%Q with (inject_Z 1). change 2%Q with (inject_Z 2).
  change 4%Q with (inject_Z 4).
  rewrite !fl_channel_index by (done || lia).
  rewrite !inject_Z_mul, !inject_Z_add, !inject_Z_mul, !inject_Z_add.
  unfold ofSums. cbn [r_sum g_sum b_sum count Binary64.r_sum Binary64.g_sum
                        Binary64.b_sum Binary64.count].
  rewrite !addSample_toNum; first done;
    try (intros b Hb; by eapply (load_byte h sourcePixels a));
    intros u Hu; (assert (0 ≤ u ≤ m) by (apply Hacc; auto)); lia.
Qed.

Lemma kernelRow_ofSums (px py ky m : Z) (kxs : list Z) (acc : Sums) :
  0 ≤ px < imageWidth → 0 ≤ py < imageHeight →
  - 2 ^ 40 ≤ ky ≤ 2 ^ 40 → Forall (λ kx, - 2 ^ 40 ≤ kx ≤ 2 ^ 40) kxs →
  sumsBelow m acc → m + 255 * Z.of_nat (length kxs) < 2 ^ 52 →
  foldl (λ acc kx, Binary64.sampleStep h sourcePixels imageWidth imageHeight
                     (inject_Z px) (inject_Z py) ky kx acc) (ofSums acc) kxs
  = ofSums (foldl (λ acc kx, sampleStep h sourcePixels imageWidth imageHeight
                               (inject_Z px) (inject_Z py) ky kx acc) acc kxs)
  ∧ sumsBelow (m + 255 * Z.of_nat (length kxs))
      (foldl (λ acc kx, sampleStep h sourcePixels imageWidth imageHeight
                          (inject_Z px) (inject_Z py) ky kx acc) acc kxs).
Proof.
  intros Hx Hy Hky Hkxs. revert m acc.
  induction Hkxs as [|kx kxs Hkx _ IH]; intros m acc Hacc Hm.
  - cbn [foldl length]. split; [done|]. intros v Hv. specialize (Hacc v Hv). lia.
  - cbn [foldl]. rewrite length_cons, Nat2Z.inj_succ in Hm |- *.
    rewrite (sampleStep_ofSums px py ky kx m) by (done || lia).
    destruct (IH (m + 255) _ (sampleStep_sumsBelow (inject_Z px) (inject_Z py) ky kx m acc Hacc) ltac:(lia))
      as [IH1 IH2].
    split; [exact IH1|].
    intros v Hv. specialize (IH2 v Hv). lia.
Qed.

Lemma kernelRows_ofSums (px py n m : Z) (kys kxs : list Z) (acc : Sums) :
  0 ≤ px < imageWidth → 0 ≤ py < imageHeight →
  Forall (λ ky, - 2 ^ 40 ≤ ky ≤ 2 ^ 40) kys →
  Forall (λ kx, - 2 ^ 40 ≤ kx ≤ 2 ^ 40) kxs →
  n = 255 * Z.of_nat (length kxs) →
  sumsBelow m acc → m + n * Z.of_nat (length kys) < 2 ^ 52 →
  foldl (λ acc ky,
           foldl (λ acc kx, Binary64.sampleStep h sourcePixels imageWidth imageHeight
                              (inject_Z px) (inject_Z py) ky kx acc) acc kxs)
        (ofSums acc) kys
  = ofSums (foldl (λ acc ky,
                     foldl (λ acc kx, sampleStep h sourcePixels imageWidth imageHeight
                                        (inject_Z px) (inject_Z py) ky kx acc) acc kxs)
                  acc kys).
Proof.
  intros Hx Hy Hkys Hkxs ->. revert m acc.
  induction Hkys as [|ky kys Hky _ IH]; intros m acc Hacc Hm; [done|].
  cbn [foldl]. rewrite length_cons, Nat2Z.inj_succ in Hm.
  destruct (kernelRow_ofSums px py ky m kxs acc) as [E Hbelow]; try done; [nia|].
  rewrite E. apply (IH (m + 255 * Z.of_nat (length kxs))); [done|nia].
Qed.

(** At an integer pixel of the image the kernel loops compute the sums
    of the exact filter. *)
Lemma kernel_ofSums (radius px py : Z) :
  radius ≤ 10 → 0 ≤ px < imageWidth → 0 ≤ py < imageHeight →
  Binary64.kernel h sourcePixels imageWidth imageHeight radius
                  (inject_Z px) (inject_Z py)
  = ofSums (kernel h sourcePixels imageWidth imageHeight radius
                   (inject_Z px) (inject_Z py)).
Proof.
  intros Hr Hx Hy. unfold Binary64.kernel, kernel.
  assert (Hks : Forall (λ k, - 2 ^ 40 ≤ k ≤ 2 ^ 40) (kernelRange radius)).
  { apply Forall_forall. intros k Hk. unfold kernelRange in Hk.
    apply elem_of_seqZ in Hk. lia. }
  assert (Hlen : Z.of_nat (length (kernelRange radius)) ≤ 21).
  { unfold kernelRange. rewrite length_seqZ. lia. }
  apply (kernelRows_ofSums px py (255 * Z.of_nat (length (kernelRange radius))) 0
           (kernelRange radius) (kernelRange radius)
           (mkSums (Some 0) (Some 0) (Some 0) 0)); try done.
  - intros v [E | [E | E]]; injection E as <-; lia.
  - nia.
Qed.

End Bridge.

Lemma length_pairs {A B} (ys : list B) (xs : list A) :
  length (y ← ys; x ← xs; [(x, y)]) = (length ys * length xs)%nat.
Proof.
  induction ys as [|y ys IH]; [done|].
  rewrite bind_cons, length_app, IH. cbn [length Nat.mul]. f_equal.
  clear. induction xs as [|x xs IH]; [done|].
  rewrite bind_cons. cbn [length app]. by rewrite IH.
Qed.

Lemma length_offsets (radius : Z) :
  length (offsets radius)
  = (length (kernelRange radius) * length (kernelRange radius))%nat.
Proof. apply length_pairs. Qed.

Lemma sampleCount_le (imageWidth imageHeight radius px py : Z) :
  radius ≤ 10 → sampleCount imageWidth imageHeight radius px py ≤ 441.
Proof.
  intros Hr. unfold sampleCount, neighbours, neighboursOf.
  pose proof (List.filter_length_le (inImage imageWidth imageHeight)
                ((λ k, (px + k.1, py + k.2)) <$> offsets radius)) as Hle.
  rewrite length_fmap, length_offsets in Hle.
  assert (Hk : (length (kernelRange radius) ≤ 21)%nat).
  { unfold kernelRange. rewrite length_seqZ. lia. }
  nia.
Qed.

Section Pixel.
Context (a : list Z) (imageWidth imageHeight : Z).
Context (h : heap) (sourcePixels : loc).
Hypothesis Hsource : h !! sourcePixels = Some a.
Hypothesis Hlen : length a = Z.to_nat (4 * imageWidth * imageHeight).
Hypothesis Hbytes : Forall isByte a.
Hypothesis Hsize : 4 * imageWidth * imageHeight < 2 ^ 53.

(** At an integer pixel of the image the filter in double precision
    does what the exact filter does. *)
Lemma blurPixel_integer (targetPixels : loc) (radius px py : Z) :
  radius ≤ 10 → 0 ≤ px < imageWidth → 0 ≤ py < imageHeight →
  Binary64.blurPixel targetPixels sourcePixels radius imageWidth imageHeight
                     (inject_Z px) (inject_Z py) h
  = blurPixel targetPixels sourcePixels radius imageWidth imageHeight
              (inject_Z px) (inject_Z py) h.
Proof.
  intros Hr Hx Hy. unfold Binary64.blurPixel, blurPixel.
  rewrite (kernel_ofSums a imageWidth imageHeight h sourcePixels Hsource Hbytes Hsize)
    by done.
  rewrite (fl_pixel_index imageWidth imageHeight Hsize) by done.
  change 1%Q with (inject_Z 1). change 2%Q with (inject_Z 2).
  change 3%Q with (inject_Z 3). change 4%Q with (inject_Z 4).
  rewrite !(fl_channel_index imageWidth imageHeight Hsize) by (done || lia).
  rewrite !inject_Z_mul, !inject_Z_add, !inject_Z_mul, !inject_Z_add.
  rewrite (kernel_source sourcePixels a radius imageWidth imageHeight h) by done.
  rewrite (kernel_at a imageWidth imageHeight Hlen).
  unfold ofSums. cbn [r_sum g_sum b_sum count Binary64.r_sum Binary64.g_sum
                        Binary64.b_sum Binary64.count].
  set (n := sampleCount imageWidth imageHeight radius px py).
  destruct (0 <? n) eqn:Hn; [|done].
  apply Z.ltb_lt in Hn.
  pose proof (sampleCount_le imageWidth imageHeight radius px py Hr) as Hn'.
  fold n in Hn'.
  assert (Hclamp : ∀ c,
            ToUint8Clamp (Binary64.divCount
                            (toNum (Some (channelSum a imageWidth imageHeight
                                            radius px py c))) n)
            = ToUint8Clamp (divCount (Some (channelSum a imageWidth imageHeight
                                              radius px py c)) n)).
  { intros c. unfold Binary64.divCount, divCount, toNum.
    cbn [fmap option_fmap option_map].
    pose proof (sumOf_bounds a imageWidth c
                  (neighbours imageWidth imageHeight radius px py) Hbytes) as Hb.
    apply ToUint8Clamp_fl; [lia|]. unfold channelSum. exact Hb. }
  cbv zeta.
  rewrite (store_clamp h _ _ _ _ (Hclamp 0)).
  rewrite (store_clamp _ _ (inject_Z ((py * imageWidth + px) * 4 + 1)) _ _ (Hclamp 1)).
  rewrite (store_clamp _ _ (inject_Z ((py * imageWidth + px) * 4 + 2)) _ _ (Hclamp 2)).
  done.
Qed.

End Pixel.

(** ** The pixel loops on an integer origin *)

Lemma Qceiling_le_Z (q : Q) (z : Z) : (q <= inject_Z z)%Q → Qceiling q ≤ z.
Proof. intros H. rewrite <- (Qceiling_Z z). by apply Qceiling_resp_le. Qed.

(** An integer is below a bound when it is below its ceiling. *)
Lemma Qltb_ceiling (v : Z) (bound : Q) :
  Qltb (inject_Z v) bound = (v <? Qceiling bound).
Proof.
  destruct (v <? Qceiling bound) eqn:E.
  - apply Z.ltb_lt in E. apply Qltb_lt.
    pose proof (Qceiling_lt bound) as Hc.
    assert (H : (inject_Z v <= inject_Z (Qceiling bound - 1))%Q)
      by (rewrite <- Zle_Qle; lia).
    lra.
  - apply Z.ltb_ge in E. apply Qltb_ge.
    pose proof (Qle_ceiling bound) as Hc.
    assert (H : (inject_Z (Qceiling bound) <= inject_Z v)%Q)
      by (rewrite <- Zle_Qle; lia).
    lra.
Qed.

Lemma Qceiling_minus_Z (q : Q) (z : Z) : Qceiling (q - inject_Z z) = Qceiling q - z.
Proof.
  unfold Qceiling.
  assert (E : Qfloor (- (q - inject_Z z)) = Qfloor (- q) + z); [|lia].
  apply Qfloor_unique.
  - pose proof (Qfloor_le (- q)) as H. rewrite inject_Z_plus. lra.
  - pose proof (Qlt_floor (- q)) as H. rewrite inject_Z_plus in H |- *.
    change (inject_Z 1) with 1%Q in H. lra.
Qed.

Lemma countUp_integers (bound : Q) (fuel : nat) (v : Z) :
  (Z.to_nat (Qceiling bound - v) < fuel)%nat →
  - 2 ^ 52 ≤ v → Qceiling bound ≤ 2 ^ 52 →
  Binary64.countUp fuel (inject_Z v) bound
  = Some (inject_Z <$> seqZ v (Qceiling bound - v)).
Proof.
  revert v. induction fuel as [|fuel IH]; intros v Hfuel Hv Hm; [lia|].
  cbn [Binary64.countUp]. rewrite Qltb_ceiling.
  destruct (v <? Qceiling bound) eqn:E.
  - apply Z.ltb_lt in E.
    change 1%Q with (inject_Z 1). rewrite inject_Z_add, fl_inject by lia.
    rewrite Qle_bool_inject, (proj2 (Z.leb_gt _ _)) by lia.
    rewrite IH by lia.
    rewrite (seqZ_cons v) by lia. cbn [fmap option_fmap option_map].
    rewrite fmap_cons.
    replace (Z.succ v) with (v + 1) by lia.
    replace (Z.pred (Qceiling bound - v)) with (Qceiling bound - (v + 1)) by lia.
    done.
  - apply Z.ltb_ge in E. rewrite (seqZ_nil v) by lia. done.
Qed.

Lemma loopRange_integer (start : Z) (bound : Q) :
  - 2 ^ 52 ≤ start → Qceiling bound ≤ 2 ^ 52 →
  Binary64.loopRange (inject_Z start) bound
  = Some (inject_Z <$> seqZ start (Qceiling bound - start)).
Proof.
  intros Hs Hb. unfold Binary64.loopRange. apply countUp_integers; [|done..].
  rewrite Qceiling_minus_Z. lia.
Qed.

Section Loops.
Context (a : list Z) (imageWidth imageHeight radius : Z).
Context (targetPixels sourcePixels : loc).
Hypothesis Hsep : targetPixels ≠ sourcePixels.
Hypothesis Hlen : length a = Z.to_nat (4 * imageWidth * imageHeight).
Hypothesis Hbytes : Forall isByte a.
Hypothesis Hsize : 4 * imageWidth * imageHeight < 2 ^ 53.
Hypothesis Hradius : radius ≤ 10.

Lemma blurRow_integer (xs : list Z) (py : Z) (h : heap) :
  h !! sourcePixels = Some a →
  Forall (λ px, 0 ≤ px < imageWidth) xs → 0 ≤ py < imageHeight →
  foldl (λ h x, Binary64.blurPixel targetPixels sourcePixels radius
                  imageWidth imageHeight x (inject_Z py) h) h (inject_Z <$> xs)
  = foldl (λ h x, blurPixel targetPixels sourcePixels radius
                    imageWidth imageHeight x (inject_Z py) h) h (inject_Z <$> xs).
Proof.
  intros Hs Hxs Hy. revert h Hs.
  induction Hxs as [|px xs Hx _ IH]; intros h Hs; [done|].
  rewrite fmap_cons. cbn [foldl].
  rewrite (blurPixel_integer a imageWidth imageHeight h sourcePixels Hs Hlen Hbytes Hsize)
    by done.
  apply IH.
  destruct (sameBut_blurPixel targetPixels sourcePixels radius imageWidth imageHeight
              (inject_Z px) (inject_Z py) h) as [_ Hsame].
  rewrite Hsame by done. exact Hs.
Qed.

Lemma blurRows_integer (ys xs : list Z) (h : heap) :
  h !! sourcePixels = Some a →
  Forall (λ px, 0 ≤ px < imageWidth) xs → Forall (λ py, 0 ≤ py < imageHeight) ys →
  foldl (λ h y,
           foldl (λ h x, Binary64.blurPixel targetPixels sourcePixels radius
                           imageWidth imageHeight x y h) h (inject_Z <$> xs))
        h (inject_Z <$> ys)
  = foldl (λ h y,
             foldl (λ h x, blurPixel targetPixels sourcePixels radius
                             imageWidth imageHeight x y h) h (inject_Z <$> xs))
          h (inject_Z <$> ys).
Proof.
  intros Hs Hxs Hys. revert h Hs.
  induction Hys as [|py ys Hy _ IH]; intros h Hs; [done|].
  rewrite fmap_cons. cbn [foldl].
  rewrite (blurRow_integer xs py h) by done.
  apply IH.
  assert (Hsame : sameBut targetPixels h
            (foldl (λ h x, blurPixel targetPixels sourcePixels radius
                             imageWidth imageHeight x (inject_Z py) h)
                   h (inject_Z <$> xs))).
  { apply sameBut_foldl. intros h' x. apply sameBut_blurPixel. }
  destruct Hsame as [_ Hsame]. rewrite Hsame by done. exact Hs.
Qed.

(** On a region with an integer origin the loops of the filter in double
    precision are those of the exact filter over the pixels from the
    origin to the ceilings of the sums [x + width] and [y + height] as
    the code rounds them. *)
Lemma applyBlurEffect_integer (x0 y0 : Z) (wd ht : Q) (h : heap) :
  h !! sourcePixels = Some a →
  let x1 := Qceiling (fl (inject_Z x0 + wd)) in
  let y1 := Qceiling (fl (inject_Z y0 + ht)) in
  0 < imageWidth → 0 < imageHeight →
  0 ≤ x0 → 0 ≤ y0 → x1 ≤ imageWidth → y1 ≤ imageHeight →
  Binary64.applyBlurEffect targetPixels sourcePixels
    (mkRectangle (inject_Z x0) (inject_Z y0) wd ht) radius imageWidth imageHeight h
  = Some (applyBlurEffect targetPixels sourcePixels
            (rectangle x0 y0 (x1 - x0) (y1 - y0)) radius imageWidth imageHeight h).
Proof.
  intros Hs x1 y1 HW0 HH0 Hx0 Hy0 Hx1 Hy1.
  unfold Binary64.applyBlurEffect, applyBlurEffect, rectangle.
  cbn [regionX regionY regionWidth regionHeight].
  rewrite !loopRange_inject.
  assert (HH : imageHeight < 2 ^ 51) by nia.
  assert (HW : imageWidth < 2 ^ 51) by nia.
  destruct (decide (y1 ≤ y0)) as [Hempty|Hrows].
  { rewrite (loopRange_integer y0) by (fold y1; lia). fold y1.
    rewrite (seqZ_nil y0) by lia. reflexivity. }
  rewrite (loopRange_integer y0) by (fold y1; lia). fold y1.
  cbn [mbind option_bind].
  destruct (inject_Z <$> seqZ y0 (y1 - y0)) as [|y ys] eqn:Hys.
  { rewrite (seqZ_cons y0) in Hys by lia. done. }
  rewrite <- Hys.
  rewrite (loopRange_integer x0) by (fold x1; lia). fold x1.
  cbn [mbind option_bind]. f_equal.
  apply blurRows_integer; [done|..]; apply Forall_forall; intros p Hp;
    apply elem_of_seqZ in Hp; lia.
Qed.

End Loops.

(** ** The processors in double precision *)

Lemma regionRejected64_iff (region : Rectangle) (imageWidth imageHeight : Z) :
  Binary64.regionRejected region imageWidth imageHeight = true
  ↔ Binary64.violatesInvariant region imageWidth imageHeight.
Proof.
  unfold Binary64.regionRejected, Binary64.violatesInvariant.
  rewrite !orb_true_iff, !Qltb_lt, !Qle_bool_iff. tauto.
Qed.

Lemma regionAccepted64_iff (region : Rectangle) (imageWidth imageHeight : Z) :
  Binary64.regionRejected region imageWidth imageHeight = false
  ↔ ¬ Binary64.violatesInvariant region imageWidth imageHeight.
Proof.
  rewrite <- regionRejected64_iff. by destruct (Binary64.regionRejected _ _ _).
Qed.

Lemma removeWatermark64_rejected (imageData : ImageData) (region : Rectangle)
    (w : World) :
  Binary64.regionRejected region (width imageData) (height imageData) = true →
  Binary64.removeWatermark imageData region w
  = (Throw InvalidRegion,
     withLogged (InvalidRegionLogged region (width imageData) (height imageData)) w).
Proof. intros H. unfold Binary64.removeWatermark. by rewrite H. Qed.

Lemma blurWatermark64_rejected (frameData : ImageData) (region : Rectangle)
    (w : World) :
  Binary64.regionRejected region (width frameData) (height frameData) = true →
  Binary64.blurWatermark frameData region w
  = (Return frameData,
     withLogged (InvalidRegionLogged region (width frameData) (height frameData)) w).
Proof. intros H. unfold Binary64.blurWatermark. by rewrite H. Qed.

(** On an accepted region the two processors do the same. *)
Lemma blurWatermark64_accepted (frameData : ImageData) (region : Rectangle)
    (w : World) :
  Binary64.regionRejected region (width frameData) (height frameData) = false →
  Binary64.blurWatermark frameData region w
  = Binary64.removeWatermark frameData region w.
Proof.
  intros H. unfold Binary64.blurWatermark, Binary64.removeWatermark. by rewrite H.
Qed.

(** On an accepted region the filter runs on a copy; the console is not
    written to, and nothing is thrown. *)
Lemma removeWatermark64_accepted (imageData : ImageData) (region : Rectangle)
    (w : World) :
  Binary64.regionRejected region (width imageData) (height imageData) = false →
  console (Binary64.removeWatermark imageData region w).2 = console w
  ∧ ∀ e, (Binary64.removeWatermark imageData region w).1 ≠ Throw e.
Proof.
  intros H. unfold Binary64.removeWatermark. rewrite H.
  unfold mbind, M_bind, newUint8ClampedArray, allocate, Binary64.onHeap.
  cbn [arrays console].
  by destruct (Binary64.applyBlurEffect _ _ _ _ _ _ _).
Qed.

(** An accepted region with an integer origin lies, rounded up, inside
    the image. *)
Lemma accepted64_bounds (x0 y0 : Z) (wd ht : Q) (imageWidth imageHeight : Z) :
  ¬ Binary64.violatesInvariant (mkRectangle (inject_Z x0) (inject_Z y0) wd ht)
      imageWidth imageHeight →
  0 ≤ x0 ∧ 0 ≤ y0
  ∧ Qceiling (fl (inject_Z x0 + wd)) ≤ imageWidth
  ∧ Qceiling (fl (inject_Z y0 + ht)) ≤ imageHeight.
Proof.
  unfold Binary64.violatesInvariant.
  cbn [regionX regionY regionWidth regionHeight]. intros Hok.
  assert (Hx : ¬ (inject_Z x0 < inject_Z 0)%Q) by (intros ?; apply Hok; auto).
  assert (Hy : ¬ (inject_Z y0 < inject_Z 0)%Q) by (intros ?; apply Hok; auto).
  rewrite <- Zlt_Qlt in Hx, Hy.
  assert (Hxw : (fl (inject_Z x0 + wd) <= inject_Z imageWidth)%Q)
    by (apply Qnot_lt_le; intros ?; apply Hok; auto 6).
  assert (Hyh : (fl (inject_Z y0 + ht) <= inject_Z imageHeight)%Q)
    by (apply Qnot_lt_le; intros ?; apply Hok; auto 7).
  apply Qceiling_le_Z in Hxw, Hyh. lia.
Qed.

(** What both processors return for an accepted region with an integer
    origin. *)
Lemma removeWatermark64_integer (w : World) (img : ImageData) (a : list Z)
    (x0 y0 : Z) (wd ht : Q) :
  holds w img a →
  0 < width img → 0 < height img → 4 * width img * height img < 2 ^ 53 →
  let region := mkRectangle (inject_Z x0) (inject_Z y0) wd ht in
  ¬ Binary64.violatesInvariant region (width img) (height img) →
  let x1 := Qceiling (fl (inject_Z x0 + wd)) in
  let y1 := Qceiling (fl (inject_Z y0 + ht)) in
  Binary64.removeWatermark img region w
  = (Return (mkImageData (length (arrays w)) (width img) (height img)),
     withArrays
       (arrays w ++ [blurOnto a a (rectangle x0 y0 (x1 - x0) (y1 - y0))
                       (calculateBlurRadius wd ht)
                       (width img) (height img)]) w).
Proof.
  intros (Ha & Hlen & Hbytes) HW HH Hsize region Hok x1 y1.
  destruct (accepted64_bounds _ _ _ _ _ _ Hok) as (Hx0 & Hy0 & Hx1 & Hy1).
  apply regionAccepted64_iff in Hok.
  unfold Binary64.removeWatermark. rewrite Hok.
  unfold mbind, M_bind, newUint8ClampedArray, allocate, Binary64.onHeap.
  cbn [arrays console canvas requested reported]. rewrite Ha. simpl default.
  assert (Hlt : (data img < length (arrays w))%nat) by by eapply lookup_lt_Some.
  assert (Hsep : length (arrays w) ≠ data img) by lia.
  assert (Hsrc : (arrays w ++ [a]) !! data img = Some a) by by rewrite lookup_app_l.
  pose proof (calculateBlurRadius_bounds wd ht) as Hr.
  unfold region. cbn [regionWidth regionHeight].
  rewrite (applyBlurEffect_integer a (width img) (height img)
             (calculateBlurRadius wd ht) (length (arrays w)) (data img)
             Hsep Hlen Hbytes Hsize ltac:(lia) x0 y0 wd ht _ Hsrc)
    by done.
  rewrite (applyBlurEffect_separate _ _ a _ _ _ Hsep _ _ a);
    [|done|by rewrite list_lookup_middle].
  rewrite insert_app_r_alt by done. rewrite Nat.sub_diag. reflexivity.
Qed.

(** ** The pixel loops end *)

(** Below [2 ^ 52] a counter grows by a half at least. *)
Lemma fl_succ_grows (v : Q) :
  (0 <= v)%Q → (v < inject_Z (2 ^ 52))%Q → (v + (1 # 2) <= fl (v + 1))%Q.
Proof.
  intros Hv Hlt.
  assert (Hq0 : ¬ (v + 1 == 0)%Q) by (intros E; lra).
  pose proof (fl_error (v + 1) Hq0) as Herr.
  destruct (binade_spec (v + 1) Hq0) as [Hlo _].
  rewrite Qabs_pos in Hlo by lra.
  assert (Hb : binade (v + 1) < 53).
  { apply pow2_lt_inv. eapply Qle_lt_trans; [exact Hlo|].
    rewrite <- pow2_inject by lia.
    assert (H : (inject_Z (2 ^ 52) + 1 <= inject_Z (2 ^ 53))%Q) by (by vm_compute).
    lra. }
  assert (Hhalf : (2 ^ (Z.max (binade (v + 1) - 52) (-1074) - 1) <= 2 ^ (-1))%Q)
    by (apply pow2_le; lia).
  change (2 ^ (-1))%Q with (1 # 2)%Q in Hhalf.
  apply Qabs_Qle_condition in Herr. lra.
Qed.

Lemma Qceiling_pos (t : Q) : (0 < t)%Q → 0 < Qceiling t.
Proof.
  intros Ht. pose proof (Qle_ceiling t) as Hc.
  assert (H : (inject_Z 0 < inject_Z (Qceiling t))%Q)
    by (change (inject_Z 0) with 0%Q; lra).
  by rewrite <- Zlt_Qlt in H.
Qed.

Lemma countUp_returns (bound : Q) (fuel : nat) (v : Q) :
  (0 <= v)%Q → (bound <= inject_Z (2 ^ 52))%Q →
  (Z.to_nat (Qceiling (2 * (bound - v))) < fuel)%nat →
  ∃ l, Binary64.countUp fuel v bound = Some l.
Proof.
  intros Hv Hb. revert v Hv. induction fuel as [|fuel IH]; intros v Hv Hfuel; [lia|].
  cbn [Binary64.countUp]. destruct (Qltb v bound) eqn:E; [|by eexists].
  apply Qltb_lt in E.
  pose proof (fl_succ_grows v Hv ltac:(lra)) as Hg.
  assert (Hstep : Qle_bool (fl (v + 1)) v = false).
  { destruct (Qle_bool (fl (v + 1)) v) eqn:E'; [|done].
    apply Qle_bool_iff in E'. lra. }
  rewrite Hstep.
  destruct (IH (fl (v + 1))) as [l Hl]; [lra| |rewrite Hl; by eexists].
  assert (Hle : (2 * (bound - fl (v + 1)) <= 2 * (bound - v) - inject_Z 1)%Q)
    by (change (inject_Z 1) with 1%Q; lra).
  apply Qceiling_resp_le in Hle. rewrite Qceiling_minus_Z in Hle.
  pose proof (Qceiling_pos (2 * (bound - v)) ltac:(lra)). lia.
Qed.

Lemma loopRange_returns (start bound : Q) :
  (0 <= start)%Q → (bound <= inject_Z (2 ^ 52))%Q →
  ∃ l, Binary64.loopRange start bound = Some l.
Proof.
  intros Hs Hb. unfold Binary64.loopRange. apply countUp_returns; [done..|].
  assert (H : Qceiling (2 * (bound - start)) ≤ 2 * Qceiling (bound - start)).
  { apply Qceiling_le_Z. rewrite inject_Z_mult.
    pose proof (Qle_ceiling (bound - start)). change (inject_Z 2) with 2%Q. lra. }
  lia.
Qed.

Lemma sameBut_blurPixel64 (targetPixels sourcePixels : loc)
    (radius imageWidth imageHeight : Z) (x y : Q) (h : heap) :
  sameBut targetPixels h
    (Binary64.blurPixel targetPixels sourcePixels radius imageWidth imageHeight x y h).
Proof.
  unfold Binary64.blurPixel. destruct (0 <? Binary64.count _);
    repeat (eapply sameBut_trans; [|apply sameBut_store]); apply sameBut_refl.
Qed.

(** On an accepted region of an image below [2 ^ 52] on each side the
    filter returns, and has touched the target array only. *)
Lemma applyBlurEffect64_returns (targetPixels sourcePixels : loc) (region : Rectangle)
    (radius imageWidth imageHeight : Z) (h : heap) :
  imageWidth ≤ 2 ^ 52 → imageHeight ≤ 2 ^ 52 →
  ¬ Binary64.violatesInvariant region imageWidth imageHeight →
  ∃ h', Binary64.applyBlurEffect targetPixels sourcePixels region radius
          imageWidth imageHeight h = Some h'
        ∧ sameBut targetPixels h h'.
Proof.
  intros HW HH Hok. unfold Binary64.violatesInvariant in Hok.
  assert (Hx : (0 <= regionX region)%Q) by (apply Qnot_lt_le; intros ?; apply Hok; auto).
  assert (Hy : (0 <= regionY region)%Q) by (apply Qnot_lt_le; intros ?; apply Hok; auto).
  assert (Hxw : (fl (regionX region + regionWidth region) <= inject_Z imageWidth)%Q)
    by (apply Qnot_lt_le; intros ?; apply Hok; auto 6).
  assert (Hyh : (fl (regionY region + regionHeight region) <= inject_Z imageHeight)%Q)
    by (apply Qnot_lt_le; intros ?; apply Hok; auto 7).
  rewrite Zle_Qle in HW, HH.
  destruct (loopRange_returns (regionY region)
              (fl (regionY region + regionHeight region)) Hy ltac:(lra)) as [ys Hys].
  destruct (loopRange_returns (regionX region)
              (fl (regionX region + regionWidth region)) Hx ltac:(lra)) as [xs Hxs].
  unfold Binary64.applyBlurEffect. rewrite Hys. cbn [mbind option_bind].
  destruct ys as [|y ys]; [eexists; split; [done|apply sameBut_refl]|].
  rewrite Hxs. cbn [mbind option_bind]. eexists. split; [done|].
  apply sameBut_foldl. intros h' y'. apply sameBut_foldl. intros h'' x'.
  apply sameBut_blurPixel64.
Qed.

(** A heap that differs from [h ++ [copy]] in its last array only. *)
Lemma sameBut_extended (h : heap) (copy : list Z) (h' : heap) :
  sameBut (length h) (h ++ [copy]) h' →
  ∃ new, h' = h ++ [new] ∧ length new = length copy.
Proof.
  intros [Hlen Hsame].
  assert (Hl : length h' = S (length h)).
  { apply (f_equal length) in Hlen. rewrite !length_fmap, length_app in Hlen.
    simpl in Hlen. lia. }
  destruct (h' !! length h) as [new|] eqn:Hnew.
  2: { apply lookup_ge_None in Hnew. lia. }
  exists new. split.
  - apply list_eq. intros j. destruct (decide (j = length h)) as [->|Hj].
    + by rewrite Hnew, list_lookup_middle.
    + rewrite Hsame by done.
      destruct (decide (j < length h)%nat) as [Hlt|Hge].
      * by rewrite !lookup_app_l.
      * rewrite !(proj2 (lookup_ge_None _ _)); [done|..];
          rewrite length_app; simpl; lia.
  - apply (f_equal (λ l, l !! length h)) in Hlen.
    rewrite !list_lookup_fmap, Hnew, list_lookup_middle in Hlen by done.
    simpl in Hlen. by injection Hlen.
Qed.

(** Both processors return a new frame for every accepted region,
    whatever its fields: the heap has one more array, as long as the
    source. *)
Lemma processors64_return (img : ImageData) (region : Rectangle) (w : World) :
  width img ≤ 2 ^ 52 → height img ≤ 2 ^ 52 →
  ¬ Binary64.violatesInvariant region (width img) (height img) →
  ∃ new,
    Binary64.removeWatermark img region w
    = (Return (mkImageData (length (arrays w)) (width img) (height img)),
       withArrays (arrays w ++ [new]) w)
    ∧ Binary64.blurWatermark img region w
      = (Return (mkImageData (length (arrays w)) (width img) (height img)),
         withArrays (arrays w ++ [new]) w)
    ∧ length new = length (samplesOf w img).
Proof.
  intros HW HH Hok.
  pose proof (proj2 (regionAccepted64_iff _ _ _) Hok) as Hacc.
  rewrite (blurWatermark64_accepted img region w Hacc).
  unfold Binary64.removeWatermark. rewrite Hacc.
  unfold mbind, M_bind, newUint8ClampedArray, allocate, Binary64.onHeap.
  cbn [arrays console canvas requested reported].
  destruct (applyBlurEffect64_returns (length (arrays w)) (data img) region
              (calculateBlurRadius (regionWidth region) (regionHeight region))
              (width img) (height img)
              (arrays w ++ [default [] (arrays w !! data img)]) HW HH Hok)
    as (h' & Hrun & Hsame).
  rewrite Hrun.
  destruct (sameBut_extended _ _ _ Hsame) as (new & -> & Hnew).
  exists new. done.
Qed.

(** ** Integer rectangles in double precision *)

(** On an image below [2 ^ 53] on each side, the validation in double
    precision rejects an integer rectangle exactly when it breaks the
    invariant. *)
Lemma violates64_rectangle (x0 y0 wd ht imageWidth imageHeight : Z) :
  0 ≤ imageWidth < 2 ^ 53 → 0 ≤ imageHeight < 2 ^ 53 →
  Binary64.violatesInvariant (rectangle x0 y0 wd ht) imageWidth imageHeight
  ↔ ¬ validRegion x0 y0 wd ht imageWidth imageHeight.
Proof.
  intros HW HH. unfold Binary64.violatesInvariant, validRegion, rectangle.
  cbn [regionX regionY regionWidth regionHeight].
  rewrite !inject_Z_add. change 0%Q with (inject_Z 0).
  rewrite <- !Zlt_Qlt, <- !Zle_Qle. split.
  - intros Hbad (Hx & Hy & Hw & Hh & Hxw & Hyh).
    rewrite !fl_inject in Hbad by lia. rewrite <- !Zlt_Qlt in Hbad. lia.
  - intros Hbad.
    destruct (decide (x0 < 0)); [auto|]. destruct (decide (y0 < 0)); [auto|].
    destruct (decide (wd ≤ 0)); [auto|]. destruct (decide (ht ≤ 0)); [auto|].
    destruct (decide (imageWidth < x0 + wd)) as [Hxw|Hxw].
    { do 4 right. left.
      eapply Qlt_le_trans; [|apply (fl_ge_Z (imageWidth + 1)); [lia|]];
        [rewrite <- Zlt_Qlt|rewrite <- Zle_Qle]; lia. }
    destruct (decide (imageHeight < y0 + ht)) as [Hyh|Hyh]; [|lia].
    do 5 right.
    eapply Qlt_le_trans; [|apply (fl_ge_Z (imageHeight + 1)); [lia|]];
      [rewrite <- Zlt_Qlt|rewrite <- Zle_Qle]; lia.
Qed.

(** On a frame of fewer than [2 ^ 53] samples and an integer rectangle,
    the processors in double precision are the processors of the
    definitions above: there every intermediate number of the filter is
    an integer below [2 ^ 53] or a quotient that is stored as the same
    byte. *)
Lemma processors_agree (w : World) (img : ImageData) (a : list Z) (x0 y0 wd ht : Z) :
  holds w img a →
  0 < width img → 0 < height img → 4 * width img * height img < 2 ^ 53 →
  Binary64.removeWatermark img (rectangle x0 y0 wd ht) w
  = removeWatermark img (rectangle x0 y0 wd ht) w
  ∧ Binary64.blurWatermark img (rectangle x0 y0 wd ht) w
    = blurWatermark img (rectangle x0 y0 wd ht) w.
Proof.
  intros Hh HW HH Hsize.
  assert (HW' : 0 ≤ width img < 2 ^ 53) by nia.
  assert (HH' : 0 ≤ height img < 2 ^ 53) by nia.
  destruct (decide (validRegion x0 y0 wd ht (width img) (height img))) as [Hv|Hv].
  - assert (Hok : ¬ Binary64.violatesInvariant (rectangle x0 y0 wd ht)
                      (width img) (height img))
      by (rewrite violates64_rectangle by done; tauto).
    pose proof (proj2 (regionAccepted64_iff _ _ _) Hok) as Hacc64.
    pose proof (proj2 (regionRejected_rectangle _ _ _ _ _ _) Hv) as Hacc.
    rewrite (blurWatermark64_accepted _ _ _ Hacc64), (blurWatermark_accepted _ _ _ Hacc).
    assert (E : Binary64.removeWatermark img (rectangle x0 y0 wd ht) w
                = removeWatermark img (rectangle x0 y0 wd ht) w); [|done].
    destruct Hh as (Ha & Hlen & Hbytes).
    rewrite (removeWatermark_blurred img _ w a Hacc Ha).
    unfold rectangle at 1.
    rewrite (removeWatermark64_integer w img a x0 y0 (inject_Z wd) (inject_Z ht))
      by done.
    unfold validRegion in Hv.
    rewrite !inject_Z_add, !fl_inject, !Qceiling_Z by lia.
    replace (x0 + wd - x0) with wd by lia. replace (y0 + ht - y0) with ht by lia.
    reflexivity.
  - assert (Hbad : Binary64.violatesInvariant (rectangle x0 y0 wd ht)
                     (width img) (height img))
      by (by apply violates64_rectangle).
    apply regionRejected64_iff in Hbad.
    assert (Hrej : regionRejected (rectangle x0 y0 wd ht) (width img) (height img) = true).
    { destruct (regionRejected _ _ _) eqn:E; [done|].
      by apply regionRejected_rectangle in E. }
    by rewrite removeWatermark64_rejected, blurWatermark64_rejected,
         removeWatermark_rejected, blurWatermark_rejected.
Qed.

(** The frame both processors return for an accepted region with an
    integer origin, sample by sample: the loops stop at the ceilings of
    the sums as the code rounds them. *)
Lemma filtered64_samples (w : World) (img : ImageData) (a : list Z)
    (x0 y0 : Z) (wd ht : Q) :
  holds w img a →
  0 < width img → 0 < height img → 4 * width img * height img < 2 ^ 53 →
  let region := mkRectangle (inject_Z x0) (inject_Z y0) wd ht in
  ¬ Binary64.violatesInvariant region (width img) (height img) →
  let x1 := Qceiling (fl (inject_Z x0 + wd)) in
  let y1 := Qceiling (fl (inject_Z y0 + ht)) in
  ∃ new,
    Binary64.removeWatermark img region w
    = (Return (mkImageData (length (arrays w)) (width img) (height img)),
       withArrays (arrays w ++ [new]) w)
    ∧ Binary64.blurWatermark img region w
      = (Return (mkImageData (length (arrays w)) (width img) (height img)),
         withArrays (arrays w ++ [new]) w)
    ∧ length new = length a
    ∧ ∀ px py c,
        0 ≤ px < width img → 0 ≤ py < height img → 0 ≤ c < 4 →
        new !! sampleIndex (width img) px py c
        = Some (if decide ((x0 ≤ px < x1) ∧ (y0 ≤ py < y1))
                then blurredChannel a (width img) (height img)
                       (calculateBlurRadius wd ht) px py c
                else channel a (width img) px py c).
Proof.
  intros Hh HW HH Hsize region Hok x1 y1.
  pose proof (proj2 (regionAccepted64_iff _ _ _) Hok) as Hacc.
  destruct (accepted64_bounds _ _ _ _ _ _ Hok) as (Hx0 & Hy0 & Hx1 & Hy1).
  fold x1 in Hx1. fold y1 in Hy1.
  eexists. rewrite (blurWatermark64_accepted _ _ _ Hacc).
  unfold region. rewrite (removeWatermark64_integer w img a x0 y0 wd ht) by done.
  fold x1 y1. destruct Hh as (Ha & Hlen & Hbytes).
  split; [done|]. split; [done|].
  rewrite blurOnto_rectangle.
  split; [by rewrite (length_blurPixelsOnto a)|].
  intros px py c Hpx Hpy Hc.
  rewrite (blurPixelsOnto_lookup a (width img) (height img) _ Hlen Hbytes);
    [|done| |done..].
  2: { apply Forall_forall. intros [qx qy] Hin. apply elem_of_regionPixels in Hin.
       unfold inRegion in Hin. apply inImage_bounds. lia. }
  destruct (decide ((x0 ≤ px < x1) ∧ (y0 ≤ py < y1))) as [Hin|Hout].
  - rewrite decide_True; [done|]. apply elem_of_regionPixels. unfold inRegion. lia.
  - rewrite decide_False.
    + by apply (lookup_channel a (width img) (height img)).
    + rewrite elem_of_regionPixels. unfold inRegion. lia.
Qed.

(** ** The rounding at work

    Inputs on which the rounding of the code decides the result. *)

(** The double product by [0.05] reaches an integer that the exact
    product stays below. *)
Example radius_of_rounded_product :
  let w := fl (5999999999999999 # 100000000000000) in
  Qfloor (w * (1 # 20)) = 2 ∧ calculateBlurRadius w 100 = 3.
Proof. by vm_compute. Qed.

(** A sum that rounds down to the width of the image passes the
    validation. *)
Example rounded_sum_accepted :
  let region := mkRectangle (2 ^ (-60)) 0 1 1 in
  (inject_Z 1 < regionX region + regionWidth region)%Q
  ∧ Binary64.regionRejected region 1 1 = false.
Proof. by vm_compute. Qed.

(** An index computed from a fractional coordinate that rounds to an
    integer is an index: the stores happen, of sums that are not
    numbers. *)
Example rounded_index_stores :
  let x := (1 + 2 ^ (-52))%Q in
  fl (fl (fl (1 * inject_Z 3) + x) * 4) = 16%Q
  ∧ Binary64.blurPixel 1 0 2 3 2 x 1 [replicate 24 7; replicate 24 7]
    = [replicate 24 7;
       replicate 16 7 ++ [0; 0; 0] ++ replicate 5 7].
Proof. by vm_compute. Qed.

(** The frame count of a source of 0.3 seconds, and of the doubles
    nearest to a third and to a thirtieth of a second, at 30 frames per
    second. *)
Example rounded_frame_counts :
  numFloor (numMul (Finite (fl (3 # 10))) 30) = Finite 9
  ∧ numFloor (numMul (Finite (fl (1 # 3))) 30) = Finite 10
  ∧ numFloor (numMul (Finite (fl (1 # 30))) 30) = Finite 1.
Proof. by vm_compute. Qed.

(** The percentage reported after the frame 29 of 50. *)
Example rounded_percentage :
  Qfloor (fl (fl (inject_Z 29 / 50) * 100)) = 57
  ∧ Qfloor (inject_Z 29 / 50 * 100) = 58.
Proof. by vm_compute. Qed.

(** * The claims about the filter *)

(** Both processors, on a held frame and a valid integer rectangle,
    return a fresh frame whose samples are [blurred a]. *)
Lemma processors_on_valid (w : World) (img : ImageData) (a : list Z) (x0 y0 wd ht : Z) :
  arrays w !! data img = Some a →
  validRegion x0 y0 wd ht (width img) (height img) →
  let region := rectangle x0 y0 wd ht in
  let out := mkImageData (length (arrays w)) (width img) (height img) in
  let w' := withArrays (arrays w ++ [blurred a region (width img) (height img)]) w in
  removeWatermark img region w = (Return out, w')
  ∧ blurWatermark img region w = (Return out, w')
  ∧ samplesOf w' out = blurred a region (width img) (height img).
Proof.
  intros Ha Hv region out w'.
  assert (Hacc : regionRejected region (width img) (height img) = false)
    by by apply regionRejected_rectangle.
  rewrite blurWatermark_accepted, (removeWatermark_blurred img region w a) by done.
  repeat split. unfold samplesOf, w', out, withArrays. cbn [arrays data].
  by rewrite list_lookup_middle.
Qed.

(** C1 (as amended).  For every valid region and held source buffer,
    both processors return a frame in which, for every pixel inside the
    region, the red, green and blue samples are the arithmetic mean of
    the source channel over the in-bounds kernel offsets, divided by the
    number of in-bounds samples (which is positive) and rounded to the
    nearest integer, ties to even, as the 8-bit buffer stores it; the
    alpha sample is the source alpha at that pixel.  And whatever radius
    the filter is run with on separate buffers, a pixel of the region
    with no in-bounds sample gets its four source samples verbatim. *)
Theorem blur_stores_rounded_mean (w : World) (img : ImageData) (a : list Z)
    (x0 y0 wd ht : Z) :
  holds w img a →
  validRegion x0 y0 wd ht (width img) (height img) →
  let region := rectangle x0 y0 wd ht in
  let radius := calculateBlurRadius (regionWidth region) (regionHeight region) in
  (∃ out w',
     removeWatermark img region w = (Return out, w')
     ∧ blurWatermark img region w = (Return out, w')
     ∧ ∀ px py, inRegion x0 y0 wd ht px py →
         let n := sampleCount (width img) (height img) radius px py in
         0 < n
         ∧ (∀ c, 0 ≤ c < 3 →
              let s := channelSum a (width img) (height img) radius px py c in
              samplesOf w' out !! sampleIndex (width img) px py c
              = Some (roundHalfEven s n)
              ∧ Z.abs (2 * (n * roundHalfEven s n - s)) ≤ n)
         ∧ samplesOf w' out !! sampleIndex (width img) px py 3
           = Some (channel a (width img) px py 3))
  ∧ (∀ (targetPixels sourcePixels : loc) (h : heap) (t : list Z) (anyRadius px py c : Z),
       targetPixels ≠ sourcePixels →
       h !! sourcePixels = Some a → h !! targetPixels = Some t →
       length t = length a →
       inRegion x0 y0 wd ht px py → 0 ≤ c < 4 →
       sampleCount (width img) (height img) anyRadius px py = 0 →
       applyBlurEffect targetPixels sourcePixels region anyRadius
                       (width img) (height img) h
         !! targetPixels ≫= (λ t', t' !! sampleIndex (width img) px py c)
       = Some (channel a (width img) px py c)).
Proof.
  intros (Ha & Hlen & Hbytes) Hv region radius. subst radius region.
  set (radius := calculateBlurRadius _ _). split.
  - destruct (processors_on_valid w img a x0 y0 wd ht Ha Hv) as (Hr & Hb & Hs).
    eexists _, _. split; [exact Hr|]. split; [exact Hb|].
    intros px py Hin n. rewrite Hs.
    assert (Hpx : 0 ≤ px < width img ∧ 0 ≤ py < height img)
      by (unfold inRegion, validRegion in *; lia).
    destruct Hpx as [Hpx Hpy].
    assert (Hn : 0 < n).
    { apply sampleCount_pos; [|done..].
      assert (Hb' : 2 ≤ radius ≤ 10) by apply calculateBlurRadius_bounds. lia. }
    assert (Hlook : ∀ c, 0 ≤ c < 4 →
              blurred a (rectangle x0 y0 wd ht) (width img) (height img)
                !! sampleIndex (width img) px py c
              = Some (blurredChannel a (width img) (height img) radius px py c)).
    { intros c Hc. unfold blurred.
      rewrite (blurOnto_lookup a (width img) (height img) Hlen Hbytes) by done.
      by rewrite decide_True. }
    split; [done|]. split.
    + intros c Hc s. split; [|by apply roundHalfEven_nearest].
      rewrite Hlook by lia. unfold blurredChannel.
      fold n. rewrite (proj2 (Z.ltb_lt c 3)), (proj2 (Z.ltb_lt 0 n)) by lia. done.
    + rewrite Hlook by lia. unfold blurredChannel. done.
  - intros tgt src h t anyRadius px py c Hsep Hsrc Htgt Ht Hin Hc Hzero.
    rewrite (applyBlurEffect_separate tgt src a _ _ _ Hsep _ h t) by done.
    rewrite list_lookup_insert_eq by by eapply lookup_lt_Some.
    cbn [mbind option_bind].
    assert (Hpx : 0 ≤ px < width img ∧ 0 ≤ py < height img)
      by (unfold inRegion, validRegion in *; lia).
    destruct Hpx as [Hpx Hpy].
    rewrite (blurOnto_lookup a (width img) (height img) Hlen Hbytes) by done.
    rewrite decide_True by done. unfold blurredChannel. rewrite Hzero.
    by rewrite andb_false_r.
Qed.

Lemma blur_stores_rounded_mean_witness :
  let w := worldOf [[0; 0; 0; 255; 3; 0; 0; 255]] in
  let img := mkImageData 0 2 1 in
  ∃ out w',
    removeWatermark img (rectangle 0 0 1 1) w = (Return out, w')
    ∧ samplesOf w' out !! sampleIndex 2 0 0 0 = Some 2.
Proof.
  intros w img.
  assert (Hholds : holds w img [0; 0; 0; 255; 3; 0; 0; 255]).
  { split; [reflexivity|]. split; [reflexivity|].
    repeat constructor; unfold isByte; lia. }
  assert (Hvalid : validRegion 0 0 1 1 (width img) (height img))
    by (unfold validRegion; simpl; lia).
  destruct (blur_stores_rounded_mean w img _ 0 0 1 1 Hholds Hvalid)
    as [(out & w' & Hr & _ & Hpix) _].
  exists out, w'. split; [exact Hr|].
  assert (Hin : inRegion 0 0 1 1 0 0) by (unfold inRegion; lia).
  destruct (Hpix 0 0 Hin) as (_ & Hrgb & _).
  destruct (Hrgb 0 ltac:(lia)) as [Hred _].
  exact Hred.
Defined.

(** C1 as stated fails: with red samples 0 and 3 in a 2 by 1 image the
    mean around the pixel (0, 0) is 3/2 and the stored sample is 2. *)
Lemma exact_mean_counterexample :
  let a := [0; 0; 0; 255; 3; 0; 0; 255] in
  let w := worldOf [a] in
  let img := mkImageData 0 2 1 in
  holds w img a
  ∧ validRegion 0 0 1 1 2 1
  ∧ inRegion 0 0 1 1 0 0
  ∧ ∃ out w',
      removeWatermark img (rectangle 0 0 1 1) w = (Return out, w')
      ∧ ¬ storesExactMean a (samplesOf w' out) 2 1 (calculateBlurRadius 1 1) 0 0 0.
Proof.
  intros a w img. split.
  { split; [reflexivity|]. split; [reflexivity|].
    repeat constructor; unfold isByte; lia. }
  split; [unfold validRegion; lia|]. split; [unfold inRegion; lia|].
  eexists _, _. split; [vm_compute; reflexivity|].
  vm_compute. discriminate.
Qed.

(** C2.  For every valid region and held source buffer, both processors
    return a frame of the same width and height, with a buffer of the
    same length, in which the four samples of every pixel outside the
    region are those of the source. *)
Theorem blur_preserves_outside (w : World) (img : ImageData) (a : list Z)
    (x0 y0 wd ht : Z) :
  holds w img a →
  validRegion x0 y0 wd ht (width img) (height img) →
  ∃ out w',
    removeWatermark img (rectangle x0 y0 wd ht) w = (Return out, w')
    ∧ blurWatermark img (rectangle x0 y0 wd ht) w = (Return out, w')
    ∧ width out = width img ∧ height out = height img
    ∧ length (samplesOf w' out) = length (samplesOf w img)
    ∧ ∀ px py c,
        0 ≤ px < width img → 0 ≤ py < height img →
        ¬ inRegion x0 y0 wd ht px py → 0 ≤ c < 4 →
        samplesOf w' out !! sampleIndex (width img) px py c
        = samplesOf w img !! sampleIndex (width img) px py c.
Proof.
  intros (Ha & Hlen & Hbytes) Hv.
  destruct (processors_on_valid w img a x0 y0 wd ht Ha Hv) as (Hr & Hb & Hs).
  eexists _, _. split; [exact Hr|]. split; [exact Hb|].
  split; [done|]. split; [done|]. rewrite Hs.
  assert (Hsrc : samplesOf w img = a) by (unfold samplesOf; by rewrite Ha).
  rewrite Hsrc. split.
  - unfold blurred. apply length_blurOnto.
  - intros px py c Hpx Hpy Hout Hc. unfold blurred.
    rewrite (blurOnto_lookup a (width img) (height img) Hlen Hbytes) by done.
    by rewrite decide_False.
Qed.

Lemma blur_preserves_outside_witness :
  let w := worldOf [[0; 0; 0; 255; 3; 0; 0; 255]] in
  let img := mkImageData 0 2 1 in
  ∃ out w',
    removeWatermark img (rectangle 0 0 1 1) w = (Return out, w')
    ∧ width out = 2 ∧ height out = 1
    ∧ samplesOf w' out !! sampleIndex 2 1 0 0 = Some 3.
Proof.
  intros w img.
  assert (Hholds : holds w img [0; 0; 0; 255; 3; 0; 0; 255]).
  { split; [reflexivity|]. split; [reflexivity|].
    repeat constructor; unfold isByte; lia. }
  assert (Hvalid : validRegion 0 0 1 1 (width img) (height img))
    by (unfold validRegion; simpl; lia).
  destruct (blur_preserves_outside w img _ 0 0 1 1 Hholds Hvalid)
    as (out & w' & Hr & _ & Hw & Hh & _ & Hout).
  exists out, w'. split; [exact Hr|]. split; [exact Hw|]. split; [exact Hh|].
  etrans; [apply (Hout 1 0 0); [simpl; lia|simpl; lia| |lia]|reflexivity].
  unfold inRegion. lia.
Defined.

(** ** The radius *)

(** C3.  The radius is a function of the width and the height alone,
    equal to [clamp(floor(min(max(1,w), max(1,h)) * 0.05), 2, 10)],
    where [0.05] is the double nearest to a twentieth and the product is
    the double product of the code; on integer sizes that is
    [clamp(min(max(1,w), max(1,h)) / 20, 2, 10)] with the integer
    quotient, as with an exact twentieth.  It lies in [2, 10], and it is
    2 for (40, 40), 10 for (400, 400) and 2 for (1, 1). *)
Theorem radius_formula :
  (∀ w h : Q,
     calculateBlurRadius w h
     = clamp (Qfloor (fl (Qmin (Qmax 1 w) (Qmax 1 h) * fl (1 # 20)))) 2 10
     ∧ 2 ≤ calculateBlurRadius w h ≤ 10)
  ∧ (∀ w h : Z,
       calculateBlurRadius (inject_Z w) (inject_Z h)
       = clamp (Z.min (Z.max 1 w) (Z.max 1 h) / 20) 2 10)
  ∧ calculateBlurRadius 40 40 = 2
  ∧ calculateBlurRadius 400 400 = 10
  ∧ calculateBlurRadius 1 1 = 2.
Proof.
  split; [|split; [apply calculateBlurRadius_integers|by vm_compute]].
  intros w h. split; [|apply calculateBlurRadius_bounds].
  unfold calculateBlurRadius. apply clamp_min_max.
Qed.

(** ** Uniform buffers *)

Lemma length_uniformBuffer (imageWidth imageHeight r g b al : Z) :
  length (uniformBuffer imageWidth imageHeight r g b al)
  = Z.to_nat (4 * imageWidth * imageHeight).
Proof.
  unfold uniformBuffer.
  assert (Hn : ∀ n, length (mjoin (replicate n [r; g; b; al])) = (4 * n)%nat).
  { induction n as [|n IH]; [done|]. simpl in *. lia. }
  rewrite Hn. lia.
Qed.

Lemma uniformBuffer_bytes (imageWidth imageHeight r g b al : Z) :
  isByte r → isByte g → isByte b → isByte al →
  Forall isByte (uniformBuffer imageWidth imageHeight r g b al).
Proof.
  intros Hr Hg Hb Hal. unfold uniformBuffer.
  induction (Z.to_nat (imageWidth * imageHeight)) as [|n IH]; [constructor|].
  simpl. by repeat (apply Forall_cons; split; [done|]).
Qed.

Lemma lookup_replicated (color : list Z) (n k c : nat) :
  (k < n)%nat → (c < length color)%nat →
  mjoin (replicate n color) !! (k * length color + c)%nat = color !! c.
Proof.
  revert k. induction n as [|n IH]; intros k Hk Hc; [lia|].
  simpl. destruct k as [|k].
  - simpl. by rewrite lookup_app_l.
  - rewrite lookup_app_r by (simpl; lia).
    replace (S k * length color + c - length color)%nat
      with (k * length color + c)%nat by (simpl; lia).
    apply IH; lia.
Qed.

(** In a uniform buffer every pixel of the image has the same color. *)
Lemma channel_uniform (imageWidth imageHeight r g b al px py c : Z) :
  0 ≤ px < imageWidth → 0 ≤ py < imageHeight → 0 ≤ c < 4 →
  channel (uniformBuffer imageWidth imageHeight r g b al) imageWidth px py c
  = [r; g; b; al] !!! Z.to_nat c.
Proof.
  intros Hx Hy Hc. unfold channel, uniformBuffer, sampleIndex.
  replace (Z.to_nat ((py * imageWidth + px) * 4 + c))
    with (Z.to_nat (py * imageWidth + px) * length [r; g; b; al] + Z.to_nat c)%nat
    by (simpl length; nia).
  apply list_lookup_total_correct.
  rewrite lookup_replicated by (simpl length; nia).
  apply list_lookup_lookup_total_lt. simpl. lia.
Qed.

Lemma neighbours_inImage (imageWidth imageHeight radius px py : Z) :
  Forall (λ p, inImage imageWidth imageHeight p = true)
         (neighbours imageWidth imageHeight radius px py).
Proof.
  apply Forall_forall. intros p Hp. unfold neighbours, neighboursOf in Hp.
  apply list_elem_of_In, filter_In in Hp. tauto.
Qed.

Lemma sumOf_uniform (imageWidth imageHeight r g b al c : Z) (ps : list (Z * Z)) :
  Forall (λ p, inImage imageWidth imageHeight p = true) ps → 0 ≤ c < 4 →
  sumOf (uniformBuffer imageWidth imageHeight r g b al) imageWidth c ps
  = Z.of_nat (length ps) * ([r; g; b; al] !!! Z.to_nat c).
Proof.
  intros Hps Hc. unfold sumOf. induction Hps as [|[px py] ps Hp Hps IH]; [done|].
  apply inImage_bounds in Hp as [Hx Hy].
  rewrite fmap_cons, length_cons, Nat2Z.inj_succ. cbn [foldr fst snd].
  rewrite IH, (channel_uniform imageWidth imageHeight) by done. lia.
Qed.

Lemma blurredChannel_uniform (imageWidth imageHeight radius r g b al px py c : Z) :
  0 ≤ px < imageWidth → 0 ≤ py < imageHeight → 0 ≤ c < 4 →
  blurredChannel (uniformBuffer imageWidth imageHeight r g b al)
                 imageWidth imageHeight radius px py c
  = [r; g; b; al] !!! Z.to_nat c.
Proof.
  intros Hx Hy Hc. unfold blurredChannel.
  destruct ((c <? 3) && (0 <? sampleCount imageWidth imageHeight radius px py)) eqn:E.
  - apply andb_true_iff in E as [_ Hn]. apply Z.ltb_lt in Hn.
    unfold channelSum.
    rewrite (sumOf_uniform imageWidth imageHeight)
      by (done || apply neighbours_inImage).
    fold (sampleCount imageWidth imageHeight radius px py).
    by apply roundHalfEven_exact.
  - by apply (channel_uniform imageWidth imageHeight).
Qed.

(** A buffer whose pixels all have the same color is a fixed point of
    the filter. *)
Lemma blurred_constant (a : list Z) (color : Z → Z)
    (imageWidth imageHeight x0 y0 w h : Z) :
  length a = Z.to_nat (4 * imageWidth * imageHeight) →
  Forall isByte a →
  (∀ px py c, 0 ≤ px < imageWidth → 0 ≤ py < imageHeight → 0 ≤ c < 4 →
     channel a imageWidth px py c = color c
     ∧ blurredChannel a imageWidth imageHeight
         (calculateBlurRadius (inject_Z w) (inject_Z h)) px py c = color c) →
  validRegion x0 y0 w h imageWidth imageHeight →
  blurred a (rectangle x0 y0 w h) imageWidth imageHeight = a.
Proof.
  intros Hlen Hbytes Hcolor Hv.
  apply (list_eq_same_length (blurred a (rectangle x0 y0 w h) imageWidth imageHeight)
           a (length a) eq_refl (length_blurOnto _ _ _ _ _ _)).
  intros i u v Hi Hu Hv'.
  destruct (sampleIndex_cover imageWidth imageHeight i) as (qx & qy & c & Hx & Hy & Hc & ->);
    [unfold validRegion in Hv; lia | lia |].
  unfold blurred in Hu.
  rewrite (blurOnto_lookup a imageWidth imageHeight Hlen Hbytes) in Hu by done.
  rewrite (lookup_channel a imageWidth imageHeight Hlen) in Hv' by done.
  destruct (Hcolor qx qy c Hx Hy Hc) as [Hch Hbl].
  destruct (decide _).
  - cbn [regionWidth regionHeight rectangle] in Hu. congruence.
  - rewrite (lookup_channel a imageWidth imageHeight Hlen) in Hu by done. congruence.
Qed.

Lemma blurred_uniform (imageWidth imageHeight r g b al x0 y0 w h : Z) :
  isByte r → isByte g → isByte b → isByte al →
  validRegion x0 y0 w h imageWidth imageHeight →
  blurred (uniformBuffer imageWidth imageHeight r g b al) (rectangle x0 y0 w h)
          imageWidth imageHeight
  = uniformBuffer imageWidth imageHeight r g b al.
Proof.
  intros Hr Hg Hb Hal Hv.
  apply (blurred_constant _ (λ c, [r; g; b; al] !!! Z.to_nat c)).
  - apply length_uniformBuffer.
  - by apply uniformBuffer_bytes.
  - intros px py c Hx Hy Hc. split.
    + by apply (channel_uniform imageWidth imageHeight).
    + by apply blurredChannel_uniform.
  - done.
Qed.

(** C4.  A buffer of uniform color is a fixed point of the blur for any
    valid region, in both processors; in particular on the 100 by 100
    buffer of color (200, 100, 50, 255) and the region
    {x: 20, y: 20, width: 30, height: 30} every pixel inside the region
    is (200, 100, 50, 255) in the output. *)
Theorem uniform_color_fixed_point :
  (∀ (w : World) (img : ImageData) (r g b al x0 y0 wd ht : Z),
     isByte r → isByte g → isByte b → isByte al →
     arrays w !! data img = Some (uniformBuffer (width img) (height img) r g b al) →
     validRegion x0 y0 wd ht (width img) (height img) →
     ∃ out w',
       removeWatermark img (rectangle x0 y0 wd ht) w = (Return out, w')
       ∧ blurWatermark img (rectangle x0 y0 wd ht) w = (Return out, w')
       ∧ width out = width img ∧ height out = height img
       ∧ samplesOf w' out = uniformBuffer (width img) (height img) r g b al)
  ∧ (let w := worldOf [uniformBuffer 100 100 200 100 50 255] in
     let img := mkImageData 0 100 100 in
     ∃ out w',
       removeWatermark img (rectangle 20 20 30 30) w = (Return out, w')
       ∧ ∀ px py, inRegion 20 20 30 30 px py →
           samplesOf w' out !! sampleIndex 100 px py 0 = Some 200
           ∧ samplesOf w' out !! sampleIndex 100 px py 1 = Some 100
           ∧ samplesOf w' out !! sampleIndex 100 px py 2 = Some 50
           ∧ samplesOf w' out !! sampleIndex 100 px py 3 = Some 255).
Proof.
  assert (General : ∀ (w : World) (img : ImageData) (r g b al x0 y0 wd ht : Z),
     isByte r → isByte g → isByte b → isByte al →
     arrays w !! data img = Some (uniformBuffer (width img) (height img) r g b al) →
     validRegion x0 y0 wd ht (width img) (height img) →
     ∃ out w',
       removeWatermark img (rectangle x0 y0 wd ht) w = (Return out, w')
       ∧ blurWatermark img (rectangle x0 y0 wd ht) w = (Return out, w')
       ∧ width out = width img ∧ height out = height img
       ∧ samplesOf w' out = uniformBuffer (width img) (height img) r g b al).
  { intros w img r g b al x0 y0 wd ht Hr Hg Hb Hal Ha Hv.
    destruct (processors_on_valid w img _ x0 y0 wd ht Ha Hv) as (Hrw & Hbw & Hs).
    eexists _, _. split; [exact Hrw|]. split; [exact Hbw|].
    split; [done|]. split; [done|]. rewrite Hs. by apply blurred_uniform. }
  split; [exact General|].
  intros w img.
  assert (Ha : arrays w !! data img
               = Some (uniformBuffer (width img) (height img) 200 100 50 255))
    by reflexivity.
  assert (Hv : validRegion 20 20 30 30 (width img) (height img))
    by (unfold validRegion; cbn [width height img]; lia).
  destruct (General w img 200 100 50 255 20 20 30 30)
    as (out & w' & Hrw & _ & _ & _ & Hs); try (unfold isByte; lia); [done..|].
  exists out, w'. split; [exact Hrw|]. intros px py [Hx Hy]. rewrite Hs.
  cbn [width height img].
  pose proof (length_uniformBuffer 100 100 200 100 50 255) as Hlen.
  pose proof (λ c, channel_uniform 100 100 200 100 50 255 px py c
                     ltac:(lia) ltac:(lia)) as Hch.
  clear Hs. revert Hlen Hch.
  generalize (uniformBuffer 100 100 200 100 50 255). intros a Hlen Hch.
  rewrite !(lookup_channel a 100 100 Hlen) by lia.
  rewrite !Hch by lia. by split_and!.
Qed.

Lemma uniform_color_fixed_point_witness :
  let w := worldOf [uniformBuffer 2 2 7 8 9 255] in
  let img := mkImageData 0 2 2 in
  ∃ out w',
    removeWatermark img (rectangle 0 0 1 2) w = (Return out, w')
    ∧ samplesOf w' out = uniformBuffer 2 2 7 8 9 255.
Proof.
  intros w img.
  destruct (proj1 uniform_color_fixed_point w img 7 8 9 255 0 0 1 2)
    as (out & w' & Hrw & _ & _ & _ & Hs);
    try (unfold isByte; lia); [reflexivity | unfold validRegion; simpl; lia |].
  exists out, w'. split; [exact Hrw | exact Hs].
Defined.

(** * The claims about validation *)

(** C5.  For every region that violates the Rectangle invariant, the
    sums [x + width] and [y + height] being those the code compares,
    [removeWatermark] throws the invalid-region error and no array of
    the heap has changed, while [blurWatermark] does not throw: it logs
    the violation and returns the very frame it was given, with the heap
    unchanged.  On an image below [2 ^ 53] on each side every integer
    rectangle that breaks the invariant is such a region. *)
Theorem invalid_region_handling (img : ImageData) (w : World) :
  (∀ region : Rectangle,
     Binary64.violatesInvariant region (width img) (height img) →
     (∃ w', Binary64.removeWatermark img region w = (Throw InvalidRegion, w')
            ∧ arrays w' = arrays w)
     ∧ (∃ w', Binary64.blurWatermark img region w = (Return img, w')
              ∧ arrays w' = arrays w
              ∧ console w'
                = console w ++ [InvalidRegionLogged region (width img) (height img)]))
  ∧ (∀ x0 y0 wd ht : Z,
       0 ≤ width img < 2 ^ 53 → 0 ≤ height img < 2 ^ 53 →
       ¬ validRegion x0 y0 wd ht (width img) (height img) →
       Binary64.violatesInvariant (rectangle x0 y0 wd ht) (width img) (height img)).
Proof.
  split.
  - intros region Hbad. apply regionRejected64_iff in Hbad. split.
    + eexists. by rewrite removeWatermark64_rejected.
    + eexists. by rewrite blurWatermark64_rejected.
  - intros x0 y0 wd ht HW HH Hbad. by apply violates64_rectangle.
Qed.

Lemma invalid_region_handling_witness :
  let w := worldOf [[0; 0; 0; 255; 3; 0; 0; 255]] in
  let img := mkImageData 0 2 1 in
  (∃ w', Binary64.removeWatermark img (rectangle 1 0 2 1) w
         = (Throw InvalidRegion, w')
         ∧ arrays w' = arrays w)
  ∧ (∃ w', Binary64.blurWatermark img (rectangle 1 0 2 1) w = (Return img, w')
           ∧ arrays w' = arrays w
           ∧ console w' = console w ++ [InvalidRegionLogged (rectangle 1 0 2 1) 2 1]).
Proof.
  intros w img.
  apply (proj1 (invalid_region_handling img w) (rectangle 1 0 2 1)).
  apply (proj2 (invalid_region_handling img w) 1 0 2 1).
  - simpl. lia.
  - simpl. lia.
  - unfold validRegion. simpl. lia.
Defined.

(** C10.  Both processors reject a rectangle exactly when it violates
    one of the six inequalities, the sums being those the code compares;
    nothing else is tested.  A rectangle that satisfies them is
    filtered whether or not its fields are integers: on a frame below
    [2 ^ 52] on each side both processors run the filter to its end and
    return a new frame of the size of the source.  When the origin is
    an integer, on a frame of fewer than [2 ^ 53] samples, the new frame
    is the source blurred over the pixels from the origin to the
    ceilings of the two sums; and there is a rectangle none of whose
    fields is an integer that is accepted, on which the filter reads
    and writes at the indices computed from the fractional coordinates. *)
Theorem validation_ignores_integrality :
  (∀ (img : ImageData) (region : Rectangle) (w : World),
     ((Binary64.removeWatermark img region w).1 = Throw InvalidRegion
      ↔ Binary64.violatesInvariant region (width img) (height img))
     ∧ (console (Binary64.blurWatermark img region w).2
        = console w ++ [InvalidRegionLogged region (width img) (height img)]
        ↔ Binary64.violatesInvariant region (width img) (height img)))
  ∧ (∀ (w : World) (img : ImageData) (a : list Z) (region : Rectangle),
       holds w img a →
       0 < width img ≤ 2 ^ 52 → 0 < height img ≤ 2 ^ 52 →
       ¬ Binary64.violatesInvariant region (width img) (height img) →
       ∃ new,
         Binary64.removeWatermark img region w
         = (Return (mkImageData (length (arrays w)) (width img) (height img)),
            withArrays (arrays w ++ [new]) w)
         ∧ Binary64.blurWatermark img region w
           = (Return (mkImageData (length (arrays w)) (width img) (height img)),
              withArrays (arrays w ++ [new]) w)
         ∧ length new = length a)
  ∧ (∀ (w : World) (img : ImageData) (a : list Z) (x0 y0 : Z) (wd ht : Q),
       holds w img a →
       0 < width img → 0 < height img → 4 * width img * height img < 2 ^ 53 →
       let region := mkRectangle (inject_Z x0) (inject_Z y0) wd ht in
       ¬ Binary64.violatesInvariant region (width img) (height img) →
       let x1 := Qceiling (fl (inject_Z x0 + wd)) in
       let y1 := Qceiling (fl (inject_Z y0 + ht)) in
       ∃ new,
         Binary64.removeWatermark img region w
         = (Return (mkImageData (length (arrays w)) (width img) (height img)),
            withArrays (arrays w ++ [new]) w)
         ∧ Binary64.blurWatermark img region w
           = (Return (mkImageData (length (arrays w)) (width img) (height img)),
              withArrays (arrays w ++ [new]) w)
         ∧ length new = length a
         ∧ ∀ px py c,
             0 ≤ px < width img → 0 ≤ py < height img → 0 ≤ c < 4 →
             new !! sampleIndex (width img) px py c
             = Some (if decide ((x0 ≤ px < x1) ∧ (y0 ≤ py < y1))
                     then blurredChannel a (width img) (height img)
                            (calculateBlurRadius wd ht) px py c
                     else channel a (width img) px py c))
  ∧ (let region := mkRectangle (1 # 2) (1 # 2) (3 # 2) (5 # 4) in
     let img := mkImageData 0 2 2 in
     let w := worldOf [[1; 2; 3; 4; 5; 6; 7; 8; 9; 10; 11; 12; 13; 14; 15; 16]] in
     isInteger (regionX region) = false ∧ isInteger (regionY region) = false
     ∧ isInteger (regionWidth region) = false
     ∧ isInteger (regionHeight region) = false
     ∧ ¬ Binary64.violatesInvariant region (width img) (height img)
     ∧ ∃ out w',
         Binary64.removeWatermark img region w = (Return out, w')
         ∧ Binary64.blurWatermark img region w = (Return out, w')
         ∧ samplesOf w' out = [1; 2; 3; 4; 5; 6; 0; 0; 0; 10; 0; 0; 0; 14; 0; 0]).
Proof.
  split; [|split; [|split]].
  - intros img region w.
    destruct (Binary64.regionRejected region (width img) (height img)) eqn:E.
    + pose proof (proj1 (regionRejected64_iff _ _ _) E) as Hbad.
      rewrite removeWatermark64_rejected, blurWatermark64_rejected by done.
      by split.
    + pose proof (proj1 (regionAccepted64_iff _ _ _) E) as Hok.
      rewrite blurWatermark64_accepted by done.
      destruct (removeWatermark64_accepted img region w E) as [Hc Ht].
      split; (split; [|done]).
      * intros Hthrow. by apply Ht in Hthrow.
      * rewrite Hc. intros Heq. apply (f_equal length) in Heq.
        rewrite length_app in Heq. simpl in Heq. lia.
  - intros w img a region (Ha & _ & _) HW HH Hok.
    destruct (processors64_return img region w) as (new & Hr & Hb & Hlen);
      [lia|lia|done|].
    exists new. split; [done|]. split; [done|].
    rewrite Hlen. unfold samplesOf. by rewrite Ha.
  - intros w img a x0 y0 wd ht Hh HW HH Hsize region Hok x1 y1.
    by apply filtered64_samples.
  - intros region img w. repeat split; try reflexivity.
    + intros Hbad. apply regionRejected64_iff in Hbad. by vm_compute in Hbad.
    + eexists _, _. split; [by vm_compute|]. split; by vm_compute.
Qed.

Lemma validation_ignores_integrality_witness :
  let w := worldOf [[0; 0; 0; 255; 3; 0; 0; 255]] in
  let img := mkImageData 0 2 1 in
  let region := mkRectangle 0 0 (3 # 2) 1 in
  ∃ new,
    Binary64.removeWatermark img region w
    = (Return (mkImageData 1 2 1), withArrays (arrays w ++ [new]) w)
    ∧ new !! 4%nat = Some 2.
Proof.
  intros w img region.
  assert (Hh : holds w img [0; 0; 0; 255; 3; 0; 0; 255]).
  { split; [reflexivity|]. split; [reflexivity|].
    repeat constructor; unfold isByte; lia. }
  assert (Hok : ¬ Binary64.violatesInvariant (mkRectangle (inject_Z 0) (inject_Z 0) (3 # 2) 1)
                    (width img) (height img)).
  { intros Hbad. apply regionRejected64_iff in Hbad. by vm_compute in Hbad. }
  destruct (proj1 (proj2 (proj2 validation_ignores_integrality))
              w img _ 0 0 (3 # 2)%Q 1%Q Hh ltac:(simpl; lia) ltac:(simpl; lia)
              ltac:(simpl; lia) Hok)
    as (new & Hr & _ & _ & Hnew).
  exists new. split; [exact Hr|].
  pose proof (Hnew 1 0 0 ltac:(simpl; lia) ltac:(simpl; lia) ltac:(lia)) as H.
  vm_compute in H. exact H.
Defined.

(** The heap after either processor ran: the heap before, possibly
    followed by one new array as long as the source. *)
Lemma processors_extend_heap (img : ImageData) (region : Rectangle) (w : World) :
  (arrays (removeWatermark img region w).2 = arrays w
   ∨ ∃ new, arrays (removeWatermark img region w).2 = arrays w ++ [new]
            ∧ length new = length (samplesOf w img))
  ∧ (arrays (blurWatermark img region w).2 = arrays w
     ∨ ∃ new, arrays (blurWatermark img region w).2 = arrays w ++ [new]
              ∧ length new = length (samplesOf w img)).
Proof.
  destruct (regionRejected region (width img) (height img)) eqn:E.
  - rewrite removeWatermark_rejected, blurWatermark_rejected by done.
    split; by left.
  - rewrite blurWatermark_accepted, removeWatermark_accepted by done.
    cbn [snd withArrays arrays].
    destruct (filtered_heap (data img) region
                (calculateBlurRadius (regionWidth region) (regionHeight region))
                (width img) (height img) (arrays w)) as (new & Hnew & Hlen).
    split; right; exists new; by rewrite Hnew.
Qed.



(** In place, on one array, the filter gives another result: the
    separation of the two buffers matters. *)
Lemma in_place_differs :
  let a := [0; 0; 0; 255; 255; 0; 0; 255; 0; 0; 0; 255] in
  applyBlurEffect 0 0 (rectangle 0 0 3 1) 2 3 1 [a] ≠ [blurred a (rectangle 0 0 3 1) 3 1].
Proof. by vm_compute. Qed.

(** C9.  The blur is not idempotent: on the 3 by 1 image with red
    samples 0, 255, 0 and the region of its first pixel, blurring the
    blurred frame again gives other samples than blurring once, in both
    processors. *)
Theorem blur_not_idempotent :
  ∃ (w : World) (img : ImageData) (a : list Z) (x0 y0 wd ht : Z),
    holds w img a
    ∧ validRegion x0 y0 wd ht (width img) (height img)
    ∧ (∃ once w1 twice w2,
         removeWatermark img (rectangle x0 y0 wd ht) w = (Return once, w1)
         ∧ removeWatermark once (rectangle x0 y0 wd ht) w1 = (Return twice, w2)
         ∧ samplesOf w2 twice ≠ samplesOf w1 once)
    ∧ (∃ once w1 twice w2,
         blurWatermark img (rectangle x0 y0 wd ht) w = (Return once, w1)
         ∧ blurWatermark once (rectangle x0 y0 wd ht) w1 = (Return twice, w2)
         ∧ samplesOf w2 twice ≠ samplesOf w1 once).
Proof.
  exists (worldOf [[0; 0; 0; 255; 255; 0; 0; 255; 0; 0; 0; 255]]),
         (mkImageData 0 3 1), [0; 0; 0; 255; 255; 0; 0; 255; 0; 0; 0; 255],
         0, 0, 1, 1.
  split.
  { split; [reflexivity|]. split; [reflexivity|].
    repeat (apply Forall_cons; split; [unfold isByte; lia|]). constructor. }
  split; [unfold validRegion; simpl; lia|].
  split; eexists _, _, _, _; (split; [by vm_compute|]); (split; [by vm_compute|]);
    by vm_compute.
Qed.

(** * The frame pipeline *)

Lemma extractFrame_extraction (videoElement : VideoElement) (timeInSeconds : Q)
    (w : World) :
  let response := seek videoElement (requested w) timeInSeconds in
  let w1 := mkWorld (arrays w) (console w) (canvas w)
                    (requested w ++ [timeInSeconds]) (reported w) in
  extractFrame videoElement timeInSeconds w
  = match extraction response with
    | Return (w', h') =>
        (Return (mkImageData (length (arrays w)) w' h'),
         mkWorld (arrays w ++ [picture response]) (console w) (w', h')
                 (requested w ++ [timeInSeconds]) (reported w))
    | Throw e => (Throw e, w1)
    | Pending => (Pending, w1)
    end.
Proof.
  intros response w1. unfold extractFrame, extraction.
  unfold mbind, M_bind, setCurrentTime. fold response.
  destruct ((2 <=? readyState (state response)) && (0 <? videoWidth (state response))
            && (0 <? videoHeight (state response))); [done|].
  destruct (event response); try done.
  by destruct ((videoWidth (state response) =? 0) || (videoHeight (state response) =? 0)).
Qed.

(** [blurWatermark] on a frame that was just extracted. *)
Lemma blurWatermark_extracted (region : Rectangle) (w : World) (pic : list Z)
    (w' h' : Z) (cv : Z * Z) (rq : list Q) :
  let w1 := mkWorld (arrays w ++ [pic]) (console w) cv rq (reported w) in
  ∃ f w2,
    blurWatermark (mkImageData (length (arrays w)) w' h') region w1 = (Return f, w2)
    ∧ (∃ extra, arrays w2 = arrays w ++ extra)
    ∧ is_Some (arrays w2 !! data f)
    ∧ samplesOf w2 f = (if regionRejected region w' h' then pic
                        else blurred pic region w' h')
    ∧ requested w2 = rq
    ∧ reported w2 = reported w
    ∧ console w2 = console w ++ (if regionRejected region w' h'
                                 then [InvalidRegionLogged region w' h'] else []).
Proof.
  intros w1. destruct (regionRejected region w' h') eqn:E.
  - rewrite blurWatermark_rejected by done. eexists _, _. split; [done|].
    unfold samplesOf, withLogged, w1. cbn [arrays data console requested reported].
    rewrite list_lookup_middle by done.
    split_and!; try done; by eexists.
  - rewrite blurWatermark_accepted by done.
    rewrite (removeWatermark_blurred _ region w1 pic) by
      (done || (unfold w1; cbn [arrays data]; by rewrite list_lookup_middle)).
    eexists _, _. split; [done|].
    unfold samplesOf, withArrays, w1. cbn [arrays data console requested reported width height].
    rewrite list_lookup_middle by done. rewrite app_nil_r.
    split_and!; try done; try by eexists.
    exists [pic; blurred pic region w' h']. by rewrite <- app_assoc.
Qed.

Lemma extraction_dimensions (response : SeekResponse) (w' h' : Z) :
  extraction response = Return (w', h') →
  w' = videoWidth (state response) ∧ h' = videoHeight (state response).
Proof.
  unfold extraction.
  destruct ((2 <=? _) && _ && _); [by intros [= <- <-]|].
  destruct (event response); try done.
  destruct ((_ =? 0) || _); [done|]. by intros [= <- <-].
Qed.

(** One turn of the loop on an extraction that settles: a failure is
    logged and the turn returns the frames it was given; a success adds
    one frame. *)
Lemma processFrame_settled (videoElement : VideoElement) (region : Rectangle)
    (hasCallback : bool) (total rate : Q) (frames : list ImageData) (i : Z) (w : World) :
  let response := seek videoElement (requested w) (timeOf rate i) in
  settles response = true →
  ∃ new w',
    processFrame videoElement region hasCallback total rate frames i w
    = (Return (frames ++ new), w')
    ∧ (∃ extra, arrays w' = arrays w ++ extra)
    ∧ Forall (λ f, is_Some (arrays w' !! data f)) new
    ∧ samplesOf w' <$> new
      = (if succeeds response then [processedSamples region response] else [])
    ∧ requested w' = requested w ++ [timeOf rate i]
    ∧ console w' = console w ++ logOf region rate (i, response).
Proof.
  intros response Hsettles.
  unfold processFrame, tryCatch, mbind, M_bind.
  fold (timeOf rate i). rewrite extractFrame_extraction. fold response.
  unfold settles in Hsettles. unfold succeeds, logOf, processedSamples. cbn [fst snd].
  destruct (extraction response) as [[w1 h1]|e|] eqn:E; [| |done].
  - apply extraction_dimensions in E as [-> ->].
    destruct (blurWatermark_extracted region w (picture response)
                (videoWidth (state response)) (videoHeight (state response))
                (videoWidth (state response), videoHeight (state response))
                (requested w ++ [timeOf rate i]))
      as (f & w2 & Hblur & Hext & Hf & Hs & Hrq & Hrp & Hc).
    cbv zeta in Hblur. rewrite Hblur.
    destruct hasCallback.
    + exists [f]. eexists. split; [reflexivity|].
      cbn [arrays requested console fmap list_fmap]. rewrite <- Hs.
      split_and!; try done. by apply Forall_singleton.
    + exists [f]. eexists. split; [reflexivity|].
      cbn [arrays requested console fmap list_fmap]. rewrite <- Hs.
      split_and!; try done. by apply Forall_singleton.
  - exists []. eexists. rewrite app_nil_r. split; [reflexivity|].
    cbn [arrays requested console fmap list_fmap].
    split_and!; try done. exists []. by rewrite app_nil_r.
Qed.

(** The samples of a frame stay what they are when the heap grows. *)
Lemma samplesOf_extended (w w' : World) (extra : heap) (frames : list ImageData) :
  arrays w' = arrays w ++ extra →
  Forall (λ f, is_Some (arrays w !! data f)) frames →
  samplesOf w' <$> frames = samplesOf w <$> frames
  ∧ Forall (λ f, is_Some (arrays w' !! data f)) frames.
Proof.
  intros Hext Hframes. induction Hframes as [|f frames [s Hf] _ [IH1 IH2]]; [done|].
  assert (Hf' : arrays w' !! data f = Some s)
    by (rewrite Hext; by apply lookup_app_l_Some).
  split.
  - rewrite !fmap_cons, IH1. f_equal. unfold samplesOf. by rewrite Hf, Hf'.
  - apply Forall_cons. split; [by eexists | done].
Qed.

(** The loop, when every extraction settles. *)
Lemma frameLoop_settled (videoElement : VideoElement) (region : Rectangle)
    (hasCallback : bool) (total rate : Q) (indices : list Z)
    (frames : list ImageData) (w : World) :
  let samples := extractions videoElement rate (requested w) indices in
  forallb (λ p, settles p.2) samples = true →
  ∃ new w',
    frameLoop videoElement region hasCallback total rate indices frames w
    = (Return (frames ++ new), w')
    ∧ (∃ extra, arrays w' = arrays w ++ extra)
    ∧ Forall (λ f, is_Some (arrays w' !! data f)) new
    ∧ samplesOf w' <$> new
      = (λ p, processedSamples region p.2) <$> List.filter (λ p, succeeds p.2) samples
    ∧ requested w' = requested w ++ (timeOf rate <$> indices)
    ∧ console w' = console w ++ (samples ≫= logOf region rate).
Proof.
  revert frames w. induction indices as [|i rest IH]; intros frames w samples Hall.
  - exists [], w. cbn [frameLoop]. rewrite !app_nil_r.
    split_and!; try done. exists []. by rewrite app_nil_r.
  - cbn [extractions] in samples. subst samples.
    change (forallb ?f (?x :: ?l)) with (f x && forallb f l) in Hall.
    cbn beta in Hall. cbn [snd] in Hall.
    apply andb_true_iff in Hall as [Hi Hrest].
    destruct (processFrame_settled videoElement region hasCallback total rate
                frames i w Hi) as (new1 & w1 & Hstep & [e1 He1] & Hv1 & Hs1 & Hr1 & Hc1).
    cbn [frameLoop]. unfold mbind, M_bind. rewrite Hstep.
    rewrite <- Hr1 in Hrest.
    destruct (IH (frames ++ new1) w1 Hrest)
      as (new2 & w2 & Hloop & [e2 He2] & Hv2 & Hs2 & Hr2 & Hc2).
    change (frameLoop videoElement region hasCallback total rate rest
              (frames ++ new1) w1 = (Return ((frames ++ new1) ++ new2), w2)) in Hloop.
    rewrite Hloop. exists (new1 ++ new2), w2.
    destruct (samplesOf_extended w1 w2 e2 new1 He2 Hv1) as [Hsame Hv1'].
    split_and!.
    + by rewrite app_assoc.
    + exists (e1 ++ e2). by rewrite He2, He1, app_assoc.
    + by apply Forall_app.
    + rewrite fmap_app, Hsame, Hs1, Hs2. cbn [List.filter snd].
      rewrite <- Hr1. by destruct (succeeds _).
    + rewrite Hr2, Hr1, fmap_cons, <- app_assoc. done.
    + rewrite Hc2, Hc1, <- Hr1. cbn [mbind list_bind]. by rewrite <- app_assoc.
Qed.

(** ** [processVideo] around the loop *)

Lemma resolveDimensions_keeps (videoElement : VideoElement) (w : World) :
  let w' := (resolveDimensions videoElement w).2 in
  arrays w' = arrays w ∧ console w' = console w
  ∧ requested w' = requested w ∧ reported w' = reported w.
Proof.
  unfold resolveDimensions, mbind, M_bind.
  destruct ((0 <? _) && (0 <? _)); [done|].
  destruct (1 <=? _).
  - cbn. by destruct ((_ =? 0) || (_ =? 0)).
  - destruct (loadedmetadata videoElement) as [[w1 h1]|]; [|done].
    cbn. by destruct ((_ =? 0) || (_ =? 0)).
Qed.

Lemma resolveDimensions_available (videoElement : VideoElement) (w : World) :
  0 < videoWidth (initially videoElement) →
  0 < videoHeight (initially videoElement) →
  (resolveDimensions videoElement w).1 = Return tt.
Proof.
  intros Hw Hh. unfold resolveDimensions.
  by rewrite (proj2 (Z.ltb_lt 0 _) Hw), (proj2 (Z.ltb_lt 0 _) Hh).
Qed.

Lemma resolveDimensions_throws (videoElement : VideoElement) (w : World) (e : Error) :
  (resolveDimensions videoElement w).1 = Throw e → e = DimensionsUnavailable.
Proof.
  unfold resolveDimensions, mbind, M_bind.
  destruct ((0 <? _) && (0 <? _)); [done|].
  destruct (1 <=? _).
  - cbn. destruct ((_ =? 0) || (_ =? 0)); [|done]. by intros [= <-].
  - destruct (loadedmetadata videoElement) as [[w1 h1]|]; [|done].
    cbn. destruct ((_ =? 0) || (_ =? 0)); [|done]. by intros [= <-].
Qed.

(** The loop catches what [extractFrame] throws: it never throws. *)
Lemma processFrame_never_throws (videoElement : VideoElement) (region : Rectangle)
    (hasCallback : bool) (total rate : Q) (frames : list ImageData) (i : Z)
    (w : World) (e : Error) :
  (processFrame videoElement region hasCallback total rate frames i w).1 ≠ Throw e.
Proof.
  unfold processFrame, tryCatch, mbind, M_bind.
  destruct (extractFrame _ _ w) as [[f|e'|] w1]; [|done..].
  unfold blurWatermark.
  destruct (regionRejected _ _ _); destruct hasCallback; done.
Qed.

Lemma frameLoop_never_throws (videoElement : VideoElement) (region : Rectangle)
    (hasCallback : bool) (total rate : Q) (indices : list Z)
    (frames : list ImageData) (w : World) (e : Error) :
  (frameLoop videoElement region hasCallback total rate indices frames w).1 ≠ Throw e.
Proof.
  revert frames w. induction indices as [|i rest IH]; intros frames w; [done|].
  cbn [frameLoop]. unfold mbind, M_bind.
  pose proof (processFrame_never_throws videoElement region hasCallback total rate
                frames i w e) as Hstep.
  destruct (processFrame _ _ _ _ _ _ _ w) as [[frames'|e'|] w1];
    [apply IH | exact Hstep | done].
Qed.

Section AroundTheLoop.
Context (mediaRecorder : list (list Z) → Q → Recording).

Lemma assembleVideo_keeps (frames : list ImageData) (frameRate : Q) (w : World) :
  (assembleVideo mediaRecorder frames frameRate w).1 ≠ Throw NoFramesProcessed
  ∧ requested (assembleVideo mediaRecorder frames frameRate w).2 = requested w
  ∧ arrays (assembleVideo mediaRecorder frames frameRate w).2 = arrays w.
Proof.
  unfold assembleVideo. destruct frames as [|first rest]; [done|].
  unfold mbind, M_bind. cbn [setCanvas frameSamples].
  destruct (mediaRecorder _ _) as [chunks| |];
    [destruct (length chunks =? 0)%nat|..]; cbn; by split_and!.
Qed.

Lemma processVideo_invalid (videoElement : VideoElement) (region : Rectangle)
    (hasCallback : bool) (w : World) :
  numLeb (totalOf videoElement) 0 || negb (isFinite (totalOf videoElement)) = true →
  processVideo mediaRecorder videoElement region hasCallback w = (Throw InvalidSource, w).
Proof.
  intros H. unfold processVideo. fold (rateOf videoElement). fold (totalOf videoElement).
  by rewrite H.
Qed.

Lemma processVideo_loop (videoElement : VideoElement) (region : Rectangle)
    (hasCallback : bool) (w w1 w2 : World) (frames : list ImageData) :
  numLeb (totalOf videoElement) 0 || negb (isFinite (totalOf videoElement)) = false →
  resolveDimensions videoElement w = (Return tt, w1) →
  frameLoop videoElement region hasCallback (finiteValue (totalOf videoElement))
            (rateOf videoElement) (countTo (totalOf videoElement)) [] w1
  = (Return frames, w2) →
  processVideo mediaRecorder videoElement region hasCallback w
  = if (length frames =? 0)%nat then (Throw NoFramesProcessed, w2)
    else assembleVideo mediaRecorder frames (rateOf videoElement) w2.
Proof.
  intros Hguard Hdim Hloop. unfold processVideo.
  fold (rateOf videoElement). fold (totalOf videoElement). rewrite Hguard.
  unfold mbind, M_bind. rewrite Hdim, Hloop.
  by destruct (length frames =? 0)%nat.
Qed.

Lemma processVideo_no_frames (videoElement : VideoElement) (region : Rectangle)
    (hasCallback : bool) (w : World) :
  (processVideo mediaRecorder videoElement region hasCallback w).1
  = Throw NoFramesProcessed →
  ∃ w1 w2,
    resolveDimensions videoElement w = (Return tt, w1)
    ∧ frameLoop videoElement region hasCallback (finiteValue (totalOf videoElement))
                (rateOf videoElement) (countTo (totalOf videoElement)) [] w1
      = (Return [], w2).
Proof.
  unfold processVideo. fold (rateOf videoElement). fold (totalOf videoElement).
  destruct (numLeb _ 0 || negb _); [done|].
  unfold mbind, M_bind.
  pose proof (resolveDimensions_throws videoElement w) as Hdim.
  destruct (resolveDimensions videoElement w) as [[[]|e|] w1] eqn:Hd;
    [| cbn in *; intros [= ->]; by specialize (Hdim _ eq_refl) | done].
  pose proof (frameLoop_never_throws videoElement region hasCallback
                (finiteValue (totalOf videoElement)) (rateOf videoElement)
                (countTo (totalOf videoElement)) [] w1) as Hloop.
  destruct (frameLoop _ _ _ _ _ _ _ w1) as [[frames|e|] w2] eqn:Hl;
    [| cbn in *; intros _; by destruct (Hloop e) | done].
  destruct frames as [|f frames].
  - intros _. by exists w1, w2.
  - cbn [length Nat.eqb]. intros H.
    by destruct (assembleVideo_keeps (f :: frames) (rateOf videoElement) w2) as [Hne _].
Qed.

End AroundTheLoop.

(** * The claims about the frame pipeline *)



(** ** The sampling schedule *)

Lemma rateOf_capped (videoElement : VideoElement) : (rateOf videoElement <= 30)%Q.
Proof. unfold rateOf. apply Q.le_min_l. Qed.

(** A count that passes the guard is a positive integer. *)
Lemma passing_count (videoElement : VideoElement) :
  numLeb (totalOf videoElement) 0 = false →
  isFinite (totalOf videoElement) = true →
  ∃ count, 0 < count
           ∧ totalOf videoElement = Finite (inject_Z count)
           ∧ countTo (totalOf videoElement) = seqZ 0 count.
Proof.
  unfold totalOf. destruct (numMul _ _) as [d| | |]; cbn; try done.
  intros Hpos _. exists (Qfloor d). split_and!; [|done|by rewrite Qceiling_Z].
  change 0%Q with (inject_Z 0) in Hpos. rewrite Qle_bool_inject in Hpos.
  by apply Z.leb_gt in Hpos.
Qed.



